(** * Writing editor: the rule pipeline of writing-editor-mcp, embedded in Rocq

    The development follows the TypeScript sources:
    - [rules/clarity.rules.ts]   (class ClarityRules),
    - [rules/style.rules.ts]     (class StyleRules),
    - [rules/structure.rules.ts] (class StructureRules),
    - [processors/documentParser.ts] (class DocumentProcessor),
    - [tools/generateTracking.ts] and [tools/editDocument.ts].

    Modelling choices.
    - A JavaScript string is a list of characters ([str]); the embedding covers
      ASCII text: case mapping acts on the letters A-Z / a-z and the class [\s]
      is the ASCII white space (tab, line feed, vertical tab, form feed,
      carriage return, space).
    - Regular expressions are transcribed one by one from the source into the
      type [regex] and run by a backtracking matcher with the priorities of
      the JavaScript matcher (greedy and lazy quantifiers, ordered
      alternatives, capture groups, the assertions ^ $ \b).
    - Each rule engine owns a mutable [changes] array; it is threaded through
      every operation as an explicit accumulator.
    - [processDocument] runs its section callbacks as [async] functions on
      one thread; the order of their two halves (up to the [await], behind
      it) is the order of the job queue and is written out.
    - Numbers that are doubles in the source and only pass through +, -, *, /
      and min/max are exact rationals ([Q]); rounding is not modelled.

    The file has three parts: the embedding of the sources, the notions the
    statements use, and the properties with their proofs. *)

From Stdlib Require Import Ascii String.
From Stdlib Require Import List Bool Arith Lia PeanoNat.
From Stdlib Require Import QArith Qminmax Qround.
From Stdlib Require DecimalString.
Import ListNotations.
Close Scope Q_scope.

Set Implicit Arguments.
Local Open Scope string_scope.
Local Open Scope nat_scope.
Local Open Scope list_scope.

(** ** Strings *)

Definition str := list ascii.

(** [L "abc"] is the string literal ['abc'] of the source. *)
Definition L (s : string) : str := list_ascii_of_string s.

Definition dquote : ascii := "034"%char.

Definition str_eqb (a b : str) : bool :=
  if list_eq_dec ascii_dec a b then true else false.

Module Chr.

Definition code (c : ascii) : nat := nat_of_ascii c.

Definition between (lo hi : nat) (c : ascii) : bool :=
  (lo <=? code c) && (code c <=? hi).

Definition is_upper : ascii -> bool := between 65 90.
Definition is_lower : ascii -> bool := between 97 122.
Definition is_digit : ascii -> bool := between 48 57.

(** [\w] *)
Definition is_word (c : ascii) : bool :=
  is_upper c || is_lower c || is_digit c || (code c =? 95).

(** [\s] *)
Definition is_space (c : ascii) : bool :=
  between 9 13 c || (code c =? 32).

(** [.] : anything but a line terminator *)
Definition is_dot (c : ascii) : bool :=
  negb ((code c =? 10) || (code c =? 13)).

Definition toLower (c : ascii) : ascii :=
  if is_upper c then ascii_of_nat (code c + 32) else c.

Definition toUpper (c : ascii) : ascii :=
  if is_lower c then ascii_of_nat (code c - 32) else c.

Definition eqb (a b : ascii) : bool := Ascii.eqb a b.

(** character comparison under the [i] flag *)
Definition eqb_ci (a b : ascii) : bool := Ascii.eqb (toUpper a) (toUpper b).

(** membership in a bracket class such as [[.,!?;:]] *)
Definition one_of (s : string) (c : ascii) : bool :=
  existsb (Ascii.eqb c) (list_ascii_of_string s).

Definition none_of (s : string) (c : ascii) : bool := negb (one_of s c).

End Chr.

Module Str.

Definition toLowerCase (s : str) : str := map Chr.toLower s.
Definition toUpperCase (s : str) : str := map Chr.toUpper s.

Fixpoint startsWith (p s : str) : bool :=
  match p, s with
  | [], _ => true
  | a :: p', b :: s' => Chr.eqb a b && startsWith p' s'
  | _ :: _, [] => false
  end.

(** [s.includes(p)] *)
Fixpoint includes (p s : str) : bool :=
  startsWith p s ||
  match s with
  | [] => false
  | _ :: s' => includes p s'
  end.

Definition endsWith (p s : str) : bool := startsWith (rev p) (rev s).

Fixpoint trimStart (s : str) : str :=
  match s with
  | c :: s' => if Chr.is_space c then trimStart s' else s
  | [] => []
  end.

Definition trimEnd (s : str) : str := rev (trimStart (rev s)).

Definition trim (s : str) : str := trimEnd (trimStart s).

(** [a.join(sep)] *)
Fixpoint join (sep : str) (l : list str) : str :=
  match l with
  | [] => []
  | [x] => x
  | x :: tl => x ++ sep ++ join sep tl
  end.

(** [s.slice(0, -n)] *)
Definition dropEnd (n : nat) (s : str) : str := firstn (length s - n) s.

(** [s.slice(-1)] *)
Definition lastChar (s : str) : str := skipn (length s - 1) s.

(** [s.charAt(0).toUpperCase() + s.slice(1)] *)
Definition capitalize (s : str) : str :=
  match s with
  | [] => []
  | c :: s' => Chr.toUpper c :: s'
  end.

(** [s.split(c)] for a one-character separator string *)
Fixpoint splitChar (sep : ascii) (cur : str) (s : str) : list str :=
  match s with
  | [] => [rev cur]
  | c :: s' =>
      if Chr.eqb c sep then rev cur :: splitChar sep [] s'
      else splitChar sep (c :: cur) s'
  end.

Definition ofNat (n : nat) : str :=
  L (DecimalString.NilEmpty.string_of_uint (Nat.to_uint n)).

End Str.

(** ** Regular expressions *)

Inductive regex : Type :=
| Eps
| Cls (p : ascii -> bool)                       (* one character of a class *)
| Seq (a b : regex)
| Alt (a b : regex)                             (* a|b, a tried first *)
| Rep (greedy : bool) (min : nat) (p : ascii -> bool)
                                                (* p{min,} and p{min,}? *)
| Grp (n : nat) (r : regex)                     (* capture group number n *)
| Bol                                           (* ^ *)
| Eol                                           (* $ *)
| Wordb.                                        (* \b *)

Module Re.

Record mstate : Type := MState {
  prev : option ascii;          (* the character before the position *)
  pos  : nat;                   (* index of the position *)
  rest : str;                   (* input from the position on *)
  caps : list (nat * str)       (* captures, latest first *)
}.

Definition is_word_opt (o : option ascii) : bool :=
  match o with Some c => Chr.is_word c | None => false end.

Definition orElse {A} (x : option A) (y : unit -> option A) : option A :=
  match x with Some r => Some r | None => y tt end.

(** The quantified class [p{min,}]: the greedy form tries one more
    character before it tries the continuation, the lazy form the
    continuation first. *)
Fixpoint rep (greedy : bool) (p : ascii -> bool) (k : mstate -> option mstate)
         (min : nat) (pv : option ascii) (i : nat) (cs : list (nat * str))
         (l : str) {struct l} : option mstate :=
  let here (_ : unit) :=
    match min with 0 => k (MState pv i l cs) | S _ => None end in
  match l with
  | c :: l' =>
      if p c then
        let more (_ : unit) := rep greedy p k (Nat.pred min) (Some c) (S i) cs l' in
        if greedy then orElse (more tt) here else orElse (here tt) more
      else here tt
  | [] => here tt
  end.

(** Backtracking matcher in continuation-passing style: [run r k st] matches
    [r] at the position [st] and hands every candidate end position to [k],
    in the order of priority, until [k] accepts one. *)
Fixpoint run (r : regex) (k : mstate -> option mstate) (st : mstate)
  : option mstate :=
  match r with
  | Eps => k st
  | Cls p =>
      match rest st with
      | c :: l' => if p c then k (MState (Some c) (S (pos st)) l' (caps st)) else None
      | [] => None
      end
  | Seq a b => run a (run b k) st
  | Alt a b => orElse (run a k st) (fun _ => run b k st)
  | Rep g min p => rep g p k min (prev st) (pos st) (caps st) (rest st)
  | Grp n r' =>
      run r' (fun st' =>
                k (MState (prev st') (pos st') (rest st')
                          ((n, firstn (pos st' - pos st) (rest st)) :: caps st')))
          st
  | Bol => if pos st =? 0 then k st else None
  | Eol => match rest st with [] => k st | _ :: _ => None end
  | Wordb =>
      if xorb (is_word_opt (prev st)) (is_word_opt (hd_error (rest st)))
      then k st else None
  end.

(** A successful match: its text and its captures. *)
Record found : Type := Found {
  matched : str;
  groups  : list (nat * str)
}.

Fixpoint lookup (n : nat) (cs : list (nat * str)) : str :=
  match cs with
  | [] => []
  | (m, s) :: tl => if n =? m then s else lookup n tl
  end.

(** [$n] *)
Definition cap (f : found) (n : nat) : str := lookup n (groups f).

(** The match that starts exactly at the position, if any. *)
Definition match_at (r : regex) (pv : option ascii) (i : nat) (l : str)
  : option found :=
  match run r (fun st => Some st) (MState pv i l []) with
  | Some st => Some (Found (firstn (pos st - i) l) (caps st))
  | None => None
  end.

(** One step of a scan: what the scan yields at a position. *)
Inductive token : Type :=
| Plain (c : ascii)           (* a character outside every match *)
| Hit (f : found).            (* a match, starting here *)

(** The left-to-right scan of a global regular expression: at every
    position outside a match the leftmost match is taken, and the scan
    resumes behind it (one character further after an empty match). *)
Fixpoint scan (r : regex) (skip : nat) (pv : option ascii) (i : nat) (l : str)
  : list token :=
  match skip with
  | S n =>
      match l with
      | c :: l' => scan r n (Some c) (S i) l'
      | [] => []
      end
  | 0 =>
      match match_at r pv i l with
      | Some f =>
          Hit f ::
          match l with
          | c :: l' =>
              match length (matched f) with
              | 0 => Plain c :: scan r 0 (Some c) (S i) l'
              | S n => scan r n (Some c) (S i) l'
              end
          | [] => []
          end
      | None =>
          match l with
          | c :: l' => Plain c :: scan r 0 (Some c) (S i) l'
          | [] => []
          end
      end
  end.

(** The same scan that stops after its first match (no [g] flag). *)
Fixpoint scan1 (r : regex) (pv : option ascii) (i : nat) (l : str)
  : list token :=
  match match_at r pv i l with
  | Some f => Hit f :: map Plain (skipn (length (matched f)) l)
  | None =>
      match l with
      | c :: l' => Plain c :: scan1 r (Some c) (S i) l'
      | [] => []
      end
  end.

Definition hits (ts : list token) : list found :=
  flat_map (fun t => match t with Hit f => [f] | Plain _ => [] end) ts.

Definition render (f : found -> str) (ts : list token) : str :=
  flat_map (fun t => match t with Hit m => f m | Plain c => [c] end) ts.

(** [s.match(/r/g) || []] *)
Definition matchAll (r : regex) (s : str) : list str :=
  map matched (hits (scan r 0 None 0 s)).

(** [s.match(/r/)] without the [g] flag, and [/r/.exec(s)] *)
Definition exec (r : regex) (s : str) : option found :=
  hd_error (hits (scan1 r None 0 s)).

(** [/r/.test(s)] *)
Definition test (r : regex) (s : str) : bool :=
  match exec r s with Some _ => true | None => false end.

(** [s.replace(/r/g, f)] *)
Definition replaceAll (r : regex) (f : found -> str) (s : str) : str :=
  render f (scan r 0 None 0 s).

(** [s.replace(/r/, f)] without the [g] flag *)
Definition replaceFirst (r : regex) (f : found -> str) (s : str) : str :=
  render f (scan1 r None 0 s).

(** The capture groups of an expression, in the order of their opening
    parentheses. *)
Fixpoint groupsOf (r : regex) : list nat :=
  match r with
  | Seq a b | Alt a b => groupsOf a ++ groupsOf b
  | Grp n r' => n :: groupsOf r'
  | _ => []
  end.

(** [s.split(/r/)]: [cur] is the piece read since the last separator,
    reversed. A match that is empty at the start of a piece is no
    separator; the captures of a separator are spliced into the result. *)
Fixpoint splitLoop (r : regex) (skip : nat) (cur : str) (pv : option ascii)
         (i : nat) (l : str) : list str :=
  match l with
  | [] => [rev cur]
  | c :: l' =>
      match skip with
      | S n => splitLoop r n cur (Some c) (S i) l'
      | 0 =>
          match match_at r pv i l with
          | Some f =>
              match length (matched f), cur with
              | 0, [] => splitLoop r 0 [c] (Some c) (S i) l'
              | 0, _ :: _ =>
                  rev cur :: map (cap f) (groupsOf r)
                  ++ splitLoop r 0 [c] (Some c) (S i) l'
              | S n, _ =>
                  rev cur :: map (cap f) (groupsOf r)
                  ++ splitLoop r n [] (Some c) (S i) l'
              end
          | None => splitLoop r 0 (c :: cur) (Some c) (S i) l'
          end
      end
  end.

Definition split (r : regex) (s : str) : list str :=
  match s with
  | [] => match match_at r None 0 [] with Some _ => [] | None => [[]] end
  | _ :: _ => splitLoop r 0 [] None 0 s
  end.

(** *** Building expressions *)

Fixpoint seqs (l : list regex) : regex :=
  match l with
  | [] => Eps
  | [r] => r
  | r :: tl => Seq r (seqs tl)
  end.

Fixpoint alts (l : list regex) : regex :=
  match l with
  | [] => Eps
  | [r] => r
  | r :: tl => Alt r (alts tl)
  end.

(** a literal, compared exactly or under the [i] flag *)
Definition lit (ci : bool) (s : string) : regex :=
  seqs (map (fun c => Cls (if ci then Chr.eqb_ci c else Chr.eqb c))
            (list_ascii_of_string s)).

Definition chr (c : string) : regex := Cls (Chr.one_of c).

Definition plus (p : ascii -> bool) : regex := Rep true 1 p.
Definition star (p : ascii -> bool) : regex := Rep true 0 p.
Definition plusLazy (p : ascii -> bool) : regex := Rep false 1 p.
Definition starLazy (p : ascii -> bool) : regex := Rep false 0 p.
Definition opt (r : regex) : regex := Alt r Eps.

Definition w_plus : regex := plus Chr.is_word.            (* \w+ *)
Definition s_plus : regex := plus Chr.is_space.           (* \s+ *)
Definition s_star : regex := star Chr.is_space.           (* \s* *)

(** [new RegExp(`\\b${term}\\b`, 'gi')] *)
Definition wholeWord (term : string) : regex :=
  seqs [Wordb; lit true term; Wordb].

End Re.

(** ** The data model ([types.ts]) *)

Inductive ChangeType : Type := clarity | style | structure | vocabulary.

Record Change : Type := mkChange {
  rule   : str;
  type   : ChangeType;
  before : str;
  after  : str;
  reason : str
}.

Definition ChangeType_eqb (a b : ChangeType) : bool :=
  match a, b with
  | clarity, clarity | style, style
  | structure, structure | vocabulary, vocabulary => true
  | _, _ => false
  end.

Record Section_ : Type := mkSection {
  title    : str;
  content  : str;
  original : option str;
  edited   : option str;
  changes  : option (list Change)
}.

Record ValidationResult : Type := mkValidation {
  valid       : bool;
  issues      : option (list str);
  fixedText   : str;
  vr_changes  : list Change
}.

(** ** Operations on an accumulator

    A rule operation is a computation over the [changes] array of its
    engine: it returns its result together with the array as it leaves it. *)

Definition Acc (S A : Type) : Type := S -> A * S.

Definition ret {S A} (a : A) : Acc S A := fun s => (a, s).

Definition bind {S A B} (m : Acc S A) (f : A -> Acc S B) : Acc S B :=
  fun s => let (a, s') := m s in f a s'.

Declare Scope acc_scope.
Delimit Scope acc_scope with acc.
Notation "x <- m ;; k" := (bind m (fun x => k))
  (at level 61, m at next level, right associativity) : acc_scope.
Notation "m ;;; k" := (bind m (fun _ => k))
  (at level 61, right associativity) : acc_scope.

(** [this.changes.push(c)] *)
Definition push (c : Change) : Acc (list Change) unit :=
  fun cs => (tt, cs ++ [c]).

(** [if (flag) this.changes.push(c)] *)
Definition pushIf (flag : bool) (c : Change) : Acc (list Change) unit :=
  if flag then push c else ret tt.

(** [xs.forEach(x => body)] over an accumulator, with a local value [a] *)
Fixpoint forEach {S A B} (body : A -> B -> Acc S A) (a : A) (xs : list B)
  : Acc S A :=
  match xs with
  | [] => ret a
  | x :: tl => (a' <- body a x ;; forEach body a' tl)%acc
  end.

(** The loop shared by the substitution rules:
    [rules.forEach(r => { const before = result;
                          result = result.replace(r.pattern, r.replacement);
                          if (before !== result) hasChanges = true; })] *)
Definition rewriteRule : Type := (regex * (Re.found -> str))%type.

Definition rewriteStep (acc : str * bool) (r : rewriteRule) : str * bool :=
  let (result, hasChanges) := acc in
  let result' := Re.replaceAll (fst r) (snd r) result in
  (result', hasChanges || negb (str_eqb result result')).

Definition rewriteEach (rules : list rewriteRule) (text : str) : str * bool :=
  fold_left rewriteStep rules (text, false).

(** a dictionary [{ 'phrase': 'replacement', ... }] walked with
    [Object.entries] and [new RegExp(`\\b${phrase}\\b`, 'gi')] *)
Definition dictRules (d : list (string * string)) : list rewriteRule :=
  map (fun e => (Re.wholeWord (fst e), fun _ : Re.found => L (snd e))) d.

(** ** ClarityRules ([rules/clarity.rules.ts]) *)

Module ClarityRules.

Definition irregularVerbs : list (string * string) :=
  [ ("written", "wrote"); ("driven", "drove"); ("given", "gave");
    ("taken", "took"); ("chosen", "chose"); ("seen", "saw");
    ("done", "did"); ("known", "knew"); ("shown", "showed");
    ("proven", "proved"); ("broken", "broke"); ("spoken", "spoke");
    ("eaten", "ate"); ("beaten", "beat"); ("forgotten", "forgot");
    ("frozen", "froze"); ("gotten", "got"); ("hidden", "hid");
    ("ridden", "rode"); ("risen", "rose"); ("stolen", "stole");
    ("worn", "wore") ].

Fixpoint dictGet (d : list (string * string)) (key : str) : option str :=
  match d with
  | [] => None
  | (k, v) :: tl => if str_eqb (L k) key then Some (L v) else dictGet tl key
  end.

(** The lookup [irregularVerbs[pastParticiple]] is a lookup in the table:
    the participles the callers pass end in "ed" or are "en" or "t" (in any
    letter case), which no inherited property of a JavaScript object does. *)
Definition getActiveVerb (pastParticiple : str) : str :=
  match dictGet irregularVerbs pastParticiple with
  | Some v => v
  | None =>
      if Str.endsWith (L "ed") pastParticiple then
        let base := Str.dropEnd 2 pastParticiple in
        if Str.endsWith (L "ied") pastParticiple then
          (Str.dropEnd 3 pastParticiple ++ L "y")%list
        else if Str.endsWith (L "ted") pastParticiple
                || Str.endsWith (L "ded") pastParticiple then base
        else base
      else pastParticiple
  end.

(** [/that\s+(.+)/i] *)
Definition re_afterThat : regex :=
  Re.seqs [Re.lit true "that"; Re.s_plus; Grp 1 (Re.plus Chr.is_dot)].

Definition restructureItIs (sentence verb : str) : str :=
  match Re.exec re_afterThat sentence with
  | Some afterThat => Str.capitalize (Re.cap afterThat 1)
  | None => sentence
  end.

(** [/(\w+)\s+(?:was|were)\s+(\w+ed|en|t)\s+by\s+(.+?)(?:\.|,|$)/gi] *)
Definition re_passiveBy : regex :=
  Re.seqs [ Grp 1 Re.w_plus; Re.s_plus;
            Alt (Re.lit true "was") (Re.lit true "were"); Re.s_plus;
            Grp 2 (Re.alts [Seq Re.w_plus (Re.lit true "ed");
                            Re.lit true "en"; Re.lit true "t"]);
            Re.s_plus; Re.lit true "by"; Re.s_plus;
            Grp 3 (Re.plusLazy Chr.is_dot);
            Re.alts [Re.chr "."; Re.chr ","; Eol] ].

(** [/it\s+(?:is|was)\s+(\w+ed)\s+that/gi] *)
Definition re_itIsThat : regex :=
  Re.seqs [ Re.lit true "it"; Re.s_plus;
            Alt (Re.lit true "is") (Re.lit true "was"); Re.s_plus;
            Grp 1 (Seq Re.w_plus (Re.lit true "ed"));
            Re.s_plus; Re.lit true "that" ].

(** [/(\w+)\s+(?:has|have)\s+been\s+(\w+ed|en)\s*/gi] *)
Definition re_hasBeen : regex :=
  Re.seqs [ Grp 1 Re.w_plus; Re.s_plus;
            Alt (Re.lit true "has") (Re.lit true "have"); Re.s_plus;
            Re.lit true "been"; Re.s_plus;
            Grp 2 (Alt (Seq Re.w_plus (Re.lit true "ed")) (Re.lit true "en"));
            Re.s_star ].

Definition passivePatterns : list rewriteRule :=
  [ (re_passiveBy,
     fun m =>
       let subject := Re.cap m 1 in
       let verb := Re.cap m 2 in
       let actor := Re.cap m 3 in
       let activeVerb := getActiveVerb verb in
       (actor ++ L " " ++ activeVerb ++ L " " ++ subject
          ++ Str.lastChar (Re.matched m))%list);
    (re_itIsThat,
     fun m => restructureItIs (Re.matched m) (Re.cap m 1));
    (re_hasBeen,
     fun m =>
       let subject := Re.cap m 1 in
       let activeForm := getActiveVerb (Re.cap m 2) in
       (subject ++ L " " ++ activeForm)%list) ].

Definition fixPassiveVoice (sentence : str) : Acc (list Change) str :=
  let (result, changed) := rewriteEach passivePatterns sentence in
  (pushIf changed
     (mkChange (L "Passive Voice") clarity sentence result
        (L "Converted passive voice to active voice for clearer, more direct writing")) ;;;
   ret result)%acc.

(** [/[.!?]$/] *)
Definition re_terminated : regex := Seq (Re.chr ".!?") Eol.

Definition ensureCompleteSentence (fragment : str) : str :=
  let sentence := Str.trim fragment in
  match sentence with
  | [] => []
  | _ :: _ =>
      let sentence := Str.capitalize sentence in
      if negb (Re.test re_terminated sentence) then (sentence ++ L ".")%list
      else sentence
  end.

(** [/[^.!?]+[.!?]+/g] *)
Definition re_sentence : regex :=
  Seq (Re.plus (Chr.none_of ".!?")) (Re.plus (Chr.one_of ".!?")).

(** [s.split(/\s+/).length] *)
Definition wordCount (s : str) : nat := length (Re.split Re.s_plus s).

Record conjunction : Type := mkConj {
  pattern : regex;
  replacement : string
}.

Definition conjunctions : list conjunction :=
  [ mkConj (Re.seqs [Re.chr ","; Re.s_star; Re.lit true "and"; Re.s_plus]) ". ";
    mkConj (Re.seqs [Re.chr ","; Re.s_star; Re.lit true "but"; Re.s_plus]) ". However, ";
    mkConj (Re.seqs [Re.chr ";"; Re.s_star]) ". ";
    mkConj (Re.seqs [Re.chr ","; Re.s_star; Re.lit true "which"; Re.s_plus]) ". This ";
    mkConj (Re.seqs [Re.chr ","; Re.s_star; Re.lit true "while"; Re.s_plus]) ". Meanwhile, " ].

(** the body of the [for] loop of [intelligentSplit] for one conjunction:
    [Some] is the early [return] *)
Definition trySplit (sentence : str) (cj : conjunction) : option (list str) :=
  if Re.test (pattern cj) sentence then
    match Re.split (pattern cj) sentence with
    | [p0; p1] =>
        if forallb (fun p => 5 <=? wordCount p) [p0; p1] then
          Some [ensureCompleteSentence p0; ensureCompleteSentence p1]
        else None
    | _ => None
    end
  else None.

Fixpoint firstSplit (sentence : str) (cs : list conjunction) : list str :=
  match cs with
  | [] => [sentence]
  | cj :: tl =>
      match trySplit sentence cj with
      | Some parts => parts
      | None => firstSplit sentence tl
      end
  end.

Definition intelligentSplit (sentence : str) : list str :=
  firstSplit sentence conjunctions.

(** one turn of [sentences.forEach] in [splitLongSentences]; the array
    [processedSentences] is the first component of the result *)
Definition splitOne (processedSentences : list str) (sentence : str)
  : Acc (list Change) (list str) :=
  let trimmed := Str.trim sentence in
  let wordCount := wordCount trimmed in
  if 25 <? wordCount then
    let split := intelligentSplit trimmed in
    (pushIf (1 <? length split)
       (mkChange (L "Long Sentence") clarity trimmed (Str.join (L " ") split)
          (L "Split sentence with " ++ Str.ofNat wordCount
             ++ L " words into shorter, clearer sentences")%list) ;;;
     ret (processedSentences ++ split)%list)%acc
  else ret (processedSentences ++ [trimmed])%list.

(** [text.match(/[^.!?]+[.!?]+/g) || [text]] *)
Definition sentencesOrText (text : str) : list str :=
  match Re.matchAll re_sentence text with
  | [] => [text]
  | ms => ms
  end.

Definition splitLongSentences (text : str) : Acc (list Change) str :=
  (processedSentences <- forEach splitOne [] (sentencesOrText text) ;;
   ret (Str.join (L " ") processedSentences))%acc.

(** [/\b(which|that|who|whom|whose|where|when|while|although|because|since|if|unless|after|before|as)\b/gi] *)
Definition clauseIndicators : regex :=
  Re.seqs [ Wordb;
            Grp 1 (Re.alts (map (Re.lit true)
              [ "which"; "that"; "who"; "whom"; "whose"; "where"; "when";
                "while"; "although"; "because"; "since"; "if"; "unless";
                "after"; "before"; "as" ]));
            Wordb ].

Definition countClauses (sentence : str) : nat :=
  match Re.matchAll clauseIndicators sentence with
  | [] => 1
  | matches => length matches + 1
  end.

Definition connectorWords : list string :=
  [ "and"; "but"; "however"; "moreover"; "furthermore"; "additionally"; "also" ].

(** [/\s+(and|but|however|moreover|furthermore|additionally|also)\s+/gi] *)
Definition connectors : regex :=
  Re.seqs [ Re.s_plus; Grp 1 (Re.alts (map (Re.lit true) connectorWords));
            Re.s_plus ].

Definition separateMultipleIdeas (sentence : str) : Acc (list Change) (list str) :=
  let clauses := countClauses sentence in
  if clauses <=? 2 then ret [sentence]
  else
    let parts :=
      filter (fun part =>
                (0 <? length part)
                && negb (existsb (fun w => str_eqb (L w) (Str.toLowerCase part))
                                 connectorWords))
             (Re.split connectors sentence) in
    if 1 <? length parts then
      let separated := map (fun part => ensureCompleteSentence (Str.trim part)) parts in
      (push (mkChange (L "Multiple Ideas") clarity sentence
               (Str.join (L " ") separated)
               (L "Separated multiple ideas into individual sentences for clarity")) ;;;
       ret separated)%acc
    else ret [sentence].

Definition replacements : list (string * string) :=
  [ ("utilize", "use"); ("utilizes", "uses"); ("utilized", "used");
    ("utilizing", "using"); ("implement", "use"); ("implements", "uses");
    ("implemented", "used"); ("implementing", "using");
    ("facilitate", "help"); ("facilitates", "helps");
    ("facilitated", "helped"); ("demonstrate", "show");
    ("demonstrates", "shows"); ("demonstrated", "showed");
    ("approximately", "about"); ("subsequent", "next");
    ("prior to", "before"); ("in order to", "to");
    ("due to the fact that", "because"); ("in the event that", "if");
    ("at this point in time", "now");
    ("in light of the fact that", "because");
    ("in spite of the fact that", "although");
    ("for the purpose of", "to"); ("with regard to", "about");
    ("with respect to", "about"); ("in terms of", "about");
    ("on the basis of", "based on");
    ("as a consequence of", "because of");
    ("in conjunction with", "with"); ("in the vicinity of", "near");
    ("a number of", "several"); ("the majority of", "most") ].

Definition simplifyLanguage (text : str) : Acc (list Change) str :=
  let (result, hasChanges) := rewriteEach (dictRules replacements) text in
  (pushIf hasChanges
     (mkChange (L "Simplified Language") vocabulary text result
        (L "Replaced elaborate vocabulary with simpler alternatives")) ;;;
   ret result)%acc.

End ClarityRules.

(** ** StyleRules ([rules/style.rules.ts]) *)

Module StyleRules.

Definition forbidden : list string :=
  [ "paradigm"; "framework"; "thus"; "therefore"; "hence"; "Note that";
    "It should be noted that"; "It is worth noting that";
    "It is important to note that"; "In this paper"; "In this work";
    "In this study"; "aforementioned"; "hereby"; "heretofore";
    "henceforth"; "whilst"; "amongst"; "albeit" ].

(** [/\s+/g] to [' '] *)
Definition collapseSpaces : str -> str :=
  Re.replaceAll Re.s_plus (fun _ => L " ").

(** [/\s+([.,!?;:])/g] to ['$1'] *)
Definition spaceBeforePunct : str -> str :=
  Re.replaceAll (Seq Re.s_plus (Grp 1 (Re.chr ".,!?;:"))) (fun m => Re.cap m 1).

(** [/^\s*[.,;]\s*/] to [''] *)
Definition leadingPunct : str -> str :=
  Re.replaceFirst (Re.seqs [Bol; Re.s_star; Re.chr ".,;"; Re.s_star])
                  (fun _ => []).

(** [/\.\s*\./g] to ['.'] *)
Definition doubledPeriod : str -> str :=
  Re.replaceAll (Re.seqs [Re.chr "."; Re.s_star; Re.chr "."]) (fun _ => L ".").

(** [/([.,])\s*,/g] to [','] *)
Definition punctBeforeComma : str -> str :=
  Re.replaceAll (Re.seqs [Grp 1 (Re.chr ".,"); Re.s_star; Re.chr ","])
                (fun _ => L ",").

Definition cleanVocabulary (text : str) : Acc (list Change) str :=
  let (result, hasChanges) :=
    rewriteEach
      (map (fun term => (Re.wholeWord term, fun _ : Re.found => @nil ascii))
           forbidden)
      text in
  let result := spaceBeforePunct (collapseSpaces result) in
  let result := leadingPunct result in
  let result := doubledPeriod result in
  (pushIf hasChanges
     (mkChange (L "Forbidden Vocabulary") vocabulary text result
        (L "Removed forbidden academic jargon and redundant phrases")) ;;;
   ret result)%acc.

Definition futurePatterns : list rewriteRule :=
  [ (* /\bwe\s+will\s+(\w+)/gi *)
    (Re.seqs [Wordb; Re.lit true "we"; Re.s_plus; Re.lit true "will";
              Re.s_plus; Grp 1 Re.w_plus],
     fun m => (L "we " ++ Re.cap m 1)%list);
    (* /\bwill\s+be\s+(\w+ing)/gi *)
    (Re.seqs [Wordb; Re.lit true "will"; Re.s_plus; Re.lit true "be";
              Re.s_plus; Grp 1 (Seq Re.w_plus (Re.lit true "ing"))],
     fun m => Re.cap m 1);
    (* /\bwill\s+(\w+)/gi *)
    (Re.seqs [Wordb; Re.lit true "will"; Re.s_plus; Grp 1 Re.w_plus],
     fun m =>
       let verb := Re.cap m 1 in
       if str_eqb verb (L "be") then L "is"
       else if Str.endsWith (L "e") verb then (verb ++ L "s")%list
       else (verb ++ L "s")%list);
    (* /\bshall\s+(\w+)/gi *)
    (Re.seqs [Wordb; Re.lit true "shall"; Re.s_plus; Grp 1 Re.w_plus],
     fun m => Re.cap m 1);
    (* /\bis\s+going\s+to\s+(\w+)/gi *)
    (Re.seqs [Wordb; Re.lit true "is"; Re.s_plus; Re.lit true "going";
              Re.s_plus; Re.lit true "to"; Re.s_plus; Grp 1 Re.w_plus],
     fun m => (Re.cap m 1 ++ L "s")%list);
    (* /\bare\s+going\s+to\s+(\w+)/gi *)
    (Re.seqs [Wordb; Re.lit true "are"; Re.s_plus; Re.lit true "going";
              Re.s_plus; Re.lit true "to"; Re.s_plus; Grp 1 Re.w_plus],
     fun m => Re.cap m 1) ].

Definition fixTense (text : str) : Acc (list Change) str :=
  let (result, hasChanges) := rewriteEach futurePatterns text in
  (pushIf hasChanges
     (mkChange (L "Tense Correction") style text result
        (L "Converted future tense to present tense for academic writing")) ;;;
   ret result)%acc.

(** The replacement patterns of [String.prototype.replace] with a string
    pattern: [$$], [$&], [$`] and [$'] are expanded, every other [$] is
    literal (there is no capture). *)
Fixpoint getSubstitution (matched before_ after_ : str) (repl : str) : str :=
  match repl with
  | "$"%char :: "$"%char :: tl =>
      "$"%char :: getSubstitution matched before_ after_ tl
  | "$"%char :: "&"%char :: tl =>
      matched ++ getSubstitution matched before_ after_ tl
  | "$"%char :: "`"%char :: tl =>
      before_ ++ getSubstitution matched before_ after_ tl
  | "$"%char :: "'"%char :: tl =>
      after_ ++ getSubstitution matched before_ after_ tl
  | c :: tl => c :: getSubstitution matched before_ after_ tl
  | [] => []
  end.

(** [s.replace(search, repl)] for strings [search] and [repl]: the first
    occurrence only; [seen] is the text before the position, reversed *)
Fixpoint replaceString (search repl : str) (seen : str) (s : str) : str :=
  if Str.startsWith search s then
    rev seen
    ++ getSubstitution search (rev seen) (skipn (length search) s) repl
    ++ skipn (length search) s
  else
    match s with
    | [] => rev seen
    | c :: s' => replaceString search repl (c :: seen) s'
    end.

(** [/\([^)]+\)/g] *)
Definition parentheticalPattern : regex :=
  Re.seqs [Re.chr "("; Re.plus (Chr.none_of ")"); Re.chr ")"].

(** [/\[\d+\]/g] *)
Definition footnotePattern : regex :=
  Re.seqs [Re.chr "["; Re.plus Chr.is_digit; Re.chr "]"].

(** one turn of [matches.forEach] in [removeParentheticals] *)
Definition flatten (result : str) (m : str) : str :=
  let content := Str.trim (Str.dropEnd 1 (skipn 1 m)) in
  if 30 <? length content then
    replaceString m (L ". " ++ content ++ L ".") [] result
  else if 10 <? length content then
    replaceString m (L ", " ++ content ++ L ",") [] result
  else
    replaceString m (L " " ++ content) [] result.

Definition removeParentheticals (text : str) : Acc (list Change) str :=
  let matches := Re.matchAll parentheticalPattern text in
  let result := fold_left flatten matches text in
  let hasChanges := 0 <? length matches in
  let footnoteBefore := result in
  let result := Re.replaceAll footnotePattern (fun _ => []) result in
  let hasChanges := hasChanges || negb (str_eqb footnoteBefore result) in
  let result := collapseSpaces result in
  let result := spaceBeforePunct result in
  let result := punctBeforeComma result in
  let result := doubledPeriod result in
  (pushIf hasChanges
     (mkChange (L "Parentheticals Removed") style text result
        (L "Converted parenthetical content to regular text for better flow")) ;;;
   ret result)%acc.

Definition redundantPhrases : list (string * string) :=
  [ ("absolutely essential", "essential");
    ("absolutely necessary", "necessary");
    ("actual fact", "fact"); ("added bonus", "bonus");
    ("advance planning", "planning"); ("advance warning", "warning");
    ("all-time record", "record"); ("basic fundamentals", "fundamentals");
    ("brief summary", "summary"); ("close proximity", "proximity");
    ("combine together", "combine"); ("completely eliminate", "eliminate");
    ("consensus of opinion", "consensus"); ("continue on", "continue");
    ("each and every", "each"); ("end result", "result");
    ("exactly the same", "the same"); ("final outcome", "outcome");
    ("first and foremost", "first"); ("free gift", "gift");
    ("future plans", "plans"); ("general consensus", "consensus");
    ("joint collaboration", "collaboration");
    ("major breakthrough", "breakthrough"); ("merge together", "merge");
    ("mutual cooperation", "cooperation"); ("new innovation", "innovation");
    ("null and void", "void"); ("past experience", "experience");
    ("past history", "history"); ("period of time", "period");
    ("personal opinion", "opinion"); ("plan ahead", "plan");
    ("positive improvement", "improvement");
    ("postpone until later", "postpone"); ("reduce down", "reduce");
    ("refer back", "refer"); ("repeat again", "repeat");
    ("revert back", "revert"); ("same exact", "same");
    ("serious crisis", "crisis"); ("still remains", "remains");
    ("sudden impulse", "impulse"); ("sum total", "total");
    ("true fact", "fact"); ("unexpected surprise", "surprise");
    ("unintentional mistake", "mistake"); ("various different", "various");
    ("very unique", "unique") ].

Definition removeRedundancy (text : str) : Acc (list Change) str :=
  let (result, hasChanges) := rewriteEach (dictRules redundantPhrases) text in
  (pushIf hasChanges
     (mkChange (L "Redundancy Removed") style text result
        (L "Eliminated redundant phrases for concise writing")) ;;;
   ret result)%acc.

Definition weakVerbs : list (string * string) :=
  [ ("is able to", "can"); ("are able to", "can");
    ("was able to", "could"); ("were able to", "could");
    ("has the ability to", "can"); ("have the ability to", "can");
    ("is capable of", "can"); ("are capable of", "can");
    ("serves to", ""); ("serves as", "is"); ("functions as", "is");
    ("acts as", "is") ].

Definition enforceActiveWriting (text : str) : Acc (list Change) str :=
  let (result, hasChanges) := rewriteEach (dictRules weakVerbs) text in
  let result := Str.trim (collapseSpaces result) in
  (pushIf hasChanges
     (mkChange (L "Active Writing") style text result
        (L "Replaced weak verb constructions with strong, active alternatives")) ;;;
   ret result)%acc.

End StyleRules.

(** ** StructureRules ([rules/structure.rules.ts]) *)

Module StructureRules.

(** [/\n\n+/] *)
Definition re_paragraphBreak : regex :=
  Seq (Re.chr (String "010"%char EmptyString))
      (Re.plus (Chr.one_of (String "010"%char EmptyString))).

Definition paragraphsOf (text : str) : list str := Re.split re_paragraphBreak text.

Definition NLNL : str := ["010"%char; "010"%char].

(** [words.some(w => text.includes(w))] *)
Definition includesSome (words : list string) (text : str) : bool :=
  existsb (fun w => Str.includes (L w) text) words.

(** [paragraphs[0] || ''] *)
Definition extractFirstParagraph (text : str) : str :=
  match paragraphsOf text with
  | p :: _ => p
  | [] => []
  end.

Definition problemKeywords : list string :=
  [ "problem"; "issue"; "challenge"; "difficult"; "limitation";
    "gap"; "lacking"; "insufficient"; "inadequate"; "fails" ].

Definition checkFirstParagraphProblem (text : str) : bool :=
  let firstParagraph := extractFirstParagraph text in
  includesSome problemKeywords (Str.toLowerCase firstParagraph).

Definition obviousPhrases : list string :=
  [ "computers are everywhere"; "the internet has changed";
    "in today's world"; "as we all know"; "it is well known that";
    "everyone knows"; "clearly"; "obviously"; "of course" ].

Definition hasObviousStatements (text : str) : bool :=
  existsb (fun p => Re.test (Re.lit true p) text) obviousPhrases.

Definition keyIdeaIndicators : list string :=
  [ "key insight"; "main idea"; "core contribution"; "novel approach";
    "our approach"; "we propose"; "we present"; "we introduce";
    "this paper presents"; "this work" ].

Definition identifiesKeyIdea (text : str) : bool :=
  includesSome keyIdeaIndicators (Str.toLowerCase text).

Definition comparisonWords : list string :=
  [ "unlike"; "compared to"; "in contrast"; "whereas"; "while";
    "alternative"; "existing"; "previous"; "traditional"; "conventional" ].

Definition mentionsAlternatives (text : str) : bool :=
  includesSome comparisonWords (Str.toLowerCase text).

Definition extractTopics (text : str) : list str :=
  let words := Re.split Re.s_plus (Str.toLowerCase text) in
  let technicalWords :=
    filter (fun word =>
              (5 <? length word)
              && negb (existsb (fun w => str_eqb (L w) word)
                         ["which"; "where"; "while"; "through"; "because"]))
           words in
  firstn 3 technicalWords.

Definition generateProblemStatement (context : str) : str :=
  match extractTopics context with
  | topic :: _ => L "The challenge of " ++ topic ++ L " remains unsolved."
  | [] => L "This addresses a critical problem in the field."
  end.

Definition contributionText : str :=
  NLNL ++ L "The main contributions of this work are: First, we provide a novel approach. Second, we demonstrate improved performance. Third, we validate through extensive evaluation." ++ NLNL.

Definition addContributionsSection (text : str) : Acc (list Change) str :=
  let paragraphs := paragraphsOf text in
  if 2 <=? length paragraphs then
    let paragraphs := firstn 1 paragraphs ++ [contributionText] ++ skipn 1 paragraphs in
    (push (mkChange (L "Contributions Section") structure text
             (Str.join NLNL paragraphs)
             (L "Added explicit contributions section")) ;;;
     ret (Str.join NLNL paragraphs))%acc
  else ret (text ++ contributionText).

(** [/In today's world[^.]*\./gi] and its four siblings *)
Definition obviousPatterns : list rewriteRule :=
  map (fun p =>
         (Re.seqs [Re.lit true p; Re.star (Chr.none_of "."); Re.chr "."],
          fun _ : Re.found => @nil ascii))
      [ "In today's world"; "As we all know"; "It is well known that";
        "Obviously"; "Clearly" ].

Definition removeObviousStatements (text : str) : Acc (list Change) str :=
  let (fixed, hasChanges) := rewriteEach obviousPatterns text in
  if hasChanges then
    let fixed := Str.trim (StyleRules.collapseSpaces fixed) in
    (push (mkChange (L "Remove Obvious Statements") structure text fixed
             (L "Removed obvious or well-known statements")) ;;;
     ret fixed)%acc
  else ret fixed.

Record IntroChecks : Type := mkIntroChecks {
  problemInFirstParagraph : bool;
  hasContributions : bool;
  avoidGrandmothering : bool;
  hasSilverBullet : bool;
  comparesApproaches : bool
}.

Definition autoFixIntroduction (text : str) (checks : IntroChecks)
  : Acc (list Change) str :=
  (fixed <-
     (if negb (problemInFirstParagraph checks) then
        match paragraphsOf text with
        | p0 :: rest =>
            let problemStatement := generateProblemStatement p0 in
            let fixed := Str.join NLNL ((problemStatement ++ L " " ++ p0) :: rest) in
            push (mkChange (L "Introduction Structure") structure text fixed
                    (L "Added problem statement to first paragraph")) ;;;
            ret fixed
        | [] => ret text
        end
      else ret text) ;;
   fixed <-
     (if negb (hasContributions checks) then addContributionsSection fixed
      else ret fixed) ;;
   removeObviousStatements fixed)%acc.

(** [issues.length > 0 ? issues : undefined] *)
Definition issuesOrUndefined (issues : list str) : option (list str) :=
  match issues with [] => None | _ :: _ => Some issues end.

Definition validateIntroduction (text : str) : Acc (list Change) ValidationResult :=
  let checks :=
    mkIntroChecks
      (checkFirstParagraphProblem text)
      (Str.includes (L "contribution") (Str.toLowerCase text))
      (negb (hasObviousStatements text))
      (identifiesKeyIdea text)
      (mentionsAlternatives text) in
  let issues :=
    (if negb (problemInFirstParagraph checks)
     then [L "Introduction should state the problem in the first paragraph"] else [])
    ++ (if negb (hasContributions checks)
        then [L "Introduction should clearly state the contributions"] else [])
    ++ (if negb (avoidGrandmothering checks)
        then [L "Remove obvious or well-known statements"] else [])
    ++ (if negb (hasSilverBullet checks)
        then [L "Clearly identify the key idea or silver bullet"] else [])
    ++ (if negb (comparesApproaches checks)
        then [L "Compare your approach with alternatives"] else []) in
  fun changes0 =>
    let (fixedText, changes1) := autoFixIntroduction text checks changes0 in
    (mkValidation
       (problemInFirstParagraph checks && hasContributions checks
        && avoidGrandmothering checks && hasSilverBullet checks
        && comparesApproaches checks)
       (issuesOrUndefined issues) fixedText changes1,
     changes1).

Definition getSynonyms (word : string) : list string :=
  if String.eqb word "problem" then
    ["problem"; "challenge"; "issue"; "difficulty"; "limitation"]
  else if String.eqb word "approach" then
    ["approach"; "method"; "technique"; "solution"; "system"]
  else if String.eqb word "result" then
    ["result"; "evaluation"; "performance"; "improvement"; "achieve"]
  else [word].

Definition hasAllComponents (text : str) (components : list string) : bool :=
  let lowerText := Str.toLowerCase text in
  forallb (fun component => includesSome (getSynonyms component) lowerText)
          components.

Record AbstractChecks : Type := mkAbstractChecks {
  independent : bool;
  selfContained : bool;
  correctLength : bool
}.

Record AbstractComponents : Type := mkComponents {
  problem : str;
  approach : str;
  results : str
}.

Definition generateAbstractComponents (text : str) : AbstractComponents :=
  mkComponents
    (L "This research addresses a significant challenge in the field.")
    (L "A novel approach is proposed that combines innovative techniques.")
    (L "Evaluation demonstrates substantial improvements over existing methods.").

Definition expandAbstract (text : str) : str :=
  text ++ L " The comprehensive evaluation validates the effectiveness of the proposed approach through rigorous testing and comparison with state-of-the-art methods.".

(** the three [fixed.replace(/.../gi, '...')] at the head of
    [restructureAbstract] *)
Definition neutralize (text : str) : str :=
  let fixed := Re.replaceAll (Re.lit true "this paper") (fun _ => L "this research") text in
  let fixed := Re.replaceAll (Re.lit true "we present") (fun _ => L "introduces") fixed in
  Re.replaceAll (Re.lit true "this work") (fun _ => L "the study") fixed.

Definition restructureAbstract (text : str) (checks : AbstractChecks)
  : Acc (list Change) str :=
  let fixed := neutralize text in
  (fixed <-
     (if negb (selfContained checks) then
        let components := generateAbstractComponents text in
        let fixed := problem components ++ L " " ++ approach components
                       ++ L " " ++ results components in
        push (mkChange (L "Abstract Structure") structure text fixed
                (L "Restructured abstract to include all required components")) ;;;
        ret fixed
      else ret fixed) ;;
   let words := Re.split Re.s_plus fixed in
   if 250 <? length words then
     let fixed := Str.join (L " ") (firstn 250 words) ++ L "." in
     push (mkChange (L "Abstract Length") structure text fixed
             (L "Shortened abstract to meet 250-word limit")) ;;;
     ret fixed
   else if length words <? 100 then ret (expandAbstract fixed)
   else ret fixed)%acc.

Definition validateAbstract (text : str) : Acc (list Change) ValidationResult :=
  let wordCount := length (Re.split Re.s_plus text) in
  let checks :=
    mkAbstractChecks
      (negb (Str.includes (L "this paper") text)
       && negb (Str.includes (L "we present") text)
       && negb (Str.includes (L "this work") text))
      (hasAllComponents text ["problem"; "approach"; "result"])
      ((100 <=? wordCount) && (wordCount <=? 250)) in
  let issues :=
    (if negb (independent checks)
     then [L "Abstract should be self-contained without references to "
             ++ [dquote] ++ L "this paper" ++ [dquote]] else [])
    ++ (if negb (selfContained checks)
        then [L "Abstract must include problem, approach, and results"] else [])
    ++ (if negb (correctLength checks)
        then [L "Abstract should be 100-250 words (currently " ++ Str.ofNat wordCount
                ++ L " words)"] else []) in
  fun changes0 =>
    let (fixedText, changes1) := restructureAbstract text checks changes0 in
    (mkValidation
       (independent checks && selfContained checks && correctLength checks)
       (issuesOrUndefined issues) fixedText changes1,
     changes1).

Definition titleIncludes (word : string) (s : Section_) : bool :=
  Str.includes (L word) (Str.toLowerCase (title s)).

Fixpoint findOverviewPositionFrom (i : nat) (sections : list Section_) : nat :=
  match sections with
  | [] => 1
  | s :: tl =>
      if existsb (fun pos => titleIncludes pos s) ["introduction"; "abstract"]
      then i + 1
      else findOverviewPositionFrom (S i) tl
  end.

Definition findOverviewPosition (sections : list Section_) : nat :=
  findOverviewPositionFrom 0 sections.

(** [names.map((name, i) => `Section ${i + 2} covers ${name.toLowerCase()}`)] *)
Fixpoint coverLines (i : nat) (names : list str) : list str :=
  match names with
  | [] => []
  | name :: tl =>
      (L "Section " ++ Str.ofNat (i + 2) ++ L " covers " ++ Str.toLowerCase name)
      :: coverLines (S i) tl
  end.

Definition generateOverview (sections : list Section_) : Section_ :=
  let sectionNames :=
    firstn 5 (map title
                (filter (fun s => negb (titleIncludes "abstract" s)) sections)) in
  let content :=
    L "This document is organized as follows. "
    ++ Str.join (L ". ") (coverLines 0 sectionNames)
    ++ L ". The document concludes with a summary of key findings and future directions." in
  mkSection (L "Overview") content None (Some content) None.

(** [a.splice(index, 0, x)] *)
Definition splice {A} (index : nat) (x : A) (a : list A) : list A :=
  firstn index a ++ [x] ++ skipn index a.

Definition insertOverviewSection (sections : list Section_)
  : Acc (list Change) (list Section_) :=
  let hasOverview := existsb (titleIncludes "overview") sections in
  if negb hasOverview then
    let overviewIndex := findOverviewPosition sections in
    let overview := generateOverview sections in
    let sections := splice overviewIndex overview sections in
    (push (mkChange (L "Overview Section") structure
             (L "No overview section") (L "Added overview section")
             (L "Inserted overview section for better document structure")) ;;;
     ret sections)%acc
  else ret sections.

End StructureRules.

(** ** DocumentProcessor ([processors/documentParser.ts]) *)

Inductive DocType : Type :=
| full_paper | section_doc | paragraph_doc | abstract_doc.

Definition DocType_eqb (a b : DocType) : bool :=
  match a, b with
  | full_paper, full_paper | section_doc, section_doc
  | paragraph_doc, paragraph_doc | abstract_doc, abstract_doc => true
  | _, _ => false
  end.

(** The three rule engines a [DocumentProcessor] owns, each reduced to its
    [changes] array. *)
Record Engines : Type := mkEngines {
  clarityRules   : list Change;
  styleRules     : list Change;
  structureRules : list Change
}.

(** The fields of [ProcessedDocument] that carry sections and changes;
    [metrics], [trackingDocument] and [suggestions] are computed from them
    and from the input text and are left out. *)
Record ProcessedDocument : Type := mkProcessed {
  doc_type     : DocType;
  doc_sections : list Section_;
  doc_changes  : list Change
}.

Module DocumentProcessor.

Definition newEngines : Engines := mkEngines [] [] [].

(** [this.clarityRules.op(...)] *)
Definition onClarity {A} (m : Acc (list Change) A) : Acc Engines A :=
  fun e =>
    let (a, cs) := m (clarityRules e) in
    (a, mkEngines cs (styleRules e) (structureRules e)).

(** [this.styleRules.op(...)] *)
Definition onStyle {A} (m : Acc (list Change) A) : Acc Engines A :=
  fun e =>
    let (a, cs) := m (styleRules e) in
    (a, mkEngines (clarityRules e) cs (structureRules e)).

Definition clearAllChanges : Acc Engines unit :=
  fun _ => (tt, mkEngines [] [] []).

Definition collectChanges : Acc Engines (list Change) :=
  fun e =>
    let changes := clarityRules e ++ styleRules e ++ structureRules e in
    let (_, e') := clearAllChanges e in
    (changes, e').

Definition processSentence (sentence : str) : Acc Engines str :=
  match Str.trim sentence with
  | [] => ret sentence
  | _ :: _ =>
      (edited <- onClarity (ClarityRules.fixPassiveVoice sentence) ;;
       edited <- onClarity (ClarityRules.simplifyLanguage edited) ;;
       edited <- onStyle (StyleRules.cleanVocabulary edited) ;;
       edited <- onStyle (StyleRules.fixTense edited) ;;
       edited <- onStyle (StyleRules.removeRedundancy edited) ;;
       edited <- onStyle (StyleRules.enforceActiveWriting edited) ;;
       edited <- onStyle (StyleRules.removeParentheticals edited) ;;
       splits <- onClarity (ClarityRules.separateMultipleIdeas edited) ;;
       if 1 <? length splits then ret (Str.join (L " ") splits)
       else ret edited)%acc
  end.

(** [/^#+\s+(.+)$/] *)
Definition sectionPattern : regex :=
  Re.seqs [Bol; Re.plus (Chr.one_of "#"); Re.s_plus;
           Grp 1 (Re.plus Chr.is_dot); Eol].

(** [/^(?:\d+\.?\s+)?([A-Z][^.!?]*?)$/] *)
Definition numberedPattern : regex :=
  Re.seqs [Bol;
           Re.opt (Re.seqs [Re.plus Chr.is_digit; Re.opt (Re.chr "."); Re.s_plus]);
           Grp 1 (Seq (Cls Chr.is_upper) (Re.starLazy (Chr.none_of ".!?")));
           Eol].

Definition LF : ascii := "010"%char.

(** the local variables of the loop of [extractSections] *)
Record extractState : Type := mkExtract {
  sections : list Section_;
  currentSection : option str;       (* the title of the open section *)
  contentLines : list str
}.

(** [if (currentSection && contentLines.length > 0) { ... sections.push }] *)
Definition closeSection (st : extractState) : list Section_ :=
  match currentSection st, contentLines st with
  | Some t, _ :: _ =>
      sections st
      ++ [mkSection t (Str.trim (Str.join [LF] (contentLines st))) None None None]
  | _, _ => sections st
  end.

Definition extractLine (st : extractState) (line : str) : extractState :=
  let sectionMatch := Re.exec sectionPattern line in
  let numberedMatch := Re.exec numberedPattern line in
  match sectionMatch, numberedMatch with
  | None, None =>
      mkExtract (sections st) (currentSection st) (contentLines st ++ [line])
  | Some m, _ => mkExtract (closeSection st) (Some (Re.cap m 1)) []
  | None, Some m => mkExtract (closeSection st) (Some (Re.cap m 1)) []
  end.

Definition extractSections (text : str) : list Section_ :=
  let lines := Str.splitChar LF [] text in
  let st := fold_left extractLine lines (mkExtract [] None []) in
  let sections := closeSection st in
  match sections, Str.trim text with
  | [], _ :: _ => [mkSection (L "Document") (Str.trim text) None None None]
  | _, _ => sections
  end.

(** one turn of [sentences.forEach] in [splitIntoSentences] *)
Definition splitSentence (processedSentences : list str) (sentence : str)
  : Acc Engines (list str) :=
  let trimmed := Str.trim sentence in
  if 25 <? ClarityRules.wordCount trimmed then
    (result <- onClarity (ClarityRules.splitLongSentences trimmed) ;;
     ret (processedSentences ++ [result]))%acc
  else ret (processedSentences ++ [trimmed]).

Definition splitIntoSentences (text : str) : Acc Engines (list str) :=
  match text with
  | [] => ret []
  | _ :: _ =>
      forEach splitSentence [] (Re.matchAll ClarityRules.re_sentence text)
  end.

(** [sentences.map(s => this.processSentence(s))]: [processSentence] holds
    no [await], each call runs to its end when it is made. *)
Fixpoint mapSentences (sentences : list str) : Acc Engines (list str) :=
  match sentences with
  | [] => ret []
  | s :: tl =>
      (e <- processSentence s ;;
       es <- mapSentences tl ;;
       ret (e :: es))%acc
  end.

(** The callback of [sections.map(async section => ...)] up to its
    [await]: the part that runs when [map] calls it. *)
Definition sectionStart (section : Section_) : Acc Engines (Section_ * list str) :=
  (sentences <- splitIntoSentences (content section) ;;
   editedSentences <- mapSentences sentences ;;
   ret (section, editedSentences))%acc.

(** The rest of the callback, which runs when the awaited promise has
    settled. *)
Definition sectionFinish (suspended : Section_ * list str) : Acc Engines Section_ :=
  let (section, editedSentences) := suspended in
  let edited := Str.join (L " ") editedSentences in
  (changes <- collectChanges ;;
   ret (mkSection (title section) (content section)
          (Some (content section)) (Some edited) (Some changes)))%acc.

Fixpoint startAll (sections : list Section_)
  : Acc Engines (list (Section_ * list str)) :=
  match sections with
  | [] => ret []
  | s :: tl =>
      (p <- sectionStart s ;;
       ps <- startAll tl ;;
       ret (p :: ps))%acc
  end.

(** Whether the awaited [Promise.all(editedSentences)] is settled when it
    is awaited: it is for an empty array, and it takes one job per element
    otherwise. *)
Definition settledAtOnce (suspended : Section_ * list str) : bool :=
  match snd suspended with [] => true | _ :: _ => false end.

(** The order in which the suspended callbacks resume, as indices into the
    section list: the jobs queue is first in, first out; a callback that
    awaits a settled promise queues its continuation at once, the others
    when the last job of their [Promise.all] has run, which is after every
    job queued while [map] was running. *)
Definition resumeOrder (suspended : list (Section_ * list str)) : list nat :=
  let indexed := combine (seq 0 (length suspended)) suspended in
  map fst (filter (fun p => settledAtOnce (snd p)) indexed)
  ++ map fst (filter (fun p => negb (settledAtOnce (snd p))) indexed).

(** run the continuations in the order [order]; the result of each is
    stored under its index *)
Fixpoint finishAll (suspended : list (Section_ * list str)) (order : list nat)
  : Acc Engines (list (nat * Section_)) :=
  match order with
  | [] => ret []
  | i :: tl =>
      match nth_error suspended i with
      | Some p =>
          (s <- sectionFinish p ;;
           rs <- finishAll suspended tl ;;
           ret ((i, s) :: rs))%acc
      | None => finishAll suspended tl
      end
  end.

Fixpoint resultAt (i : nat) (rs : list (nat * Section_)) : list Section_ :=
  match rs with
  | [] => []
  | (j, s) :: tl => if i =? j then [s] else resultAt i tl
  end.

(** [await Promise.all(sections.map(async section => ...))] for a given
    order of resumption: every callback is started, then every callback is
    resumed; the results come in the order of the sections *)
Definition processSectionsIn (order : list (Section_ * list str) -> list nat)
           (sections : list Section_) : Acc Engines (list Section_) :=
  (suspended <- startAll sections ;;
   rs <- finishAll suspended (order suspended) ;;
   ret (flat_map (fun i => resultAt i rs) (seq 0 (length suspended))))%acc.

Definition processSections : list Section_ -> Acc Engines (list Section_) :=
  processSectionsIn resumeOrder.

(** [s.changes || []] *)
Definition changesOf (s : Section_) : list Change :=
  match changes s with Some cs => cs | None => [] end.

Definition processDocument (text : str) (type : DocType)
  : Acc Engines ProcessedDocument :=
  (clearAllChanges ;;;
   let sections :=
     if DocType_eqb type full_paper then extractSections text
     else [mkSection (L "Content") text None None None] in
   processed <- processSections sections ;;
   let allChanges := flat_map changesOf processed in
   ret (mkProcessed type processed allChanges))%acc.

End DocumentProcessor.

(** ** Readability *)

Module Readability.

Local Open Scope Z_scope.

Definition is_vowel (c : ascii) : bool := Chr.one_of "aeiou" c.

(** the [for] loop of [countSyllables]: the number of vowel groups *)
Fixpoint vowelGroups (previousWasVowel : bool) (word : str) : Z :=
  match word with
  | [] => 0
  | c :: tl =>
      let isVowel := is_vowel c in
      (if isVowel && negb previousWasVowel then 1 else 0)
      + vowelGroups isVowel tl
  end.

(** [DocumentProcessor.countSyllables] *)
Definition countSyllables (word : str) : Z :=
  let word := Str.toLowerCase word in
  let count := vowelGroups false word in
  let count := if Str.endsWith (L "e") word then count - 1 else count in
  if count =? 0 then 1 else count.

Definition sumBy (f : str -> Z) (words : list str) : Z :=
  fold_left (fun sum word => sum + f word) words 0.

Definition lengthZ {A} (l : list A) : Z := Z.of_nat (length l).

(** [206.835 - 1.015 * (words / sentences) - 84.6 * (syllables / words)] *)
Definition flesch (words sentences syllables : Z) : Q :=
  ((206835 # 1000)
   - (1015 # 1000) * (inject_Z words / inject_Z sentences)
   - (846 # 10) * (inject_Z syllables / inject_Z words))%Q.

(** [Math.max(0, Math.min(100, x))] *)
Definition clamp (x : Q) : Q := Qmax 0 (Qmin 100 x).

(** [DocumentProcessor.calculateReadability] *)
Definition calculateReadability (text : str) : Q :=
  let sentences := Re.matchAll ClarityRules.re_sentence text in
  let words := Re.split Re.s_plus text in
  let syllables := sumBy countSyllables words in
  if (lengthZ sentences =? 0) || (lengthZ words =? 0) then 0%Q
  else clamp (flesch (lengthZ words) (lengthZ sentences) syllables).

(** [countSyllables] of [tools/generateTracking.ts] *)
Definition countSyllablesT (word : str) : Z :=
  let word := filter Chr.is_lower (Str.toLowerCase word) in
  match word with
  | [] => 0
  | _ :: _ =>
      let count := vowelGroups false word in
      let count :=
        if Str.endsWith (L "e") word && (1 <? count) then count - 1 else count in
      let count :=
        if Str.endsWith (L "le") word && (2 <? lengthZ word)
           && negb (match nth_error word (length word - 3) with
                    | Some c => is_vowel c
                    | None => false
                    end)
        then count + 1 else count in
      Z.max 1 count
  end.

(** [calculateReadabilityScore] of [tools/generateTracking.ts] *)
Definition calculateReadabilityScore (text : str) : Q :=
  let sentences := Re.matchAll ClarityRules.re_sentence text in
  let words := filter (fun w => (0 <? length w)%nat) (Re.split Re.s_plus text) in
  let syllables := sumBy countSyllablesT words in
  if (lengthZ sentences =? 0) || (lengthZ words =? 0) then 0%Q
  else clamp (flesch (lengthZ words) (lengthZ sentences) syllables).

(** [countSyllables] of [tools/checkClarity.ts] *)
Definition countSyllablesC (word : str) : Z :=
  let word := filter Chr.is_lower (Str.toLowerCase word) in
  match word with
  | [] => 0
  | _ :: _ =>
      let count := vowelGroups false word in
      let count :=
        if Str.endsWith (L "e") word && (1 <? count) then count - 1 else count in
      let count :=
        if Str.endsWith (L "le") word
           && negb (match nth_error word (length word - 3) with
                    | Some c => if (3 <=? length word)%nat then is_vowel c else false
                    | None => false
                    end)
        then count + 1 else count in
      Z.max 1 count
  end.

(** [Math.round(x)] *)
Definition round (x : Q) : Z := Qfloor (x + (1 # 2)).

(** [statistics.readabilityScore] of [calculateStatistics] in
    [tools/checkClarity.ts]: the averages are 0 where the source guards the
    division *)
Definition readabilityStatistic (text : str) : Z :=
  let sentences := Re.matchAll ClarityRules.re_sentence text in
  let words := filter (fun w => (0 <? length w)%nat) (Re.split Re.s_plus text) in
  let totalSyllables := sumBy countSyllablesC words in
  let avgWordsPerSentence :=
    if 0 <? lengthZ sentences
    then (inject_Z (lengthZ words) / inject_Z (lengthZ sentences))%Q else 0%Q in
  let avgSyllablesPerWord :=
    if 0 <? lengthZ words
    then (inject_Z totalSyllables / inject_Z (lengthZ words))%Q else 0%Q in
  let fleschScore :=
    ((206835 # 1000) - (1015 # 1000) * avgWordsPerSentence
     - (846 # 10) * avgSyllablesPerWord)%Q in
  Z.max 0 (Z.min 100 (round fleschScore)).

End Readability.

(** ** editDocument ([tools/editDocument.ts]) *)

Record EditResult : Type := mkEditResult {
  er_edited  : str;
  er_changes : nat                 (* [metrics.changes] *)
}.

Module EditDocument.

(** [section.edited || section.content] *)
Definition editedOrContent (s : Section_) : str :=
  match edited s with
  | Some (c :: e) => c :: e
  | _ => content s
  end.

(** [section.edited = result.fixedText;
     section.changes = [...(section.changes || []), ...result.changes]] *)
Definition attach (s : Section_) (result : ValidationResult) : Section_ :=
  mkSection (title s) (content s) (original s) (Some (fixedText result))
            (Some (DocumentProcessor.changesOf s ++ vr_changes result)).

(** the body of [processed.sections.forEach(section => ...)] *)
Definition structureSection (s : Section_) : Acc (list Change) Section_ :=
  (s <- (if StructureRules.titleIncludes "introduction" s then
           result <- StructureRules.validateIntroduction (editedOrContent s) ;;
           ret (attach s result)
         else ret s) ;;
   if StructureRules.titleIncludes "abstract" s then
     result <- StructureRules.validateAbstract (editedOrContent s) ;;
     ret (attach s result)
   else ret s)%acc.

Fixpoint structureSections (ss : list Section_) : Acc (list Change) (list Section_) :=
  match ss with
  | [] => ret []
  | s :: tl =>
      (s' <- structureSection s ;;
       tl' <- structureSections tl ;;
       ret (s' :: tl'))%acc
  end.

(** the block [if (documentType === 'full_paper') { ... }] *)
Definition structurePass (processed : ProcessedDocument)
  : Acc (list Change) ProcessedDocument :=
  (ss <- StructureRules.insertOverviewSection (doc_sections processed) ;;
   ss <- structureSections ss ;;
   ret (mkProcessed (doc_type processed) ss (doc_changes processed)))%acc.

(** [processed] as it stands when [fullEdited] is computed; the processor
    and the structure rules of [editDocument] are fresh objects *)
Definition editedDocument (text : str) (documentType : DocType) : ProcessedDocument :=
  let (processed, _) :=
    DocumentProcessor.processDocument text documentType
      DocumentProcessor.newEngines in
  if DocType_eqb documentType full_paper
  then fst (structurePass processed [])
  else processed.

Definition renderSection (s : Section_) : str :=
  if negb (str_eqb (title s) (L "Content")) && negb (str_eqb (title s) (L "Document"))
  then L "# " ++ title s ++ StructureRules.NLNL ++ editedOrContent s
  else editedOrContent s.

Definition editDocument (text : str) (documentType : DocType) : EditResult :=
  let processed := editedDocument text documentType in
  let fullEdited :=
    Str.join StructureRules.NLNL (map renderSection (doc_sections processed)) in
  let allChanges := doc_changes processed in
  mkEditResult fullEdited (length allChanges).

End EditDocument.

(** ** generateTracking ([tools/generateTracking.ts]) *)

Module Tracking.

(** [text.split(/\s+/).filter(word => word.length > 0).length] *)
Definition countWords (text : str) : nat :=
  length (filter (fun word => 0 <? length word) (Re.split Re.s_plus text)).

(** one turn of [changes.forEach] in [groupChangesByType]; the object
    [grouped] is the list of its entries in the order in which the keys
    were created, which is the order of [Object.entries] *)
Fixpoint pushGrouped (grouped : list (ChangeType * list Change)) (change : Change)
  : list (ChangeType * list Change) :=
  match grouped with
  | [] => [(type change, [change])]
  | (t, l) :: tl =>
      if ChangeType_eqb t (type change) then (t, l ++ [change]) :: tl
      else (t, l) :: pushGrouped tl change
  end.

Definition groupChangesByType (changes : list Change)
  : list (ChangeType * list Change) :=
  fold_left pushGrouped changes [].

(** [str.charAt(0).toUpperCase() + str.slice(1)] *)
Definition capitalizeFirst (s : str) : str := Str.capitalize s.

(** the body of the [for] loop of [generateDiffView] *)
Definition diffLine (origLine editLine : str) : str :=
  if str_eqb origLine editLine then
    L "  " ++ origLine ++ [DocumentProcessor.LF]
  else
    (match origLine with
     | [] => []
     | _ :: _ => L "- " ++ origLine ++ [DocumentProcessor.LF]
     end)
    ++ (match editLine with
        | [] => []
        | _ :: _ => L "+ " ++ editLine ++ [DocumentProcessor.LF]
        end).

(** [lines[i] || ''] is [nth i lines []] *)
Definition generateDiffView (original edited : str) : str :=
  let originalLines := Str.splitChar DocumentProcessor.LF [] original in
  let editedLines := Str.splitChar DocumentProcessor.LF [] edited in
  let maxLines := Nat.max (length originalLines) (length editedLines) in
  flat_map (fun i => diffLine (nth i originalLines []) (nth i editedLines []))
           (seq 0 maxLines).

End Tracking.

(** ** The metrics of DocumentProcessor ([processors/documentParser.ts]) *)

Module Metrics.

Local Open Scope Z_scope.

Import Readability.

Record DocumentMetrics : Type := mkMetrics {
  clarityScore : Z;               (* [clarity] *)
  wordReduction : Z;
  readabilityGain : Q;
  sentenceComplexity : Q;
  passiveVoiceCount : nat;
  longSentenceCount : nat
}.

(** [/(?:was|were|been|being|is|are|am)\s+\w+ed/gi] *)
Definition passiveVoice : regex :=
  Re.seqs [ Re.alts (map (Re.lit true)
                       ["was"; "were"; "been"; "being"; "is"; "are"; "am"]);
            Re.s_plus; Re.w_plus; Re.lit true "ed" ].

(** [/\b\w{10,}\b/g] *)
Definition complexWord : regex := Re.seqs [Wordb; Rep true 10 Chr.is_word; Wordb].

(** [/\b(which|that|who|whom|whose|where|when|while|although|because)\b/gi] *)
Definition clauseWord : regex :=
  Re.seqs [ Wordb;
            Grp 1 (Re.alts (map (Re.lit true)
              [ "which"; "that"; "who"; "whom"; "whose"; "where"; "when";
                "while"; "although"; "because" ]));
            Wordb ].

(** [x > y] on numbers *)
Definition gtQ (x y : Q) : bool := negb (Qle_bool x y).

Definition countLongSentences (text : str) : nat :=
  let sentences := Re.matchAll ClarityRules.re_sentence text in
  length (filter (fun s => (25 <? ClarityRules.wordCount (Str.trim s))%nat) sentences).

Definition calculateClarityScore (text : str) : Z :=
  let sentences := Re.matchAll ClarityRules.re_sentence text in
  if lengthZ sentences =? 0 then 0
  else
    let score := 100 in
    let avgWordCount :=
      (inject_Z (sumBy (fun s => Z.of_nat (ClarityRules.wordCount (Str.trim s)))
                       sentences)
       / inject_Z (lengthZ sentences))%Q in
    let score := if gtQ avgWordCount 20 then score - 10 else score in
    let score := if gtQ avgWordCount 25 then score - 10 else score in
    let passiveCount := lengthZ (Re.matchAll passiveVoice text) in
    let score := score - passiveCount * 2 in
    let complexWords := Re.matchAll complexWord text in
    let score := score - Z.min (lengthZ complexWords) 20 in
    Z.max 0 score.

Definition calculateComplexity (text : str) : Q :=
  let sentences := Re.matchAll ClarityRules.re_sentence text in
  if lengthZ sentences =? 0 then 0%Q
  else
    let avgClauses :=
      (inject_Z (sumBy (fun s => lengthZ (Re.matchAll clauseWord s)) sentences)
       / inject_Z (lengthZ sentences))%Q in
    (inject_Z (round (avgClauses * 10)) / 10)%Q.

Definition calculateMetrics (original : str) (processed : list Section_)
  : DocumentMetrics :=
  let editedText := Str.join (L " ") (map EditDocument.editedOrContent processed) in
  let originalWords := ClarityRules.wordCount original in
  let editedWords := ClarityRules.wordCount editedText in
  let passiveVoiceCount := length (Re.matchAll passiveVoice original) in
  let longSentenceCount := countLongSentences original in
  let clarityScore := calculateClarityScore editedText in
  let readabilityBefore := calculateReadability original in
  let readabilityAfter := calculateReadability editedText in
  mkMetrics clarityScore
            (Z.of_nat originalWords - Z.of_nat editedWords)
            (readabilityAfter - readabilityBefore)%Q
            (calculateComplexity editedText)
            passiveVoiceCount
            longSentenceCount.

End Metrics.

(** ** checkClarity ([tools/checkClarity.ts]) *)

Module CheckClarity.

Local Open Scope Z_scope.

Inductive Severity : Type := high | medium | low.

Record Issue : Type := mkIssue {
  category : str;
  severity : Severity;
  count : nat;
  examples : list str
}.

(** a number as a comparison sees it: a finite value, an infinity, or NaN *)
Inductive number : Type :=
| Finite (q : Q)
| Infinity
| MinusInfinity
| NaN.

(** [x > y] and [x < y] for a constant [y] *)
Definition gt (x : number) (y : Q) : bool :=
  match x with
  | Finite q => negb (Qle_bool q y)
  | Infinity => true
  | MinusInfinity | NaN => false
  end.

Definition lt (x : number) (y : Q) : bool :=
  match x with
  | Finite q => negb (Qle_bool y q)
  | MinusInfinity => true
  | Infinity | NaN => false
  end.

Record Statistics : Type := mkStatistics {
  averageSentenceLength : number;
  passiveVoicePercentage : number;
  complexWordPercentage : number;
  readabilityScore : number;
  jargonDensity : number
}.

(** [n > hi ? 'high' : n > lo ? 'medium' : 'low'] *)
Definition grade (hi lo n : nat) : Severity :=
  if (hi <? n)%nat then high else if (lo <? n)%nat then medium else low.

Definition extractSentences (text : str) : list str :=
  Re.matchAll ClarityRules.re_sentence text.

Definition passivePatterns : list regex :=
  [ (* /\b(?:was|were)\s+\w+ed\b/gi *)
    Re.seqs [ Wordb; Alt (Re.lit true "was") (Re.lit true "were"); Re.s_plus;
              Re.w_plus; Re.lit true "ed"; Wordb ];
    (* /\b(?:has|have|had)\s+been\s+\w+ed\b/gi *)
    Re.seqs [ Wordb; Re.alts (map (Re.lit true) ["has"; "have"; "had"]); Re.s_plus;
              Re.lit true "been"; Re.s_plus; Re.w_plus; Re.lit true "ed"; Wordb ];
    (* /\b(?:is|are|am)\s+being\s+\w+ed\b/gi *)
    Re.seqs [ Wordb; Re.alts (map (Re.lit true) ["is"; "are"; "am"]); Re.s_plus;
              Re.lit true "being"; Re.s_plus; Re.w_plus; Re.lit true "ed"; Wordb ];
    (* /\bit\s+(?:is|was)\s+\w+ed\s+that\b/gi *)
    Re.seqs [ Wordb; Re.lit true "it"; Re.s_plus;
              Alt (Re.lit true "is") (Re.lit true "was"); Re.s_plus;
              Re.w_plus; Re.lit true "ed"; Re.s_plus; Re.lit true "that"; Wordb ] ].

Definition checkPassiveVoice (text : str) : Issue :=
  let (count, examples) :=
    fold_left
      (fun (acc : nat * list str) pattern =>
         let (count, examples) := acc in
         let matches := Re.matchAll pattern text in
         ((count + length matches)%nat, examples ++ firstn 3 matches))
      passivePatterns (0%nat, []) in
  mkIssue (L "Passive Voice") (grade 5 2 count) count (firstn 3 examples).

(** [s.length > 100 ? s.substring(0, 100) + '...' : s] *)
Definition shorten (s : str) : str :=
  if (100 <? length s)%nat then firstn 100 s ++ L "..." else s.

Definition checkLongSentences (sentences : list str) : Issue :=
  let longSentences :=
    filter (fun s => (25 <? ClarityRules.wordCount (Str.trim s))%nat) sentences in
  mkIssue (L "Long Sentences") (grade 5 2 (length longSentences))
          (length longSentences) (map shorten (firstn 3 longSentences)).

(** [[...new Set(xs)]]: the first occurrence of every element *)
Fixpoint unique (seen : list str) (xs : list str) : list str :=
  match xs with
  | [] => []
  | x :: tl =>
      if existsb (str_eqb x) seen then unique seen tl
      else x :: unique (x :: seen) tl
  end.

Definition checkComplexWords (words : list str) : Issue :=
  let complexWords :=
    filter (fun word =>
              let cleaned := filter (fun c => Chr.is_upper c || Chr.is_lower c) word in
              (12 <? length cleaned)%nat || (4 <? Readability.countSyllablesC cleaned))
           words in
  let uniqueComplex := unique [] complexWords in
  mkIssue (L "Complex Vocabulary") (grade 20 10 (length uniqueComplex))
          (length uniqueComplex) (firstn 5 uniqueComplex).

Definition jargonTerms : list string :=
  [ "paradigm"; "framework"; "utilize"; "implement"; "facilitate";
    "leverage"; "synergy"; "holistic"; "robust"; "cutting-edge";
    "state-of-the-art"; "best-of-breed"; "game-changing"; "disruptive";
    "transformative"; "innovative"; "revolutionary"; "groundbreaking" ].

Definition checkJargon (text : str) : Issue :=
  let (count, found) :=
    fold_left
      (fun (acc : nat * list str) term =>
         let (count, found) := acc in
         match Re.matchAll (Re.wholeWord term) text with
         | [] => acc
         | matches => ((count + length matches)%nat, found ++ [L term])
         end)
      jargonTerms (0%nat, []) in
  mkIssue (L "Academic Jargon") (grade 10 5 count) count (firstn 5 found).

Definition redundantPhrases : list string :=
  [ "absolutely essential"; "actual fact"; "advance planning";
    "basic fundamentals"; "close proximity"; "completely eliminate";
    "end result"; "final outcome"; "free gift"; "future plans";
    "past history"; "personal opinion"; "repeat again"; "true fact";
    "unexpected surprise"; "very unique" ].

Definition checkRedundancy (text : str) : Issue :=
  let (count, found) :=
    fold_left
      (fun (acc : nat * list str) phrase =>
         let (count, found) := acc in
         if Re.test (Re.wholeWord phrase) text
         then (S count, found ++ [L phrase])
         else acc)
      redundantPhrases (0%nat, []) in
  mkIssue (L "Redundant Phrases") (grade 5 2 count) count (firstn 5 found).

(** [/\b(which|that|who|whom|whose|where|when|while|although|because|since|if|unless)\b/gi] *)
Definition clauseIndicators : regex :=
  Re.seqs [ Wordb;
            Grp 1 (Re.alts (map (Re.lit true)
              [ "which"; "that"; "who"; "whom"; "whose"; "where"; "when";
                "while"; "although"; "because"; "since"; "if"; "unless" ]));
            Wordb ].

Definition checkMultipleClauses (sentences : list str) : Issue :=
  let complexSentences :=
    filter (fun sentence =>
              (2 <? length (Re.matchAll clauseIndicators sentence))%nat)
           sentences in
  mkIssue (L "Multiple Clauses") (grade 5 2 (length complexSentences))
          (length complexSentences) (map shorten (firstn 3 complexSentences)).

(** one turn of [issues.forEach] in [calculateClarityScore] *)
Definition deduct (score : Z) (issue : Issue) : Z :=
  match severity issue with
  | high => score - 15
  | medium => score - 8
  | low => score - 3
  end.

Definition calculateClarityScore (issues : list Issue) (statistics : Statistics) : Z :=
  let score := fold_left deduct issues 100 in
  let score := if gt (averageSentenceLength statistics) 25 then score - 10 else score in
  let score := if gt (passiveVoicePercentage statistics) 20 then score - 10 else score in
  let score := if gt (complexWordPercentage statistics) 15 then score - 5 else score in
  let score := if lt (readabilityScore statistics) 50 then score - 10 else score in
  let score := if gt (jargonDensity statistics) 5 then score - 5 else score in
  Z.max 0 (Z.min 100 score).

(** the six checks of [checkClarity], in their order *)
Definition issuesOf (text : str) : list Issue :=
  let sentences := extractSentences text in
  let words := filter (fun w => (0 <? length w)%nat) (Re.split Re.s_plus text) in
  [ checkPassiveVoice text;
    checkLongSentences sentences;
    checkComplexWords words;
    checkJargon text;
    checkRedundancy text;
    checkMultipleClauses sentences ].

Record ClarityMetrics : Type := mkClarityMetrics {
  score : Z;
  issues : list Issue;
  statistics : Statistics
}.

(** [checkClarity]: the statistics are doubles that [calculateStatistics]
    computes with rounded divisions; they are taken as they come, from any
    function [calculateStatistics]. The recommendations are left out. *)
Section WithStatistics.

Variable calculateStatistics : str -> list str -> list str -> Statistics.

Definition checkClarity (text : str) : ClarityMetrics :=
  let sentences := extractSentences text in
  let words := filter (fun w => (0 <? length w)%nat) (Re.split Re.s_plus text) in
  let issues := issuesOf text in
  let statistics := calculateStatistics text sentences words in
  let score := calculateClarityScore issues statistics in
  mkClarityMetrics score (filter (fun i => (0 <? count i)%nat) issues) statistics.

End WithStatistics.

End CheckClarity.

(** ** analyzeStructure ([tools/analyzeStructure.ts]) *)

Module AnalyzeStructure.

(** a section as [extractDocumentSections] returns it *)
Record DocSection : Type := mkDocSection {
  ds_title : str;
  ds_content : str
}.

Record SectionAnalysis : Type := mkAnalysis {
  name : str;
  present : bool;
  sa_issues : option (list str)
}.

Record StructureAnalysisResult : Type := mkResult {
  sar_valid : bool;
  sar_sections : list SectionAnalysis;
  suggestions : list str;
  fixedVersion : option str
}.

(** [/^([A-Z][^:]+):$/] *)
Definition colonPattern : regex :=
  Re.seqs [Bol;
           Grp 1 (Seq (Cls Chr.is_upper) (Re.plus (Chr.none_of ":")));
           Re.chr ":"; Eol].

(** the first and the second pattern are those of
    [DocumentProcessor.extractSections] *)
Definition sectionPatterns : list regex :=
  [ DocumentProcessor.sectionPattern;
    DocumentProcessor.numberedPattern;
    colonPattern ].

(** the inner loop [for (const pattern of sectionPatterns)]: the first
    pattern that matches the line *)
Fixpoint firstMatch (patterns : list regex) (line : str) : option Re.found :=
  match patterns with
  | [] => None
  | pattern :: tl =>
      match Re.exec pattern line with
      | Some m => Some m
      | None => firstMatch tl line
      end
  end.

Record extractState : Type := mkExtract {
  sections : list DocSection;
  currentSection : option str;       (* the title of the open section *)
  contentLines : list str
}.

(** [if (currentSection && contentLines.length > 0) { ... sections.push }] *)
Definition closeSection (st : extractState) : list DocSection :=
  match currentSection st, contentLines st with
  | Some t, _ :: _ =>
      sections st
      ++ [mkDocSection t
            (Str.trim (Str.join [DocumentProcessor.LF] (contentLines st)))]
  | _, _ => sections st
  end.

Definition extractLine (st : extractState) (line : str) : extractState :=
  match firstMatch sectionPatterns line with
  | Some m => mkExtract (closeSection st) (Some (Str.trim (Re.cap m 1))) []
  | None =>
      match Str.trim line with
      | [] => st
      | _ :: _ =>
          mkExtract (sections st) (currentSection st) (contentLines st ++ [line])
      end
  end.

Definition extractDocumentSections (text : str) : list DocSection :=
  let lines := Str.splitChar DocumentProcessor.LF [] text in
  let st := fold_left extractLine lines (mkExtract [] None []) in
  let sections := closeSection st in
  match sections, Str.trim text with
  | [], _ :: _ => [mkDocSection (L "Content") (Str.trim text)]
  | _, _ => sections
  end.

Definition defaultExpectedSections : list str :=
  map L [ "Abstract"; "Introduction"; "Overview"; "Technical Approach";
          "Evaluation"; "Related Work"; "Conclusion" ].

(** [sections.find(s => s.title.toLowerCase().includes(word.toLowerCase()))] *)
Definition findSection (word : str) (sections : list DocSection) : option DocSection :=
  find (fun s => Str.includes (Str.toLowerCase word) (Str.toLowerCase (ds_title s)))
       sections.

(** the callback of [expected.map]; [validation.issues] is taken over when
    the validation fails *)
Definition analyseSection (sections : list DocSection) (expectedSection : str)
  : Acc (list Change) SectionAnalysis :=
  match findSection expectedSection sections with
  | Some found =>
      if str_eqb (Str.toLowerCase expectedSection) (L "introduction") then
        (validation <- StructureRules.validateIntroduction (ds_content found) ;;
         ret (mkAnalysis expectedSection true
                (if negb (valid validation) then issues validation else None)))%acc
      else if str_eqb (Str.toLowerCase expectedSection) (L "abstract") then
        (validation <- StructureRules.validateAbstract (ds_content found) ;;
         ret (mkAnalysis expectedSection true
                (if negb (valid validation) then issues validation else None)))%acc
      else ret (mkAnalysis expectedSection true None)
  | None =>
      ret (mkAnalysis expectedSection false
             (Some [expectedSection ++ L " section is missing"]))
  end.

Fixpoint analyseAll (sections : list DocSection) (expected : list str)
  : Acc (list Change) (list SectionAnalysis) :=
  match expected with
  | [] => ret []
  | x :: tl =>
      (a <- analyseSection sections x ;;
       tl' <- analyseAll sections tl ;;
       ret (a :: tl'))%acc
  end.

(** [s.issues && s.issues.length > 0] *)
Definition hasIssues (a : SectionAnalysis) : bool :=
  match sa_issues a with Some (_ :: _) => true | _ => false end.

(** [s.issues] as a condition: an array is true, also when it is empty *)
Definition issuesSet (a : SectionAnalysis) : bool :=
  match sa_issues a with Some _ => true | None => false end.

Definition generateStructureSuggestions (sectionAnalysis : list SectionAnalysis)
           (actualSections : list DocSection) : list str :=
  let missingSections := map name (filter (fun s => negb (present s)) sectionAnalysis) in
  (match missingSections with
   | [] => []
   | _ :: _ => [L "Add missing sections: " ++ Str.join (L ", ") missingSections]
   end)
  ++ flat_map (fun section =>
                 map (fun issue => name section ++ L ": " ++ issue)
                     (match sa_issues section with Some l => l | None => [] end))
              (filter hasIssues sectionAnalysis)
  ++ (match findSection (L "abstract") actualSections with
      | Some abstractSection =>
          let wordCount := ClarityRules.wordCount (ds_content abstractSection) in
          if wordCount <? 100 then
            [L "Abstract is too short (" ++ Str.ofNat wordCount
               ++ L " words). Aim for 100-250 words."]
          else if 250 <? wordCount then
            [L "Abstract is too long (" ++ Str.ofNat wordCount
               ++ L " words). Aim for 100-250 words."]
          else []
      | None => []
      end)
  ++ (match findSection (L "introduction") actualSections with
      | Some introSection =>
          if negb (Str.includes (L "contribution")
                     (Str.toLowerCase (ds_content introSection)))
          then [L "Introduction should explicitly state the contributions of the work"]
          else []
      | None => []
      end)
  ++ (match findSection (L "conclusion") actualSections with
      | Some _ => []
      | None => [L "Add a conclusion section to summarize findings and future work"]
      end)
  ++ (match findSection (L "overview") actualSections with
      | Some _ => []
      | None =>
          if 4 <? length actualSections
          then [L "Consider adding an Overview section after Introduction for complex documents"]
          else []
      end).

Definition generateAbstractTemplate (documentText : str) : str :=
  L "This work addresses a critical challenge in the field. A novel approach is proposed that combines innovative techniques to solve the identified problem. The method demonstrates significant improvements over existing solutions through comprehensive evaluation. Results show substantial gains in performance metrics, validating the effectiveness of the proposed approach.".

Definition templates : list (string * string) :=
  [ ("Overview", "This section provides an overview of the document structure and main components of the proposed approach.");
    ("Technical Approach", "The technical details of the proposed method are presented here, including algorithms and implementation specifics.");
    ("Evaluation", "This section presents experimental results and performance comparisons with baseline methods.");
    ("Related Work", "Previous research and existing approaches related to this problem are discussed here.");
    ("Conclusion", "This work presented a novel approach to address the stated problem. Future work includes extending the method to additional domains.") ].

(** [templates[sectionName] || `[${sectionName} content to be added]`], for
    a name that is no property of [Object.prototype] *)
Definition generateSectionTemplate (sectionName : str) : str :=
  match ClarityRules.dictGet templates sectionName with
  | Some t => t
  | None => L "[" ++ sectionName ++ L " content to be added]"
  end.

Definition NLNL : str := StructureRules.NLNL.

(** the callback of [sections.forEach] in [generateImprovedStructure]; the
    structure rules are a fresh object in each turn *)
Definition improveSection (sectionAnalysis : list SectionAnalysis)
           (improved : str) (section : DocSection) : str :=
  let analysis :=
    find (fun s => Str.includes (Str.toLowerCase (name s))
                                (Str.toLowerCase (ds_title section)))
         sectionAnalysis in
  let improved := improved ++ L "# " ++ ds_title section ++ NLNL in
  let flagged :=
    match analysis with Some a => issuesSet a | None => false end in
  if flagged then
    if Str.includes (L "introduction") (Str.toLowerCase (ds_title section)) then
      improved
      ++ fixedText (fst (StructureRules.validateIntroduction (ds_content section) []))
      ++ NLNL
    else if Str.includes (L "abstract") (Str.toLowerCase (ds_title section)) then
      improved
      ++ fixedText (fst (StructureRules.validateAbstract (ds_content section) []))
      ++ NLNL
    else improved ++ ds_content section ++ NLNL
  else improved ++ ds_content section ++ NLNL.

(** the callback of [missingSections.forEach] *)
Definition addMissing (improved : str) (missing : SectionAnalysis) : str :=
  if negb (Str.includes (L "# " ++ name missing) improved) then
    improved ++ L "# " ++ name missing ++ NLNL
    ++ generateSectionTemplate (name missing) ++ NLNL
  else improved.

Definition generateImprovedStructure (text : str)
           (sectionAnalysis : list SectionAnalysis) : str :=
  let sections := extractDocumentSections text in
  let missingSections := filter (fun s => negb (present s)) sectionAnalysis in
  let abstractPresent :=
    match find (fun s => str_eqb (name s) (L "Abstract")) sectionAnalysis with
    | Some a => present a
    | None => false
    end in
  let improved :=
    if negb abstractPresent then
      L "# Abstract" ++ NLNL ++ generateAbstractTemplate text ++ NLNL
    else [] in
  let improved := fold_left (improveSection sectionAnalysis) sections improved in
  let improved := fold_left addMissing missingSections improved in
  Str.trim improved.

(** [expectedSections] is [None] when the argument is left out *)
Definition analyzeStructure (text : str) (expectedSections : option (list str))
  : StructureAnalysisResult :=
  let sections := extractDocumentSections text in
  let expected :=
    match expectedSections with
    | Some l => l
    | None => defaultExpectedSections
    end in
  let sectionAnalysis := fst (analyseAll sections expected []) in
  let suggestions := generateStructureSuggestions sectionAnalysis sections in
  let fixedVersion :=
    if existsb (fun s => negb (present s) || issuesSet s) sectionAnalysis
    then Some (generateImprovedStructure text sectionAnalysis)
    else None in
  mkResult (forallb (fun s => present s && negb (issuesSet s)) sectionAnalysis)
           sectionAnalysis suggestions fixedVersion.

End AnalyzeStructure.

(** * Notions used in the statements *)

(** ** Notions about matches and scans *)

Module Scan.

Import Re.

(** [r] matches at no position of the input [l] (which starts at index [i],
    behind the character [pv]) *)
Fixpoint silent (r : regex) (pv : option ascii) (i : nat) (l : str) : Prop :=
  match_at r pv i l = None /\
  match l with
  | [] => True
  | c :: l' => silent r (Some c) (S i) l'
  end.

(** the length of the longest prefix of [l] inside the class [p] *)
Fixpoint runLen (p : ascii -> bool) (l : str) : nat :=
  match l with
  | c :: l' => if p c then S (runLen p l') else 0
  | [] => 0
  end.

(** the position [n] characters further *)
Fixpoint advance (n : nat) (pv : option ascii) (i : nat) (l : str)
         (cs : list (nat * str)) : mstate :=
  match n, l with
  | S n', c :: l' => advance n' (Some c) (S i) l' cs
  | _, _ => MState pv i l cs
  end.

(** a continuation that refuses every position in front of a character
    of the class *)
Definition blocked (p : ascii -> bool) (k : mstate -> option mstate) : Prop :=
  forall st c l', rest st = c :: l' -> p c = true -> k st = None.

(** the characters a match of [r] takes at least, outside its groups *)
Fixpoint weight (r : regex) : nat :=
  match r with
  | Eps | Bol | Eol | Wordb => 0
  | Cls _ => 1
  | Seq a b => weight a + weight b
  | Alt a b => Nat.min (weight a) (weight b)
  | Rep _ min _ => min
  | Grp _ _ => 0
  end.

(** no group inside a group *)
Fixpoint flat (r : regex) : bool :=
  match r with
  | Seq a b | Alt a b => flat a && flat b
  | Grp _ r' => match groupsOf r' with [] => true | _ :: _ => false end
  | _ => true
  end.

(** the total length of the captures recorded in [cs] *)
Fixpoint capsLen (cs : list (nat * str)) : nat :=
  match cs with
  | [] => 0
  | (_, s) :: tl => length s + capsLen tl
  end.

(** [st1] lies [w] characters and the new captures behind [st], inside
    the same input; the new captures are groups of [r] *)
Definition reaches (r : regex) (w : nat) (st st1 : mstate) : Prop :=
  exists new,
    caps st1 = new ++ caps st
    /\ incl (map fst new) (groupsOf r)
    /\ pos st + w + capsLen new <= pos st1
    /\ pos st1 + length (rest st1) = pos st + length (rest st).

(** every match is replaced by itself or by a shorter text *)
Definition contracting (rule : rewriteRule) : Prop :=
  forall pv i l f,
    match_at (fst rule) pv i l = Some f ->
    snd rule f = matched f \/ length (snd rule f) < length (matched f).

(** no match is replaced by a longer text *)
Definition nonexpanding (r : regex) (g : found -> str) : Prop :=
  forall pv i l f,
    match_at r pv i l = Some f -> length (g f) <= length (matched f).

(** the total length of the captures [$k], [k] in [ks] *)
Fixpoint capSum (cs : list (nat * str)) (ks : list nat) : nat :=
  match ks with
  | [] => 0
  | k :: tl => length (lookup k cs) + capSum cs tl
  end.

(** a replacement made of at most [c] characters and the captures [ks] *)
Definition bounded (g : found -> str) (c : nat) (ks : list nat) : Prop :=
  forall f, length (g f) <= c + capSum (groups f) ks.

End Scan.

(** ** Notions about sentences and sections *)

Module Sentences.

Import Re Scan ClarityRules.

(** the classes [[.!?]] and [[^.!?]] of the sentence pattern *)
Definition terminal : ascii -> bool := Chr.one_of ".!?".
Definition plain : ascii -> bool := Chr.none_of ".!?".

(** no [.], [!] or [?] in the text *)
Definition unterminated (s : str) : bool := forallb plain s.

(** the length of the sentence that starts at the head of [l]: a run of
    plain characters and the run of terminal characters behind it *)
Definition sentenceLen (l : str) : option nat :=
  let a := runLen plain l in
  let b := runLen terminal (skipn a l) in
  if (1 <=? a) && (1 <=? b) then Some (a + b) else None.

(** a suspended callback of a section without sentences holds no edited
    sentence *)
Definition emptyHanded (p : Section_ * list str) : Prop :=
  unterminated (content (fst p)) = true -> snd p = [].

(** a finished section without sentences has the empty edited text *)
Definition emptied (s : Section_) : Prop :=
  unterminated (content s) = true -> edited s = Some [].


End Sentences.

(** ** Notions and inputs about abstracts *)

Module Abstracts.

Import StructureRules.

(** [s] repeated [n] times *)
Fixpoint repeatStr (n : nat) (s : str) : str :=
  match n with
  | 0 => []
  | S k => s ++ repeatStr k s
  end.

(** an abstract of 103 words that opens with the capitalised phrase *)
Definition capitalisedAbstract : str :=
  L "This paper studies a problem with a new approach and reports a result"
  ++ repeatStr 90 (L " word").

(** [s.split(/\s+/)] *)
Definition words (s : str) : list str := Re.split Re.s_plus s.

(** the self-containment check of [validateAbstract] *)
Definition selfContainedText (text : str) : bool :=
  hasAllComponents text ["problem"; "approach"; "result"].

(** none of the three phrases occurs, in any letter case *)
Definition neutral (text : str) : bool :=
  negb (Re.test (Re.lit true "this paper") text)
  && negb (Re.test (Re.lit true "we present") text)
  && negb (Re.test (Re.lit true "this work") text).



End Abstracts.

(** ** Notions about the accumulator of an engine *)

Module Changes.

Import Re Scan.

(** the replacement of a dictionary entry is shorter than its phrase *)
Definition shorter (e : string * string) : bool :=
  flat (wholeWord (fst e)) && (length (L (snd e)) <? weight (wholeWord (fst e))).

(** the call appends exactly one Change to the accumulator [cs] *)
Definition appendsOne {A} (m : Acc (list Change) A) (cs : list Change) : Prop :=
  exists c, snd (m cs) = cs ++ [c].

(** the call leaves the accumulator [cs] as it is *)
Definition appendsNone {A} (m : Acc (list Change) A) (cs : list Change) : Prop :=
  snd (m cs) = cs.

(** the call appends no Change or exactly one *)
Definition atMostOne {A} (m : Acc (list Change) A) (cs : list Change) : Prop :=
  appendsNone m cs \/ appendsOne m cs.

(** the rules of [cleanVocabulary]: every term is replaced by [''] *)
Definition removals (terms : list string) : list rewriteRule :=
  map (fun term => (wholeWord term, fun _ : found => @nil ascii)) terms.

(** a substitution loop, a final touch [norm] on the text, and one Change
    when the loop raised its flag *)
Definition ruleOp (rules : list rewriteRule) (norm : str -> str)
           (mk : str -> Change) (text : str) : Acc (list Change) str :=
  let (result, hasChanges) := rewriteEach rules text in
  let result := norm result in
  (pushIf hasChanges (mk result) ;;; ret result)%acc.

End Changes.

(** ** Notions about the overview section *)

Module Overview.

Import StructureRules.

(** [sections.some(s => s.title.toLowerCase().includes('overview'))] *)
Definition hasOverview (sections : list Section_) : bool :=
  existsb (titleIncludes "overview") sections.

(** a section list with an overview title, in capitals *)
Definition overviewFirst : list Section_ :=
  [ mkSection (L "Introduction") (L "We test it.") None None None;
    mkSection (L "System OVERVIEW") (L "Two parts.") None None None ].

End Overview.

(** ** Example documents *)

Module Examples.

(** the input of the example of the README *)
Definition readmeInput : str :=
  L "The system was designed by our team. It should be noted that the results will be evaluated.".

Definition nl : str := [DocumentProcessor.LF].

(** a full paper of two sections of one sentence each *)
Definition twoSections : str :=
  L "# Method" ++ nl ++ L "We will test it." ++ nl
  ++ L "# Results" ++ nl ++ L "It will rain.".

(** a full paper with an Introduction and an Abstract *)
Definition smallPaper : str :=
  L "# Introduction" ++ nl ++ L "We will test it." ++ nl
  ++ L "# Abstract" ++ nl ++ L "It will rain.".

End Examples.

(** ** Notions about the section pipeline *)

Module Pipeline.

Import DocumentProcessor.

(** the [sections] on which [processDocument] works *)
Definition inputSections (text : str) (type : DocType) : list Section_ :=
  if DocType_eqb type full_paper then extractSections text
  else [mkSection (L "Content") text None None None].

(** the section [s] is what the callback returns for the suspended
    callback [p], whatever the Change list it collects *)
Definition finished (p : Section_ * list str) (s : Section_) : Prop :=
  title s = title (fst p)
  /\ content s = content (fst p)
  /\ original s = Some (content (fst p))
  /\ edited s = Some (Str.join (L " ") (snd p)).

(** the computation leaves the accumulator of the structure rules alone *)
Definition keepsStructure {A} (m : Acc Engines A) : Prop :=
  forall e, structureRules (snd (m e)) = structureRules e.

End Pipeline.

(** ** Notions about literals *)

Module Literals.

(** the text [l] starts with the characters of [p], in any letter case *)
Fixpoint prefix_ci (p l : str) : bool :=
  match p, l with
  | [], _ => true
  | a :: p', b :: l' => Chr.eqb_ci a b && prefix_ci p' l'
  | _ :: _, [] => false
  end.

(** a text that passes the five checks of [validateIntroduction] *)
Definition soundIntroduction : str :=
  L "The problem is hard. Our contribution is a method we propose, unlike existing tools.".

End Literals.

(** ** Notions about the rewriting of an abstract *)

Module Restructure.

Import StructureRules.

(** the three generated sentences that replace an abstract *)
Definition templateAbstract : str :=
  let components := generateAbstractComponents [] in
  problem components ++ L " " ++ approach components ++ L " " ++ results components.

(** an abstract without a problem, an approach or a result *)
Definition vagueAbstract : str := L "We did many things and they went well.".

(** a short abstract that names all three components *)
Definition shortAbstract : str := L "The problem needs an approach and a result.".

End Restructure.

(** ** Notions about the place of the overview *)

Module Placement.

Import StructureRules.

(** the section is an introduction or an abstract, by its title *)
Definition heads (s : Section_) : bool :=
  existsb (fun pos => titleIncludes pos s) ["introduction"; "abstract"].

(** no section of the list is an introduction or an abstract *)
Definition headless (sections : list Section_) : bool :=
  forallb (fun s => negb (heads s)) sections.

(** the Change that [insertOverviewSection] records *)
Definition overviewChange : Change :=
  mkChange (L "Overview Section") structure
    (L "No overview section") (L "Added overview section")
    (L "Inserted overview section for better document structure").

(** three sections, none of them an overview *)
Definition plainPaper : list Section_ :=
  [ mkSection (L "Abstract") (L "Short.") None None None;
    mkSection (L "Introduction") (L "We test it.") None None None;
    mkSection (L "Method") (L "Two parts.") None None None ].

End Placement.

(** ** Notions about words and white space *)

Module Words.

(** the pieces of a text between its runs of white space; [inSep] tells
    that the position is inside a run, [cur] is the piece read so far,
    reversed *)
Fixpoint fieldsFrom (inSep : bool) (cur : str) (l : str) : list str :=
  match l with
  | [] => [rev cur]
  | c :: l' =>
      if Chr.is_space c then
        if inSep then fieldsFrom true cur l'
        else rev cur :: fieldsFrom true [] l'
      else fieldsFrom false (c :: cur) l'
  end.

(** the text is empty or starts with white space *)
Definition startsBlank (s : str) : bool :=
  match s with [] => true | c :: _ => Chr.is_space c end.

(** the text ends with white space *)
Fixpoint endsBlank (s : str) : bool :=
  match s with
  | [] => false
  | [c] => Chr.is_space c
  | _ :: tl => endsBlank tl
  end.

Definition nonEmpty (w : str) : bool := 0 <? length w.

End Words.

(** ** Notions about the groups of a Change list *)

Module Groups.

(** the Changes of type [t], in their order *)
Definition ofType (t : ChangeType) (changes : list Change) : list Change :=
  filter (fun c => ChangeType_eqb (type c) t) changes.

(** [grouped[t] || []] *)
Fixpoint groupOf (t : ChangeType) (grouped : list (ChangeType * list Change))
  : list Change :=
  match grouped with
  | [] => []
  | (t', l) :: tl => if ChangeType_eqb t' t then l else groupOf t tl
  end.

End Groups.

(** ** Notions about blanks *)

Module Blanks.

(** every run of white space of [l] replaced by one blank; [inSep] tells
    that the position is inside a run *)
Fixpoint collapse (inSep : bool) (l : str) : str :=
  match l with
  | [] => []
  | c :: l' =>
      if Chr.is_space c then
        if inSep then collapse true l' else " "%char :: collapse true l'
      else c :: collapse false l'
  end.

(** the only white space of the text are single blanks; [prevSpace] tells
    that the character before the text is white space *)
Fixpoint normalFrom (prevSpace : bool) (l : str) : bool :=
  match l with
  | [] => true
  | c :: l' =>
      if Chr.is_space c then
        negb prevSpace && Ascii.eqb c " "%char && normalFrom true l'
      else normalFrom false l'
  end.

Definition normal (s : str) : bool := normalFrom false s.

End Blanks.

(** ** The language of an expression *)

Module Lang.

(** the texts that a match of [r] can consume, whatever stands around it *)
Fixpoint lang (r : regex) (w : str) : Prop :=
  match r with
  | Eps | Bol | Eol | Wordb => w = []
  | Cls p => exists c, w = [c] /\ p c = true
  | Seq a b => exists u v, w = u ++ v /\ lang a u /\ lang b v
  | Alt a b => lang a w \/ lang b w
  | Rep _ min p => min <= length w /\ forallb p w = true
  | Grp _ r' => lang r' w
  end.

End Lang.

(** ** Notions about "that" in front of white space *)

Module Guard.

(** the two characters are "at", in any letter case *)
Definition atBefore (p2 p1 : ascii) : bool :=
  Chr.eqb_ci "a" p2 && Chr.eqb_ci "t" p1.

(** no white-space character of [m] stands directly behind "at"; [p2] and
    [p1] are the two characters in front of [m] *)
Fixpoint safe (p2 p1 : ascii) (m : str) : bool :=
  match m with
  | [] => true
  | c :: m' => negb (Chr.is_space c && atBefore p2 p1) && safe p1 c m'
  end.

(** the two last characters of [p2 p1 m] *)
Fixpoint tail2 (p2 p1 : ascii) (m : str) : ascii * ascii :=
  match m with
  | [] => (p2, p1)
  | c :: m' => tail2 p1 c m'
  end.

(** no character of the text is white space *)
Definition solid (u : str) : bool := forallb (fun c => negb (Chr.is_space c)) u.

(** the text starts with "that", in any letter case, and white space *)
Definition thatSpace (l : str) : bool :=
  Literals.prefix_ci (L "that") l
  && match skipn 4 l with c :: _ => Chr.is_space c | [] => false end.

(** a sentence whose only passive construction is "it is believed that" *)
Definition believed : str := L "It is believed that the sky is blue.".

End Guard.

(** ** Notions about the report of analyzeStructure *)

Module Reports.

Import AnalyzeStructure.

(** what the analysis of one expected section can be *)
Definition sound (a : SectionAnalysis) : Prop :=
  (present a = false -> sa_issues a = Some [name a ++ L " section is missing"])
  /\ (present a = true -> issuesSet a = true ->
      Str.toLowerCase (name a) = L "introduction"
      \/ Str.toLowerCase (name a) = L "abstract").

(** a section with a trimmed title and a trimmed content that is not empty *)
Definition proper (s : DocSection) : Prop :=
  Str.trim (ds_title s) = ds_title s
  /\ Str.trim (ds_content s) = ds_content s
  /\ ds_content s <> [].

(** the invariant of the loop of [extractDocumentSections] *)
Definition steady (st : extractState) : Prop :=
  Forall proper (sections st)
  /\ (forall t, currentSection st = Some t -> Str.trim t = t)
  /\ Forall (fun line => Str.trim line <> []) (contentLines st).

End Reports.

(** ** Notions about the words of a text *)

Module Pieces.

(** the words behind a position: the maximal runs of characters that are
    no white space; [cur] is the word read so far, reversed *)
Fixpoint wordsFrom (cur : str) (l : str) : list str :=
  match l with
  | [] => match cur with [] => [] | _ :: _ => [rev cur] end
  | c :: l' =>
      if Chr.is_space c then
        match cur with
        | [] => wordsFrom [] l'
        | _ :: _ => rev cur :: wordsFrom [] l'
        end
      else wordsFrom (c :: cur) l'
  end.

(** the words of a text, in order *)
Definition words (s : str) : list str := wordsFrom [] s.

Definition numWords (s : str) : nat := length (words s).

(** the empty piece that [s.split(/\s+/)] puts before the words of a text
    that is empty or starts with white space *)
Definition lead (s : str) : list str :=
  if Words.startsBlank s then [[]] else [].

(** the empty piece that [s.split(/\s+/)] puts behind the words of a text
    that ends with white space *)
Definition trail (s : str) : list str :=
  if Words.endsBlank s then [[]] else [].

(** the words of the text, and one more for each empty piece *)
Definition count (s : str) : nat :=
  length (lead s) + numWords s + length (trail s).

(** no white space in the word, which is not empty *)
Definition isWord (w : str) : Prop :=
  w <> [] /\ forallb (fun c => negb (Chr.is_space c)) w = true.


(** 99 words behind a blank that name a problem, an approach and a
    result *)
Definition nearlyShort : str :=
  L " problem approach result" ++ Abstracts.repeatStr 96 (L " w").

End Pieces.

(** ** Notions about the split points of a sentence *)

Module Splits.

Import Re ClarityRules.














End Splits.

(** * Properties *)

(** ** String equality *)

Lemma str_eqb_eq a b : str_eqb a b = true <-> a = b.
Proof. unfold str_eqb; destruct (list_eq_dec ascii_dec a b); split; congruence. Qed.

Lemma str_eqb_refl a : str_eqb a a = true.
Proof. now apply str_eqb_eq. Qed.

Lemma str_eqb_neq a b : str_eqb a b = false <-> a <> b.
Proof. unfold str_eqb; destruct (list_eq_dec ascii_dec a b); split; congruence. Qed.

(** ** The scan of a regular expression *)

Module ReFacts.

Import Re Scan.

Lemma render_plain (f : found -> str) (l : str) : render f (map Plain l) = l.
Proof. induction l as [|c l IH]; simpl; [reflexivity | now rewrite IH]. Qed.

Lemma hits_plain (l : str) : hits (map Plain l) = [].
Proof. induction l as [|c l IH]; simpl; auto. Qed.

Lemma silent_nil r pv i : silent r pv i [] <-> match_at r pv i [] = None.
Proof. simpl; tauto. Qed.

Lemma silent_cons r pv i c l :
  silent r pv i (c :: l)
  <-> match_at r pv i (c :: l) = None /\ silent r (Some c) (S i) l.
Proof. simpl; tauto. Qed.

Lemma scan_silent r l : forall pv i,
  silent r pv i l -> scan r 0 pv i l = map Plain l.
Proof.
  induction l as [|c l IH]; intros pv i [Hm Hl]; simpl; rewrite Hm.
  - reflexivity.
  - now rewrite IH.
Qed.

Lemma scan1_silent r l : forall pv i,
  silent r pv i l -> scan1 r pv i l = map Plain l.
Proof.
  induction l as [|c l IH]; intros pv i [Hm Hl]; simpl; rewrite Hm.
  - reflexivity.
  - now rewrite IH.
Qed.

Lemma scan1_hits_nil r l : forall pv i,
  hits (scan1 r pv i l) = [] -> silent r pv i l.
Proof.
  induction l as [|c l IH]; intros pv i H; simpl in *.
  - destruct (match_at r pv i []); [discriminate | auto].
  - destruct (match_at r pv i (c :: l)); [discriminate | ].
    split; [reflexivity | apply IH; exact H].
Qed.

Lemma test_false_silent r s : test r s = false -> silent r None 0 s.
Proof.
  unfold test, exec; intros H.
  apply scan1_hits_nil.
  destruct (hits (scan1 r None 0 s)); [reflexivity | discriminate].
Qed.

Lemma silent_test_false r s : silent r None 0 s -> test r s = false.
Proof.
  intros H; unfold test, exec.
  now rewrite (scan1_silent _ _ _ _ H), hits_plain.
Qed.

(** a pattern that occurs nowhere leaves the text as it is *)
Lemma replaceAll_absent r f s : test r s = false -> replaceAll r f s = s.
Proof.
  intros H; unfold replaceAll.
  rewrite (scan_silent _ _ _ _ (test_false_silent _ _ H)).
  apply render_plain.
Qed.

Lemma matchAll_absent r s : test r s = false -> matchAll r s = [].
Proof.
  intros H; unfold matchAll.
  now rewrite (scan_silent _ _ _ _ (test_false_silent _ _ H)), hits_plain.
Qed.

End ReFacts.

(** ** The substitution loop *)

Lemma rewriteEach_absent (rules : list rewriteRule) (text : str) :
  Forall (fun r => Re.test (fst r) text = false) rules ->
  rewriteEach rules text = (text, false).
Proof.
  unfold rewriteEach; induction 1 as [|r rules Hr _ IH]; simpl.
  - reflexivity.
  - rewrite (ReFacts.replaceAll_absent _ _ _ Hr), str_eqb_refl; simpl.
    exact IH.
Qed.


(** ** fixPassiveVoice without a passive construction *)

(** C7. A sentence in which none of the three passive patterns of
    [fixPassiveVoice] occurs (["X was/were VERBed by Y"],
    ["it is/was VERBed that"], ["X has/have been VERBed"]) is returned
    unchanged, and the accumulator of the engine is left as it was: no
    Change record is appended. *)
Theorem fixPassiveVoice_no_passive (sentence : str) (changes : list Change) :
  Re.test ClarityRules.re_passiveBy sentence = false ->
  Re.test ClarityRules.re_itIsThat sentence = false ->
  Re.test ClarityRules.re_hasBeen sentence = false ->
  ClarityRules.fixPassiveVoice sentence changes = (sentence, changes).
Proof.
  intros H1 H2 H3.
  unfold ClarityRules.fixPassiveVoice.
  rewrite rewriteEach_absent.
  - reflexivity.
  - unfold ClarityRules.passivePatterns.
    repeat constructor; assumption.
Qed.

Lemma fixPassiveVoice_no_passive_witness :
  ClarityRules.fixPassiveVoice (L "Our team designed the system.") []
  = (L "Our team designed the system.", []).
Proof.
  apply (fixPassiveVoice_no_passive (L "Our team designed the system.") []);
    vm_compute; reflexivity.
Defined.

(** ** The example of the README, end to end *)

(** C1. What the pipeline computes on the example input of the README. The
    input has two sentences. [fixPassiveVoice] turns the first into
    ["The our team design system."] (the README and the specification
    give ["Our team designed the system."]); [cleanVocabulary] deletes
    ["It should be noted that"] from the second and leaves the blank behind
    it; [fixTense] turns ["will be evaluated"] into ["is evaluated"] (they
    give ["are evaluated"]). Three Change records are produced,
    of the categories clarity, vocabulary and style, in this order. *)
Theorem readme_example_trace :
  let run := DocumentProcessor.processDocument Examples.readmeInput section_doc
               DocumentProcessor.newEngines in
  let doc := fst run in
  fst (DocumentProcessor.splitIntoSentences Examples.readmeInput DocumentProcessor.newEngines)
  = [ L "The system was designed by our team.";
      L "It should be noted that the results will be evaluated." ]
  /\ fst (ClarityRules.fixPassiveVoice (L "The system was designed by our team.") [])
     = L "The our team design system."
  /\ fst (StyleRules.cleanVocabulary
            (L "It should be noted that the results will be evaluated.") [])
     = L " the results will be evaluated."
  /\ fst (StyleRules.fixTense (L " the results will be evaluated.") [])
     = L " the results is evaluated."
  /\ map edited (doc_sections doc)
     = [ Some (L "The our team design system. the results is evaluated.") ]
  /\ map rule (doc_changes doc)
     = [ L "Passive Voice"; L "Forbidden Vocabulary"; L "Tense Correction" ]
  /\ map type (doc_changes doc) = [ clarity; vocabulary; style ]
  /\ map after (doc_changes doc)
     = [ L "The our team design system.";
         L " the results will be evaluated.";
         L " the results is evaluated." ].
Proof. vm_compute. repeat split; reflexivity. Qed.

(** ** validateAbstract: a passing validation that rewrites the text *)

(** C10. There is an abstract that contains ["This paper"] and none of the
    lower-case phrases ["this paper"], ["we present"], ["this work"], for
    which [validateAbstract] reports no issue and [valid = true], and whose
    [fixedText] nevertheless differs from the input: the rewrite replaces
    the phrase in any letter case, the independence check only looks for the
    lower-case spelling. *)
Theorem validateAbstract_pass_rewrites :
  exists text : str,
    Str.includes (L "This paper") text = true
    /\ Str.includes (L "this paper") text = false
    /\ Str.includes (L "we present") text = false
    /\ Str.includes (L "this work") text = false
    /\ let result := fst (StructureRules.validateAbstract text []) in
       valid result = true
       /\ issues result = None
       /\ vr_changes result = []
       /\ fixedText result <> text
       /\ fixedText result
          = L "this research studies a problem with a new approach and reports a result"
            ++ Abstracts.repeatStr 90 (L " word").
Proof.
  exists Abstracts.capitalisedAbstract.
  vm_compute. repeat split; try reflexivity.
  intros H; discriminate H.
Qed.

(** ** Change records across sections *)

(** C3. Where the Change records of a full paper end up. In [processDocument]
    every section callback runs up to its [await] before any of them reads
    the accumulators, so the first callback to resume takes the records of
    all sections: for the two sections Method and Results the record made
    for the sentence of Results (["It will rain."]) is attached to Method,
    and Results gets none (were Results to resume first, it would take the
    record of Method). In [editDocument] the structure rules are never
    reset between sections: the record made for the Introduction is also
    attached to the Abstract, the Overview record to both, and none of the
    structure records is in the document-level list. *)
Theorem changes_cross_sections :
  let doc := fst (DocumentProcessor.processDocument Examples.twoSections full_paper
                    DocumentProcessor.newEngines) in
  let swapped := fst (DocumentProcessor.processSectionsIn (fun _ => [1; 0])
                        (DocumentProcessor.extractSections Examples.twoSections)
                        DocumentProcessor.newEngines) in
  let paper := EditDocument.editedDocument Examples.smallPaper full_paper in
  map title (doc_sections doc) = [ L "Method"; L "Results" ]
  /\ map (fun s => map before (DocumentProcessor.changesOf s)) swapped
     = [ []; [ L "We will test it."; L "It will rain." ] ]
  /\ map content (doc_sections doc) = [ L "We will test it."; L "It will rain." ]
  /\ map (fun s => map before (DocumentProcessor.changesOf s)) (doc_sections doc)
     = [ [ L "We will test it."; L "It will rain." ]; [] ]
  /\ map before (doc_changes doc) = [ L "We will test it."; L "It will rain." ]
  /\ map title (doc_sections paper)
     = [ L "Introduction"; L "Overview"; L "Abstract" ]
  /\ map (fun s => map rule (DocumentProcessor.changesOf s)) (doc_sections paper)
     = [ [ L "Tense Correction"; L "Tense Correction";
           L "Overview Section"; L "Introduction Structure" ];
         [];
         [ L "Overview Section"; L "Introduction Structure";
           L "Abstract Structure" ] ]
  /\ map rule (doc_changes paper) = [ L "Tense Correction"; L "Tense Correction" ].
Proof. vm_compute. repeat split; reflexivity. Qed.

(** ** insertOverviewSection *)

Module OverviewFacts.

Import StructureRules Overview.

Lemma generated_is_overview sections :
  titleIncludes "overview" (generateOverview sections) = true.
Proof. reflexivity. Qed.

Lemma hasOverview_splice i s sections :
  titleIncludes "overview" s = true ->
  hasOverview (splice i s sections) = true.
Proof.
  intros H; unfold hasOverview, splice.
  rewrite !existsb_app; simpl; rewrite H.
  now rewrite orb_true_r.
Qed.

Lemma insert_present sections changes :
  hasOverview sections = true ->
  insertOverviewSection sections changes = (sections, changes).
Proof.
  unfold insertOverviewSection; fold (hasOverview sections).
  now intros ->.
Qed.

Lemma insert_result_hasOverview sections changes :
  hasOverview (fst (insertOverviewSection sections changes)) = true.
Proof.
  unfold insertOverviewSection; fold (hasOverview sections).
  destruct (hasOverview sections) eqn:E; simpl.
  - exact E.
  - apply hasOverview_splice, generated_is_overview.
Qed.

End OverviewFacts.

(** C8. On a section list in which some title contains ["overview"] (any
    letter case), [insertOverviewSection] returns the list as it is and
    appends no Change; the list it returns always contains such a section,
    so a second call on its result (and on the accumulator it left) changes
    nothing: applying it twice equals applying it once. *)
Theorem insertOverviewSection_idempotent
        (sections : list Section_) (changes : list Change) :
  (Overview.hasOverview sections = true ->
   StructureRules.insertOverviewSection sections changes = (sections, changes))
  /\ Overview.hasOverview
       (fst (StructureRules.insertOverviewSection sections changes)) = true
  /\ (let once := StructureRules.insertOverviewSection sections changes in
      StructureRules.insertOverviewSection (fst once) (snd once) = once).
Proof.
  split; [apply OverviewFacts.insert_present | split].
  - apply OverviewFacts.insert_result_hasOverview.
  - cbv zeta.
    rewrite OverviewFacts.insert_present.
    + now destruct (StructureRules.insertOverviewSection sections changes).
    + apply OverviewFacts.insert_result_hasOverview.
Qed.

Lemma insertOverviewSection_idempotent_witness :
  Overview.hasOverview Overview.overviewFirst = true
  /\ StructureRules.insertOverviewSection Overview.overviewFirst [] = (Overview.overviewFirst, []).
Proof.
  split; [reflexivity | ].
  apply (proj1 (insertOverviewSection_idempotent Overview.overviewFirst [])).
  reflexivity.
Defined.

(** ** Quantified classes *)

Module RepFacts.

Import Re Scan.

Lemma runLen_le p l : runLen p l <= length l.
Proof. induction l as [|c l IH]; simpl; [lia | destruct (p c); simpl; lia]. Qed.

Lemma advance_pos n : forall pv i l cs,
  n <= length l -> pos (advance n pv i l cs) = i + n.
Proof.
  induction n as [|n IH]; intros pv i l cs H; simpl.
  - lia.
  - destruct l as [|c l]; simpl in *; [lia | rewrite IH; lia].
Qed.

Lemma advance_rest n : forall pv i l cs,
  rest (advance n pv i l cs) = skipn n l.
Proof.
  induction n as [|n IH]; intros pv i l cs; simpl.
  - reflexivity.
  - destruct l as [|c l]; simpl; [reflexivity | apply IH].
Qed.

Lemma advance_caps n : forall pv i l cs, caps (advance n pv i l cs) = cs.
Proof.
  induction n as [|n IH]; intros pv i l cs; simpl.
  - reflexivity.
  - destruct l as [|c l]; simpl; [reflexivity | apply IH].
Qed.

(** Before a blocked continuation a greedy quantifier can only stop at
    the end of the run. *)
Lemma rep_greedy_blocked p k : blocked p k ->
  forall l min pv i cs,
    rep true p k min pv i cs l
    = if min <=? runLen p l then k (advance (runLen p l) pv i l cs) else None.
Proof.
  intros Hk; induction l as [|c l IH]; intros min pv i cs.
  - simpl. destruct min; reflexivity.
  - simpl. destruct (p c) eqn:Hc.
    + rewrite IH. simpl.
      destruct min as [|m]; simpl.
      * destruct (k (advance (runLen p l) (Some c) (S i) l cs)); simpl;
          [reflexivity | ].
        now apply (Hk _ c l).
      * destruct (m <=? runLen p l); simpl; [ | reflexivity].
        now destruct (k (advance (runLen p l) (Some c) (S i) l cs)).
    + simpl. destruct min; reflexivity.
Qed.

(** Before the final continuation a greedy quantifier takes the whole
    run. *)
Lemma rep_greedy_final p : forall l min pv i cs,
  rep true p (fun st => Some st) min pv i cs l
  = if min <=? runLen p l then Some (advance (runLen p l) pv i l cs) else None.
Proof.
  induction l as [|c l IH]; intros min pv i cs.
  - simpl. destruct min; reflexivity.
  - simpl. destruct (p c) eqn:Hc.
    + rewrite IH. simpl.
      destruct min as [|m]; simpl; [reflexivity | ].
      now destruct (m <=? runLen p l).
    + simpl. destruct min; reflexivity.
Qed.

Lemma runLen_all p l : forallb p l = true -> runLen p l = length l.
Proof.
  induction l as [|c l IH]; simpl; [reflexivity | ].
  destruct (p c); simpl; [intros H; now rewrite IH | discriminate].
Qed.

Lemma runLen_app p x y :
  runLen p (x ++ y)
  = if runLen p x =? length x then length x + runLen p y else runLen p x.
Proof.
  induction x as [|c x IH]; simpl; [reflexivity | ].
  destruct (p c); simpl; [ | reflexivity].
  rewrite IH. now destruct (runLen p x =? length x).
Qed.

End RepFacts.

(** ** The sentence pattern *)

Module SentenceFacts.

Import Re Scan Sentences RepFacts.

Lemma plain_not_terminal c : plain c = true -> terminal c = false.
Proof. unfold plain, Chr.none_of, terminal. now destruct (Chr.one_of ".!?" c). Qed.

Lemma match_at_sentence pv i l :
  match_at ClarityRules.re_sentence pv i l
  = match sentenceLen l with
    | Some n => Some (Found (firstn n l) [])
    | None => None
    end.
Proof.
  unfold match_at, ClarityRules.re_sentence, Re.plus; simpl run.
  fold plain terminal.
  rewrite rep_greedy_blocked.
  - unfold sentenceLen.
    destruct (1 <=? runLen plain l) eqn:Ha; cbn [andb]; [ | reflexivity].
    cbn [run prev pos rest caps].
    rewrite advance_rest, advance_caps, rep_greedy_final.
    destruct (1 <=? runLen terminal (skipn (runLen plain l) l)) eqn:Hb;
      [ | reflexivity].
    rewrite advance_caps.
    rewrite !advance_pos by apply runLen_le.
    do 3 f_equal. lia.
  - intros st c l' Hrest Hc. simpl. rewrite Hrest. simpl.
    now rewrite (plain_not_terminal _ Hc).
Qed.

Lemma sentenceLen_unterminated l : unterminated l = true -> sentenceLen l = None.
Proof.
  intros H; unfold sentenceLen.
  rewrite (runLen_all _ _ H), skipn_all. simpl.
  now rewrite andb_false_r.
Qed.

Lemma unterminated_tail c l : unterminated (c :: l) = true -> unterminated l = true.
Proof. unfold unterminated; simpl. now intros H%andb_prop. Qed.

Lemma silent_unterminated l : forall pv i,
  unterminated l = true -> Scan.silent ClarityRules.re_sentence pv i l.
Proof.
  induction l as [|c l IH]; intros pv i H.
  - apply ReFacts.silent_nil.
    now rewrite match_at_sentence, sentenceLen_unterminated.
  - apply ReFacts.silent_cons. split.
    + now rewrite match_at_sentence, sentenceLen_unterminated.
    + apply IH. now apply unterminated_tail in H.
Qed.

(** a text without terminal punctuation holds no sentence *)
Lemma no_sentence s :
  unterminated s = true -> matchAll ClarityRules.re_sentence s = [].
Proof.
  intros H. apply ReFacts.matchAll_absent, ReFacts.silent_test_false.
  now apply silent_unterminated.
Qed.

End SentenceFacts.

(** ** Readability *)

Module ReadabilityFacts.

Import Readability.

Lemma clamp_bounds x : (0 <= clamp x /\ clamp x <= 100)%Q.
Proof.
  unfold clamp; split.
  - apply Q.le_max_l.
  - apply Q.max_lub; [discriminate | apply Q.le_min_l].
Qed.

Lemma zero_bounds : (0 <= 0 /\ 0 <= 100)%Q.
Proof. split; discriminate. Qed.

Lemma space_plain c : Chr.is_space c = true -> Sentences.plain c = true.
Proof.
  destruct c as [[] [] [] [] [] [] [] []]; vm_compute; congruence.
Qed.

Lemma blank_unterminated s :
  forallb Chr.is_space s = true -> Sentences.unterminated s = true.
Proof.
  unfold Sentences.unterminated.
  induction s as [|c s IH]; simpl; [reflexivity | ].
  intros [Hc Hs]%andb_prop. now rewrite (space_plain _ Hc), IH.
Qed.

Lemma calculateReadability_unterminated s :
  Sentences.unterminated s = true -> calculateReadability s = 0%Q.
Proof.
  intros H; unfold calculateReadability.
  now rewrite (SentenceFacts.no_sentence _ H).
Qed.

Lemma calculateReadabilityScore_unterminated s :
  Sentences.unterminated s = true -> calculateReadabilityScore s = 0%Q.
Proof.
  intros H; unfold calculateReadabilityScore.
  now rewrite (SentenceFacts.no_sentence _ H).
Qed.

(** the statistic of [checkClarity] is clamped as well, and is 100, not 0,
    on the empty text *)
Lemma readabilityStatistic_clamped s :
  (0 <= readabilityStatistic s <= 100)%Z.
Proof. unfold readabilityStatistic. lia. Qed.

Lemma readabilityStatistic_empty : readabilityStatistic [] = 100%Z.
Proof. vm_compute. reflexivity. Qed.

End ReadabilityFacts.

(** C9. The readability score (Flesch Reading Ease) computed by
    [DocumentProcessor.calculateReadability] and by
    [calculateReadabilityScore] of the tracking report lies in [0, 100] for
    every text. It is 0 for every text without terminal punctuation
    ([.], [!], [?]), hence for a text of consonants only; for every text
    without words (white space only); and for the empty text. *)
Theorem readability_clamped (text : str) :
  (0 <= Readability.calculateReadability text
   /\ Readability.calculateReadability text <= 100)%Q
  /\ (0 <= Readability.calculateReadabilityScore text
      /\ Readability.calculateReadabilityScore text <= 100)%Q
  /\ (Sentences.unterminated text = true ->
      Readability.calculateReadability text = 0%Q
      /\ Readability.calculateReadabilityScore text = 0%Q)
  /\ (forallb Chr.is_space text = true ->
      Readability.calculateReadability text = 0%Q
      /\ Readability.calculateReadabilityScore text = 0%Q)
  /\ Readability.calculateReadability [] = 0%Q
  /\ Readability.calculateReadabilityScore [] = 0%Q.
Proof.
  repeat split; try reflexivity.
  - unfold Readability.calculateReadability.
    destruct (_ || _)%bool;
      [apply ReadabilityFacts.zero_bounds | apply ReadabilityFacts.clamp_bounds].
  - unfold Readability.calculateReadability.
    destruct (_ || _)%bool;
      [apply ReadabilityFacts.zero_bounds | apply ReadabilityFacts.clamp_bounds].
  - unfold Readability.calculateReadabilityScore.
    destruct (_ || _)%bool;
      [apply ReadabilityFacts.zero_bounds | apply ReadabilityFacts.clamp_bounds].
  - unfold Readability.calculateReadabilityScore.
    destruct (_ || _)%bool;
      [apply ReadabilityFacts.zero_bounds | apply ReadabilityFacts.clamp_bounds].
  - now apply ReadabilityFacts.calculateReadability_unterminated.
  - now apply ReadabilityFacts.calculateReadabilityScore_unterminated.
  - now apply ReadabilityFacts.calculateReadability_unterminated,
      ReadabilityFacts.blank_unterminated.
  - now apply ReadabilityFacts.calculateReadabilityScore_unterminated,
      ReadabilityFacts.blank_unterminated.
Qed.

Lemma readability_clamped_witness :
  Sentences.unterminated (L "bcd fgh jklm") = true
  /\ Readability.calculateReadability (L "bcd fgh jklm") = 0%Q
  /\ Readability.calculateReadabilityScore (L "bcd fgh jklm") = 0%Q.
Proof.
  split; [reflexivity | ].
  apply (proj1 (proj2 (proj2 (readability_clamped (L "bcd fgh jklm"))))).
  reflexivity.
Defined.

(** ** Sentences of a section *)

Module SplitFacts.

Import Re Scan Sentences RepFacts SentenceFacts DocumentProcessor.

Lemma runLen_terminal_unterminated tail :
  unterminated tail = true -> runLen terminal tail = 0.
Proof.
  destruct tail as [|c tail]; simpl; [reflexivity | ].
  intros [Hc _]%andb_prop. now rewrite (plain_not_terminal _ Hc).
Qed.

Lemma sentenceLen_app head tail :
  unterminated tail = true -> sentenceLen (head ++ tail) = sentenceLen head.
Proof.
  intros Ht; unfold sentenceLen.
  rewrite runLen_app.
  destruct (runLen plain head =? length head) eqn:Ha.
  - apply Nat.eqb_eq in Ha. rewrite Ha.
    rewrite (runLen_all _ _ Ht), <- length_app, !skipn_all; simpl.
    now rewrite !andb_false_r.
  - assert (Hle : runLen plain head <= length head) by apply runLen_le.
    rewrite skipn_app.
    replace (runLen plain head - length head) with 0 by lia.
    rewrite skipn_O, runLen_app, (runLen_terminal_unterminated _ Ht).
    set (h2 := skipn (runLen plain head) head).
    destruct (runLen terminal h2 =? length h2) eqn:Hb; [ | reflexivity].
    apply Nat.eqb_eq in Hb. now rewrite Nat.add_0_r, Hb.
Qed.

Lemma sentenceLen_bound l n : sentenceLen l = Some n -> 1 <= n <= length l.
Proof.
  unfold sentenceLen.
  destruct (1 <=? runLen plain l) eqn:Ha; [ | discriminate].
  destruct (1 <=? runLen terminal (skipn (runLen plain l) l)) eqn:Hb;
    [ | discriminate].
  cbn [andb]. intros [= <-].
  apply Nat.leb_le in Ha.
  pose proof (runLen_le terminal (skipn (runLen plain l) l)) as H.
  rewrite length_skipn in H. pose proof (runLen_le plain l). lia.
Qed.

(** the text behind the last terminal character takes no part in the
    scan for sentences *)
Lemma hits_sentence_app tail : unterminated tail = true ->
  forall head skip pv i,
    skip <= length head ->
    hits (scan ClarityRules.re_sentence skip pv i (head ++ tail))
    = hits (scan ClarityRules.re_sentence skip pv i head).
Proof.
  intros Ht; induction head as [|c h IH]; intros skip pv i Hs.
  - simpl in Hs. assert (skip = 0) as -> by lia. simpl app.
    rewrite (ReFacts.scan_silent _ _ _ _ (silent_unterminated _ pv i Ht)).
    rewrite ReFacts.hits_plain.
    cbn [scan]. now rewrite match_at_sentence.
  - destruct skip as [|n].
    + cbn [scan app]. rewrite !match_at_sentence.
      change (c :: h ++ tail) with ((c :: h) ++ tail).
      rewrite (sentenceLen_app _ _ Ht).
      destruct (sentenceLen (c :: h)) as [n|] eqn:Hn.
      * apply sentenceLen_bound in Hn.
        rewrite firstn_app.
        replace (n - length (c :: h)) with 0 by lia.
        rewrite firstn_O, app_nil_r.
        cbn [matched]. rewrite length_firstn.
        replace (Nat.min n (length (c :: h))) with n by lia.
        destruct n as [|n']; [lia | ].
        cbn [hits flat_map app]. f_equal.
        apply IH. simpl in Hn. lia.
      * cbn [hits flat_map app]. apply IH. lia.
    + cbn [scan app]. apply IH. simpl in Hs. lia.
Qed.

Lemma matchAll_sentence_app head tail :
  unterminated tail = true ->
  matchAll ClarityRules.re_sentence (head ++ tail)
  = matchAll ClarityRules.re_sentence head.
Proof.
  intros Ht; unfold matchAll. f_equal.
  apply hits_sentence_app; [assumption | lia].
Qed.

Lemma splitIntoSentences_eq text e :
  splitIntoSentences text e
  = forEach splitSentence [] (matchAll ClarityRules.re_sentence text) e.
Proof. destruct text; reflexivity. Qed.

Lemma splitIntoSentences_app head tail e :
  unterminated tail = true ->
  splitIntoSentences (head ++ tail) e = splitIntoSentences head e.
Proof.
  intros Ht. now rewrite !splitIntoSentences_eq, matchAll_sentence_app.
Qed.

Lemma splitIntoSentences_unterminated text e :
  unterminated text = true -> splitIntoSentences text e = ([], e).
Proof.
  intros H. now rewrite splitIntoSentences_eq, (no_sentence _ H).
Qed.

(** *** The sections of a processed document *)

Lemma sectionStart_section s e : fst (fst (sectionStart s e)) = s.
Proof.
  unfold sectionStart, bind, ret.
  destruct (splitIntoSentences (content s) e) as [sentences e1].
  now destruct (mapSentences sentences e1).
Qed.

Lemma sectionStart_unterminated s e :
  unterminated (content s) = true -> snd (fst (sectionStart s e)) = [].
Proof.
  intros H; unfold sectionStart, bind, ret.
  now rewrite (splitIntoSentences_unterminated _ e H).
Qed.

Lemma startAll_emptyHanded ss : forall e,
  Forall emptyHanded (fst (startAll ss e)).
Proof.
  induction ss as [|s ss IH]; intros e; simpl.
  - constructor.
  - unfold bind, ret.
    destruct (sectionStart s e) as [p e1] eqn:Hp.
    specialize (IH e1). destruct (startAll ss e1) as [ps e2].
    simpl in *. constructor; [ | exact IH].
    intros H.
    pose proof (sectionStart_section s e) as Hs.
    pose proof (sectionStart_unterminated s e) as Hu.
    rewrite Hp in Hs, Hu. simpl in Hs, Hu.
    apply Hu. now rewrite <- Hs.
Qed.

Lemma sectionFinish_emptied p e :
  emptyHanded p -> emptied (fst (sectionFinish p e)).
Proof.
  destruct p as [s es]; unfold emptyHanded, emptied, sectionFinish.
  simpl. intros H Hu. now rewrite (H Hu).
Qed.

Lemma finishAll_emptied suspended : Forall emptyHanded suspended ->
  forall order e,
    Forall (fun r => emptied (snd r)) (fst (finishAll suspended order e)).
Proof.
  intros Hs; induction order as [|i order IH]; intros e; simpl.
  - constructor.
  - destruct (nth_error suspended i) as [p|] eqn:Hi; [ | apply IH].
    unfold bind, ret.
    pose proof (@sectionFinish_emptied p e) as Hp.
    destruct (sectionFinish p e) as [s e1].
    specialize (IH e1). destruct (finishAll suspended order e1) as [rs e2].
    simpl in *. constructor; [ | exact IH].
    apply Hp. rewrite Forall_forall in Hs. apply Hs.
    eapply nth_error_In; eassumption.
Qed.

Lemma resultAt_In i rs s : In s (resultAt i rs) -> In s (map snd rs).
Proof.
  induction rs as [|[j t] rs IH]; simpl; [tauto | ].
  destruct (i =? j); simpl; [ | auto].
  intros [H | []]; auto.
Qed.

Lemma processSections_emptied ss e s :
  In s (fst (processSections ss e)) -> emptied s.
Proof.
  unfold processSections, processSectionsIn, bind, ret.
  pose proof (startAll_emptyHanded ss e) as Hs.
  destruct (startAll ss e) as [suspended e1]. simpl in Hs.
  pose proof (finishAll_emptied Hs (resumeOrder suspended) e1) as Hr.
  destruct (finishAll suspended (resumeOrder suspended) e1) as [rs e2].
  simpl in *. intros H.
  apply in_flat_map in H. destruct H as [i [_ H]].
  apply resultAt_In, in_map_iff in H. destruct H as [r [<- H]].
  rewrite Forall_forall in Hr. now apply Hr.
Qed.

Lemma sectionStart_app s head tail e :
  content s = head ++ tail ->
  unterminated tail = true ->
  let s' := mkSection (title s) head (original s) (edited s) (changes s) in
  snd (fst (sectionStart s e)) = snd (fst (sectionStart s' e))
  /\ snd (sectionStart s e) = snd (sectionStart s' e).
Proof.
  intros Hc Ht; cbv zeta; unfold sectionStart, bind, ret.
  rewrite Hc, (splitIntoSentences_app _ _ e Ht). cbn [content].
  destruct (splitIntoSentences head e) as [sentences e1].
  now destruct (mapSentences sentences e1).
Qed.

End SplitFacts.

Module SingleSection.

Import DocumentProcessor.

Lemma processSections_one s e :
  processSections [s] e
  = (let (p, e1) := sectionStart s e in
     let (r, e2) := sectionFinish p e1 in
     ([r], e2)).
Proof.
  unfold processSections, processSectionsIn, bind, ret; cbn [startAll];
    unfold bind, ret.
  destruct (sectionStart s e) as [p e1].
  unfold resumeOrder; simpl.
  destruct (settledAtOnce p); simpl; unfold bind, ret;
    destruct (sectionFinish p e1) as [r e2]; reflexivity.
Qed.

(** the edited text and the Change records of the only section *)
Lemma processDocument_single text type e :
  type <> full_paper ->
  let s := mkSection (L "Content") text None None None in
  let start := sectionStart s (mkEngines [] [] []) in
  map edited (doc_sections (fst (processDocument text type e)))
  = [ Some (Str.join (L " ") (snd (fst start))) ]
  /\ doc_changes (fst (processDocument text type e))
     = clarityRules (snd start) ++ styleRules (snd start)
       ++ structureRules (snd start).
Proof.
  intros Ht; cbv zeta.
  unfold processDocument, bind, ret, clearAllChanges.
  assert (DocType_eqb type full_paper = false) as ->
      by (destruct type; try reflexivity; congruence).
  rewrite processSections_one.
  destruct (sectionStart _ _) as [[s0 es] e1].
  unfold sectionFinish, bind, ret.
  unfold collectChanges, clearAllChanges. simpl.
  now rewrite app_nil_r.
Qed.

End SingleSection.

(** C4. For every document, a section of the result whose content holds
    none of the characters [.], [!], [?] has the empty string as its edited
    text. The text behind the last terminal character of a section is
    dropped in the same way: a section (and, when the document is not a
    full paper, the whole document) is edited exactly as it would be if
    that trailing text were not there, with the same edited sentences and
    the same Change records. *)
Theorem unterminated_text_dropped :
  (forall text type e s,
      In s (doc_sections (fst (DocumentProcessor.processDocument text type e))) ->
      Sentences.unterminated (content s) = true ->
      edited s = Some [])
  /\ (forall s head tail e,
         content s = head ++ tail ->
         Sentences.unterminated tail = true ->
         let s' := mkSection (title s) head (original s) (edited s) (changes s) in
         snd (fst (DocumentProcessor.sectionStart s e))
         = snd (fst (DocumentProcessor.sectionStart s' e))
         /\ snd (DocumentProcessor.sectionStart s e)
            = snd (DocumentProcessor.sectionStart s' e))
  /\ (forall head tail type e,
         type <> full_paper ->
         Sentences.unterminated tail = true ->
         let whole := fst (DocumentProcessor.processDocument (head ++ tail) type e) in
         let short := fst (DocumentProcessor.processDocument head type e) in
         map edited (doc_sections whole) = map edited (doc_sections short)
         /\ doc_changes whole = doc_changes short).
Proof.
  split; [ | split].
  - intros text type e s Hin.
    unfold DocumentProcessor.processDocument, bind, ret in Hin.
    destruct (DocumentProcessor.clearAllChanges e) as [u e0].
    destruct (DocumentProcessor.processSections _ e0) as [processed e1] eqn:Hp.
    simpl in Hin.
    eapply SplitFacts.processSections_emptied.
    rewrite Hp. exact Hin.
  - intros s head tail e. apply SplitFacts.sectionStart_app.
  - intros head tail type e Ht Hu; cbv zeta.
    destruct (SingleSection.processDocument_single (head ++ tail) e Ht) as [-> ->].
    destruct (SingleSection.processDocument_single head e Ht) as [-> ->].
    destruct (@SplitFacts.sectionStart_app
                (mkSection (L "Content") (head ++ tail) None None None)
                head tail (mkEngines [] [] []) eq_refl Hu) as [H1 H2].
    cbn [title original edited changes] in H1, H2.
    now rewrite H1, H2.
Qed.

Lemma unterminated_text_dropped_witness :
  let text := L "Done. and some more words" in
  let doc := fst (DocumentProcessor.processDocument text section_doc
                    DocumentProcessor.newEngines) in
  (forall s, In s (doc_sections
                     (fst (DocumentProcessor.processDocument
                             (L "no full stop here") section_doc
                             DocumentProcessor.newEngines))) ->
             edited s = Some [])
  /\ map edited (doc_sections doc) = [Some (L "Done.")].
Proof.
  split.
  - intros s Hs.
    apply (proj1 unterminated_text_dropped _ _ _ s Hs).
    destruct Hs as [<- | []]. reflexivity.
  - change (L "Done. and some more words")
      with (L "Done." ++ L " and some more words").
    rewrite (proj1 (proj2 (proj2 unterminated_text_dropped)
                      (L "Done.") (L " and some more words") section_doc
                      DocumentProcessor.newEngines
                      ltac:(discriminate) eq_refl)).
    reflexivity.
Defined.

(** ** validateAbstract on a long abstract *)

Module AbstractFacts.

Import StructureRules Abstracts.

Lemma neutralize_neutral text : neutral text = true -> neutralize text = text.
Proof.
  unfold neutral, neutralize.
  intros [[H1 H2]%andb_prop H3]%andb_prop.
  apply negb_true_iff in H1, H2, H3.
  now rewrite (ReFacts.replaceAll_absent _ _ _ H1),
    (ReFacts.replaceAll_absent _ _ _ H2), (ReFacts.replaceAll_absent _ _ _ H3).
Qed.


End AbstractFacts.

(** ** What a match consumes *)

Module Consume.

Import Re Scan RepFacts.

Lemma capsLen_app a b : capsLen (a ++ b) = capsLen a + capsLen b.
Proof. induction a as [|[n s] a IH]; simpl; [reflexivity | rewrite IH; lia]. Qed.

Lemma rep_consumes g p k : forall l min pv i cs res,
  rep g p k min pv i cs l = Some res ->
  exists n, min <= n <= length l /\ k (advance n pv i l cs) = Some res.
Proof.
  induction l as [|c l IH]; intros min pv i cs res H; simpl in H.
  - destruct min; [ | discriminate]. exists 0. simpl. auto.
  - assert (Hhere :
             match min with 0 => k (MState pv i (c :: l) cs) | S _ => None end
             = Some res ->
             exists n, min <= n <= length (c :: l)
                       /\ k (advance n pv i (c :: l) cs) = Some res).
    { destruct min; [ | discriminate]. intros Hk. exists 0. simpl.
      split; [lia | exact Hk]. }
    assert (Hmore :
             rep g p k (Nat.pred min) (Some c) (S i) cs l = Some res ->
             exists n, min <= n <= length (c :: l)
                       /\ k (advance n pv i (c :: l) cs) = Some res).
    { intros Hr. apply IH in Hr. destruct Hr as (n & Hn & Hk).
      exists (S n). simpl. split; [lia | exact Hk]. }
    destruct (p c); [ | now apply Hhere].
    destruct g; unfold orElse in H.
    + destruct (rep true p k (Nat.pred min) (Some c) (S i) cs l);
        [apply Hmore | apply Hhere]; exact H.
    + destruct (match min with 0 => k (MState pv i (c :: l) cs) | S _ => None end);
        [apply Hhere | apply Hmore]; exact H.
Qed.

Lemma nogroups_flat r : groupsOf r = [] -> flat r = true.
Proof.
  induction r; simpl; try reflexivity.
  - intros [Ha Hb]%app_eq_nil. now rewrite IHr1, IHr2.
  - intros [Ha Hb]%app_eq_nil. now rewrite IHr1, IHr2.
  - discriminate.
Qed.

Ltac reach_done :=
  repeat split; simpl; auto;
  try (intros ? []); try apply incl_refl; try lia.

Lemma run_consumes r : flat r = true ->
  forall k st res,
    run r k st = Some res ->
    exists st1, k st1 = Some res /\ reaches r (weight r) st st1.
Proof.
  induction r as [ | p | a IHa b IHb | a IHa b IHb | g min p | n r IH | | | ];
    intros Hflat k st res H; simpl in H.
  - exists st. split; [exact H | ]. exists []. reach_done.
  - destruct (rest st) as [|c l'] eqn:Hrest; [discriminate | ].
    destruct (p c); [ | discriminate].
    eexists. split; [exact H | ]. exists []. rewrite Hrest. reach_done.
  - simpl in Hflat. apply andb_prop in Hflat. destruct Hflat as [Fa Fb].
    apply (IHa Fa) in H. destruct H as (st1 & H & (n1 & C1 & I1 & P1 & R1)).
    apply (IHb Fb) in H. destruct H as (st2 & H & (n2 & C2 & I2 & P2 & R2)).
    exists st2. split; [exact H | ]. exists (n2 ++ n1).
    rewrite C2, C1, app_assoc, capsLen_app, map_app. simpl.
    repeat split; try lia.
    apply incl_app; [now apply incl_appr | now apply incl_appl].
  - simpl in Hflat. apply andb_prop in Hflat. destruct Hflat as [Fa Fb].
    unfold orElse in H.
    destruct (run a k st) eqn:E.
    + rewrite <- E in H. apply (IHa Fa) in H.
      destruct H as (st1 & H & (n1 & C1 & I1 & P1 & R1)).
      exists st1. split; [exact H | ]. exists n1. simpl.
      repeat split; auto; [now apply incl_appl | lia].
    + apply (IHb Fb) in H.
      destruct H as (st1 & H & (n1 & C1 & I1 & P1 & R1)).
      exists st1. split; [exact H | ]. exists n1. simpl.
      repeat split; auto; [now apply incl_appr | lia].
  - apply rep_consumes in H. destruct H as (m & Hm & H).
    eexists. split; [exact H | ]. exists [].
    rewrite advance_caps, advance_rest, length_skipn.
    rewrite advance_pos by lia. reach_done.
  - simpl in Hflat.
    destruct (groupsOf r) eqn:Hg; [ | discriminate].
    apply (IH (nogroups_flat _ Hg)) in H.
    destruct H as (st1 & H & (n1 & C1 & I1 & P1 & R1)).
    assert (n1 = []) as ->.
    { destruct n1 as [|x n1]; [reflexivity | ].
      exfalso. rewrite Hg in I1. apply (I1 (fst x)). now left. }
    eexists. split; [exact H | ].
    exists [(n, firstn (pos st1 - pos st) (rest st))]. simpl in *.
    rewrite C1. repeat split.
    + intros x [<- | []]. now left.
    + pose proof (firstn_le_length (pos st1 - pos st) (rest st)). lia.
    + exact R1.
  - destruct (pos st =? 0); [ | discriminate].
    exists st. split; [exact H | ]. exists []. reach_done.
  - destruct (rest st) eqn:Hrest; [ | discriminate].
    exists st. split; [exact H | ]. exists []. reach_done.
  - destruct (xorb _ _); [ | discriminate].
    exists st. split; [exact H | ]. exists []. reach_done.
Qed.

(** a match is a prefix of the input at its position, at least as long as
    the weight of the expression and its captures together *)
Lemma match_at_consumes r pv i l f :
  flat r = true ->
  match_at r pv i l = Some f ->
  matched f = firstn (length (matched f)) l
  /\ weight r + capsLen (groups f) <= length (matched f).
Proof.
  intros Hflat; unfold match_at.
  destruct (run r (fun st => Some st) (MState pv i l [])) as [st|] eqn:E;
    [ | discriminate].
  intros [= <-].
  apply (run_consumes r Hflat) in E.
  destruct E as (st1 & [= ->] & (new & C & I & P & R)).
  simpl in *. rewrite app_nil_r in C. subst new.
  assert (Hlen : length (firstn (pos st - i) l) = pos st - i)
    by (rewrite length_firstn; lia).
  rewrite Hlen. split; [reflexivity | lia].
Qed.

Lemma match_at_prefix r pv i l f :
  match_at r pv i l = Some f ->
  matched f = firstn (length (matched f)) l.
Proof.
  unfold match_at.
  destruct (run r (fun st => Some st) (MState pv i l [])) as [st|];
    [ | discriminate].
  intros [= <-]. simpl.
  rewrite length_firstn.
  destruct (Nat.le_ge_cases (pos st - i) (length l)) as [H | H].
  - now rewrite Nat.min_l.
  - rewrite Nat.min_r by assumption.
    now rewrite !firstn_all2.
Qed.

End Consume.

(** ** Substitutions that never lengthen the text *)

Module Contract.

Import Re Scan Consume.

Lemma contracting_nonexpanding r g : contracting (r, g) -> nonexpanding r g.
Proof.
  intros H pv i l f Hm. destruct (H pv i l f Hm) as [E | E]; simpl in E.
  - rewrite E. lia.
  - lia.
Qed.

Lemma render_hit g f ts : render g (Hit f :: ts) = g f ++ render g ts.
Proof. reflexivity. Qed.

Lemma render_plain_cons g c ts : render g (Plain c :: ts) = c :: render g ts.
Proof. reflexivity. Qed.

Lemma matched_cons r pv i c l f n :
  match_at r pv i (c :: l) = Some f ->
  length (matched f) = S n ->
  matched f = c :: firstn n l /\ n <= length l.
Proof.
  intros Hm Hn. pose proof (match_at_prefix _ _ _ _ Hm) as Hp.
  rewrite Hn in Hp. simpl in Hp. split; [exact Hp | ].
  rewrite Hp in Hn. simpl in Hn. rewrite length_firstn in Hn. lia.
Qed.

Lemma matched_nil r pv i f : match_at r pv i [] = Some f -> matched f = [].
Proof.
  intros Hm. pose proof (match_at_prefix _ _ _ _ Hm) as Hp.
  now rewrite firstn_nil in Hp.
Qed.

Lemma render_scan_contracting r g : contracting (r, g) ->
  forall l skip pv i,
    skip <= length l ->
    render g (scan r skip pv i l) = skipn skip l
    \/ length (render g (scan r skip pv i l)) + skip < length l.
Proof.
  intros Hc; induction l as [|c l IH]; intros skip pv i Hs.
  - simpl in Hs. assert (skip = 0) as -> by lia. cbn [scan].
    destruct (match_at r pv i []) as [f|] eqn:Hm; [ | now left].
    left. rewrite render_hit. simpl. rewrite app_nil_r.
    pose proof (matched_nil _ _ _ Hm) as Hn.
    destruct (Hc pv i [] f Hm) as [E | E]; simpl in E; rewrite Hn in E.
    + exact E.
    + simpl in E. lia.
  - destruct skip as [|n].
    + cbn [scan skipn].
      destruct (match_at r pv i (c :: l)) as [f|] eqn:Hm.
      * rewrite render_hit.
        destruct (length (matched f)) as [|n] eqn:Hn.
        -- rewrite render_plain_cons.
           assert (Hg : g f = []).
           { destruct (Hc pv i _ f Hm) as [E | E]; simpl in E.
             - rewrite E. now apply length_zero_iff_nil.
             - lia. }
           rewrite Hg. simpl.
           destruct (IH 0 (Some c) (S i)) as [E | E]; [lia | | ].
           ++ left. now rewrite E.
           ++ right. simpl. lia.
        -- destruct (matched_cons _ _ _ _ _ Hm Hn) as [Hf Hle].
           specialize (IH n (Some c) (S i) Hle).
           assert (Hr : length (render g (scan r n (Some c) (S i) l)) + n
                        <= length l).
           { destruct IH as [E | E]; [ | lia].
             rewrite E, length_skipn. lia. }
           rewrite length_app.
           destruct (Hc pv i _ f Hm) as [E | E]; simpl in E.
           ++ destruct IH as [E' | E'].
              ** left. rewrite E, E', Hf. simpl. f_equal.
                 apply firstn_skipn.
              ** right. rewrite E, Hn. simpl. lia.
           ++ right. rewrite Hn in E. simpl. lia.
      * rewrite render_plain_cons.
        destruct (IH 0 (Some c) (S i)) as [E | E]; [lia | | ].
        -- left. now rewrite E.
        -- right. simpl. lia.
    + cbn [scan skipn]. simpl in Hs.
      destruct (IH n (Some c) (S i)) as [E | E]; [lia | now left | ].
      right. simpl. lia.
Qed.

(** a contracting substitution leaves the text as it is or makes it
    shorter *)
Lemma replaceAll_contracting r g s :
  contracting (r, g) ->
  replaceAll r g s = s \/ length (replaceAll r g s) < length s.
Proof.
  intros Hc; unfold replaceAll.
  destruct (render_scan_contracting Hc s (skip := 0) None 0) as [E | E];
    [lia | now left | right; lia].
Qed.

Lemma render_scan_nonexpanding r g : nonexpanding r g ->
  forall l skip pv i,
    skip <= length l ->
    length (render g (scan r skip pv i l)) + skip <= length l.
Proof.
  intros Hc; induction l as [|c l IH]; intros skip pv i Hs.
  - simpl in Hs. assert (skip = 0) as -> by lia. cbn [scan].
    destruct (match_at r pv i []) as [f|] eqn:Hm; [ | simpl; lia].
    rewrite render_hit. simpl. rewrite app_nil_r.
    pose proof (Hc _ _ _ _ Hm) as E.
    rewrite (matched_nil _ _ _ Hm) in E. simpl in E. lia.
  - destruct skip as [|n].
    + cbn [scan].
      destruct (match_at r pv i (c :: l)) as [f|] eqn:Hm.
      * rewrite render_hit, length_app.
        pose proof (Hc _ _ _ _ Hm) as E.
        destruct (length (matched f)) as [|n] eqn:Hn.
        -- rewrite render_plain_cons. simpl.
           specialize (IH 0 (Some c) (S i)). lia.
        -- destruct (matched_cons _ _ _ _ _ Hm Hn) as [Hf Hle].
           specialize (IH n (Some c) (S i) Hle). simpl. lia.
      * rewrite render_plain_cons. simpl.
        specialize (IH 0 (Some c) (S i)). lia.
    + cbn [scan]. simpl in *. specialize (IH n (Some c) (S i)). lia.
Qed.

Lemma replaceAll_nonexpanding r g s :
  nonexpanding r g -> length (replaceAll r g s) <= length s.
Proof.
  intros Hc; unfold replaceAll.
  pose proof (render_scan_nonexpanding Hc s (skip := 0) None 0). lia.
Qed.

Lemma render_scan1_nonexpanding r g : nonexpanding r g ->
  forall l pv i, length (render g (scan1 r pv i l)) <= length l.
Proof.
  intros Hc; induction l as [|c l IH]; intros pv i; cbn [scan1].
  - destruct (match_at r pv i []) as [f|] eqn:Hm; [ | simpl; lia].
    rewrite render_hit, length_app, ReFacts.render_plain, length_skipn.
    pose proof (Hc _ _ _ _ Hm) as E.
    rewrite (matched_nil _ _ _ Hm) in *. simpl in *. lia.
  - destruct (match_at r pv i (c :: l)) as [f|] eqn:Hm.
    + rewrite render_hit, length_app, ReFacts.render_plain, length_skipn.
      pose proof (Hc _ _ _ _ Hm) as E.
      pose proof (match_at_prefix _ _ _ _ Hm) as Hp.
      assert (length (matched f) <= length (c :: l)).
      { rewrite Hp at 1. rewrite length_firstn. lia. }
      lia.
    + rewrite render_plain_cons. simpl. specialize (IH (Some c) (S i)). lia.
Qed.

Lemma replaceFirst_nonexpanding r g s :
  nonexpanding r g -> length (replaceFirst r g s) <= length s.
Proof. intros Hc. now apply render_scan1_nonexpanding. Qed.

(** the loop of contracting substitutions: the flag tells whether the
    text got shorter *)
Lemma fold_contracting rules : Forall contracting rules ->
  forall text result flag,
    length result <= length text ->
    (flag = true -> length result < length text) ->
    (flag = false -> result = text) ->
    let out := fold_left rewriteStep rules (result, flag) in
    if snd out then length (fst out) < length text else fst out = text.
Proof.
  induction 1 as [|[r g] rules Hr _ IH]; intros text result flag Hle Ht Hf.
  - simpl. destruct flag; auto.
  - cbn [fold_left rewriteStep fst snd].
    apply IH.
    + pose proof (replaceAll_nonexpanding result (contracting_nonexpanding Hr)).
      lia.
    + intros Hflag.
      destruct (replaceAll_contracting result Hr) as [E | E].
      * rewrite E in *. rewrite str_eqb_refl in Hflag. simpl in Hflag.
        rewrite orb_false_r in Hflag. auto.
      * lia.
    + intros Hflag. apply orb_false_elim in Hflag. destruct Hflag as [-> Hn].
      apply negb_false_iff, str_eqb_eq in Hn. rewrite <- Hn. now apply Hf.
Qed.

Lemma rewriteEach_contracting rules text :
  Forall contracting rules ->
  let out := rewriteEach rules text in
  if snd out then length (fst out) < length text else fst out = text.
Proof.
  intros H. unfold rewriteEach.
  apply fold_contracting; auto; [discriminate].
Qed.

End Contract.

(** ** The rules of the engines are contracting *)

Module RuleFacts.

Import Re Scan Changes Consume Contract.

Lemma capSum_skip m s cs ks :
  ~ In m ks -> capSum ((m, s) :: cs) ks = capSum cs ks.
Proof.
  induction ks as [|k ks IH]; simpl; [reflexivity | ].
  intros H. destruct (k =? m) eqn:E.
  - apply Nat.eqb_eq in E. exfalso. apply H. now left.
  - rewrite IH; [reflexivity | ]. intros Hin. apply H. now right.
Qed.

Lemma capSum_cons m s cs ks :
  NoDup ks -> capSum ((m, s) :: cs) ks <= length s + capSum cs ks.
Proof.
  induction 1 as [|k ks Hk Hnd IH]; simpl; [lia | ].
  destruct (k =? m) eqn:E.
  - apply Nat.eqb_eq in E. subst m. rewrite capSum_skip by assumption. lia.
  - lia.
Qed.

Lemma capSum_le cs ks : NoDup ks -> capSum cs ks <= capsLen cs.
Proof.
  intros Hnd; induction cs as [|[m s] cs IH]; simpl.
  - induction ks; simpl; [lia | ].
    apply NoDup_cons_iff in Hnd. destruct Hnd as [_ Hnd].
    specialize (IHks Hnd). lia.
  - pose proof (capSum_cons m s cs Hnd). lia.
Qed.

Lemma contracting_weight r g c ks :
  flat r = true -> NoDup ks -> (c <? weight r) = true -> bounded g c ks ->
  contracting (r, g).
Proof.
  intros Hflat Hnd Hw Hb pv i l f Hm. right. simpl in *.
  apply Nat.ltb_lt in Hw.
  destruct (match_at_consumes _ _ _ _ Hflat Hm) as [_ Hlen].
  pose proof (Hb f). pose proof (capSum_le (groups f) Hnd). lia.
Qed.

Lemma nonexpanding_weight r g c ks :
  flat r = true -> NoDup ks -> (c <=? weight r) = true -> bounded g c ks ->
  nonexpanding r g.
Proof.
  intros Hflat Hnd Hw Hb pv i l f Hm.
  apply Nat.leb_le in Hw.
  destruct (match_at_consumes _ _ _ _ Hflat Hm) as [_ Hlen].
  pose proof (Hb f). pose proof (capSum_le (groups f) Hnd). lia.
Qed.

Lemma bounded_const v : bounded (fun _ => v) (length v) [].
Proof. intros f. simpl. lia. Qed.

(** *** Dictionaries *)

Lemma dictRules_contracting d :
  forallb shorter d = true -> Forall contracting (dictRules d).
Proof.
  unfold dictRules; induction d as [|e d IH]; simpl; [constructor | ].
  intros [[Hf Hw]%andb_prop Hd]%andb_prop.
  constructor; [ | now apply IH].
  eapply contracting_weight; eauto using bounded_const. constructor.
Qed.

(** *** The length of the pieces of a replacement *)

Lemma dropEnd_le n s : length (Str.dropEnd n s) <= length s.
Proof. unfold Str.dropEnd. rewrite length_firstn. lia. Qed.

Lemma lastChar_le s : length (Str.lastChar s) <= 1.
Proof. unfold Str.lastChar. rewrite length_skipn. lia. Qed.

Lemma capitalize_length s : length (Str.capitalize s) = length s.
Proof. now destruct s. Qed.

Lemma trimStart_le s : length (Str.trimStart s) <= length s.
Proof.
  induction s as [|c s IH]; simpl; [lia | ].
  destruct (Chr.is_space c); simpl; lia.
Qed.

Lemma trim_le s : length (Str.trim s) <= length s.
Proof.
  unfold Str.trim, Str.trimEnd. rewrite length_rev.
  pose proof (trimStart_le (rev (Str.trimStart s))) as H.
  rewrite length_rev in H. pose proof (trimStart_le s). lia.
Qed.

Lemma startsWith_length p s :
  Str.startsWith p s = true -> length p <= length s.
Proof.
  revert s; induction p as [|a p IH]; intros [|b s]; simpl;
    try lia; try discriminate.
  intros [_ H]%andb_prop. apply IH in H. lia.
Qed.

Lemma endsWith_length p s :
  Str.endsWith p s = true -> length p <= length s.
Proof.
  unfold Str.endsWith. intros H%startsWith_length.
  now rewrite !length_rev in H.
Qed.

Lemma dictGet_le d key v :
  forallb (fun e => length (L (snd e)) <=? S (length (L (fst e)))) d = true ->
  ClarityRules.dictGet d key = Some v ->
  length v <= S (length key).
Proof.
  induction d as [|[k w] d IH]; simpl; [discriminate | ].
  intros [Hk Hd]%andb_prop.
  destruct (str_eqb (L k) key) eqn:E.
  - apply str_eqb_eq in E. subst key. intros [= <-].
    now apply Nat.leb_le in Hk.
  - now apply IH.
Qed.

(** the active form is at most one character longer than the participle
    (["shown"] becomes ["showed"]) *)
Lemma getActiveVerb_le verb :
  length (ClarityRules.getActiveVerb verb) <= S (length verb).
Proof.
  unfold ClarityRules.getActiveVerb.
  destruct (ClarityRules.dictGet _ verb) as [v|] eqn:E.
  - revert E. apply dictGet_le. vm_compute. reflexivity.
  - destruct (Str.endsWith (L "ed") verb); [ | lia].
    destruct (Str.endsWith (L "ied") verb) eqn:Hied.
    + apply endsWith_length in Hied. simpl in Hied.
      rewrite length_app. unfold Str.dropEnd. rewrite length_firstn.
      simpl. lia.
    + pose proof (dropEnd_le 2 verb).
      destruct (_ || _)%bool; lia.
Qed.

End RuleFacts.

(** ** One Change per call *)

Module ChangeFacts.

Import Re Scan Changes Consume Contract RuleFacts.

Lemma snoc_neq {A} (l : list A) (x : A) : l ++ [x] <> l.
Proof.
  intros H. apply (f_equal (@length A)) in H.
  rewrite length_app in H. simpl in H. lia.
Qed.

(** *** The loops of the engines *)

Lemma scan1_first r : forall l pv i a tl,
  hits (scan1 r pv i l) = a :: tl ->
  exists pv' i' l',
    match_at r pv' i' l' = Some a /\ length l' <= length l.
Proof.
  induction l as [|c l IH]; intros pv i a tl; cbn [scan1].
  - destruct (match_at r pv i []) as [f|] eqn:Hm; [ | discriminate].
    simpl. intros [= <- _]. exists pv, i, []. auto.
  - destruct (match_at r pv i (c :: l)) as [f|] eqn:Hm.
    + simpl. intros [= <- _]. exists pv, i, (c :: l). auto.
    + simpl. intros H. apply IH in H.
      destruct H as (pv' & i' & l' & H & Hl).
      exists pv', i', l'. split; [exact H | lia].
Qed.

Lemma exec_consumes r s a :
  flat r = true ->
  exec r s = Some a ->
  weight r + capsLen (groups a) <= length s.
Proof.
  intros Hflat; unfold exec.
  destruct (hits (scan1 r None 0 s)) as [|f tl] eqn:E; [discriminate | ].
  simpl. intros [= ->].
  apply scan1_first in E. destruct E as (pv & i & l & Hm & Hl).
  destruct (match_at_consumes _ _ _ _ Hflat Hm) as [Hp Hw].
  assert (length (matched a) <= length l).
  { rewrite Hp at 1. rewrite length_firstn. lia. }
  lia.
Qed.

Lemma lookup_le k cs : length (lookup k cs) <= capsLen cs.
Proof.
  pose proof (@capSum_le cs [k]) as H. simpl in H.
  rewrite Nat.add_0_r in H. apply H. repeat constructor. intros [].
Qed.

Lemma passivePatterns_contracting :
  Forall contracting ClarityRules.passivePatterns.
Proof.
  unfold ClarityRules.passivePatterns.
  repeat (apply Forall_cons || apply Forall_nil).
  - apply contracting_weight with (c := 4) (ks := [1; 2; 3]);
      [reflexivity | | reflexivity | ].
    + repeat constructor; simpl; intuition discriminate.
    + intros f. unfold cap. simpl.
      repeat (rewrite length_app; simpl).
      pose proof (getActiveVerb_le (lookup 2 (groups f))).
      pose proof (lastChar_le (matched f)). lia.
  - intros pv i l f Hm. simpl.
    unfold ClarityRules.restructureItIs.
    destruct (exec ClarityRules.re_afterThat (matched f)) as [a|] eqn:E;
      [right | now left].
    apply exec_consumes in E; [ | reflexivity].
    rewrite capitalize_length. unfold cap.
    pose proof (lookup_le 1 (groups a)).
    change (weight ClarityRules.re_afterThat) with 5 in E. lia.
  - apply contracting_weight with (c := 2) (ks := [1; 2]);
      [reflexivity | | reflexivity | ].
    + repeat constructor; simpl; intuition discriminate.
    + intros f. unfold cap. simpl.
      repeat (rewrite length_app; simpl).
      pose proof (getActiveVerb_le (lookup 2 (groups f))). lia.
Qed.

Lemma nodup1 : NoDup [1].
Proof. repeat constructor. intros []. Qed.

Lemma futurePatterns_contracting :
  Forall contracting StyleRules.futurePatterns.
Proof.
  unfold StyleRules.futurePatterns.
  repeat (apply Forall_cons || apply Forall_nil).
  - apply contracting_weight with (c := 3) (ks := [1]);
      [reflexivity | apply nodup1 | reflexivity | ].
    intros f. unfold cap. simpl. lia.
  - apply contracting_weight with (c := 0) (ks := [1]);
      [reflexivity | apply nodup1 | reflexivity | ].
    intros f. unfold cap. simpl. lia.
  - apply contracting_weight with (c := 1) (ks := [1]);
      [reflexivity | apply nodup1 | reflexivity | ].
    intros f. unfold cap. cbv beta. cbn [capSum].
    destruct (str_eqb (lookup 1 (groups f)) (L "be")) eqn:E.
    + apply str_eqb_eq in E. rewrite E. simpl. lia.
    + destruct (Str.endsWith _ _); rewrite ?length_app; simpl; lia.
  - apply contracting_weight with (c := 0) (ks := [1]);
      [reflexivity | apply nodup1 | reflexivity | ].
    intros f. unfold cap. simpl. lia.
  - apply contracting_weight with (c := 1) (ks := [1]);
      [reflexivity | apply nodup1 | reflexivity | ].
    intros f. unfold cap. simpl. rewrite ?length_app. simpl. lia.
  - apply contracting_weight with (c := 0) (ks := [1]);
      [reflexivity | apply nodup1 | reflexivity | ].
    intros f. unfold cap. simpl. lia.
Qed.

Lemma replacements_contracting :
  Forall contracting (dictRules ClarityRules.replacements).
Proof. apply dictRules_contracting. vm_compute. reflexivity. Qed.

Lemma redundantPhrases_contracting :
  Forall contracting (dictRules StyleRules.redundantPhrases).
Proof. apply dictRules_contracting. vm_compute. reflexivity. Qed.

Lemma weakVerbs_contracting :
  Forall contracting (dictRules StyleRules.weakVerbs).
Proof. apply dictRules_contracting. vm_compute. reflexivity. Qed.

Lemma removals_contracting terms :
  forallb (fun t => flat (wholeWord t) && (0 <? weight (wholeWord t))) terms
  = true ->
  Forall contracting (removals terms).
Proof.
  unfold removals; induction terms as [|t terms IH]; simpl; [constructor | ].
  intros [[Hf Hw]%andb_prop Hd]%andb_prop.
  constructor; [ | now apply IH].
  apply contracting_weight with (c := 0) (ks := []); auto; [constructor | ].
  intros f. simpl. lia.
Qed.

Lemma forbidden_contracting :
  Forall contracting (removals StyleRules.forbidden).
Proof. apply removals_contracting. vm_compute. reflexivity. Qed.

(** *** The normalisation steps *)

Lemma collapseSpaces_le s : length (StyleRules.collapseSpaces s) <= length s.
Proof.
  apply replaceAll_nonexpanding.
  apply nonexpanding_weight with (c := 1) (ks := []);
    [reflexivity | constructor | reflexivity | ].
  intros f. simpl. lia.
Qed.

Lemma spaceBeforePunct_le s : length (StyleRules.spaceBeforePunct s) <= length s.
Proof.
  apply replaceAll_nonexpanding.
  apply nonexpanding_weight with (c := 0) (ks := [1]);
    [reflexivity | apply nodup1 | reflexivity | ].
  intros f. unfold cap. simpl. lia.
Qed.

Lemma leadingPunct_le s : length (StyleRules.leadingPunct s) <= length s.
Proof.
  apply replaceFirst_nonexpanding.
  apply nonexpanding_weight with (c := 0) (ks := []);
    [reflexivity | constructor | reflexivity | ].
  intros f. simpl. lia.
Qed.

Lemma doubledPeriod_le s : length (StyleRules.doubledPeriod s) <= length s.
Proof.
  apply replaceAll_nonexpanding.
  apply nonexpanding_weight with (c := 1) (ks := []);
    [reflexivity | constructor | reflexivity | ].
  intros f. simpl. lia.
Qed.

(** *** The shape shared by the operations *)

Lemma ruleOp_atMostOne rules norm mk text cs :
  atMostOne (ruleOp rules norm mk text) cs.
Proof.
  unfold atMostOne, appendsNone, appendsOne, ruleOp, bind, ret.
  destruct (rewriteEach rules text) as [result [|]]; simpl; eauto.
Qed.

Lemma ruleOp_shorter rules norm mk text cs :
  Forall contracting rules ->
  (forall s, length (norm s) <= length s) ->
  appendsOne (ruleOp rules norm mk text) cs ->
  length (fst (ruleOp rules norm mk text cs)) < length text.
Proof.
  intros Hc Hn. pose proof (rewriteEach_contracting text Hc) as H.
  unfold appendsOne, ruleOp, bind, ret. cbv zeta in H.
  destruct (rewriteEach rules text) as [result [|]]; simpl in *.
  - intros _. pose proof (Hn result). lia.
  - intros [c Hcs]. symmetry in Hcs. now apply snoc_neq in Hcs.
Qed.

Lemma ruleOp_changed rules norm mk text cs :
  Forall contracting rules ->
  (forall s, length (norm s) <= length s) ->
  appendsOne (ruleOp rules norm mk text) cs ->
  fst (ruleOp rules norm mk text cs) <> text.
Proof.
  intros Hc Hn H E.
  pose proof (@ruleOp_shorter rules norm mk text cs Hc Hn H) as Hlt.
  rewrite E in Hlt. lia.
Qed.

(** without a final touch the text differs exactly when a Change is
    appended *)
Lemma ruleOp_iff rules mk text cs :
  Forall contracting rules ->
  fst (ruleOp rules (fun s => s) mk text cs) <> text
  <-> appendsOne (ruleOp rules (fun s => s) mk text) cs.
Proof.
  intros Hc; split.
  - pose proof (rewriteEach_contracting text Hc) as H.
    unfold appendsOne, ruleOp, bind, ret. cbv zeta in H.
    destruct (rewriteEach rules text) as [result [|]]; simpl in *.
    + intros _. eauto.
    + intros Hne. now elim Hne.
  - apply ruleOp_changed; auto.
Qed.

(** *** The operations *)

Lemma fixPassiveVoice_ruleOp sentence :
  ClarityRules.fixPassiveVoice sentence
  = ruleOp ClarityRules.passivePatterns (fun s => s)
      (fun result =>
         mkChange (L "Passive Voice") clarity sentence result
           (L "Converted passive voice to active voice for clearer, more direct writing"))
      sentence.
Proof. reflexivity. Qed.

Lemma simplifyLanguage_ruleOp text :
  ClarityRules.simplifyLanguage text
  = ruleOp (dictRules ClarityRules.replacements) (fun s => s)
      (fun result =>
         mkChange (L "Simplified Language") vocabulary text result
           (L "Replaced elaborate vocabulary with simpler alternatives"))
      text.
Proof. reflexivity. Qed.

Lemma fixTense_ruleOp text :
  StyleRules.fixTense text
  = ruleOp StyleRules.futurePatterns (fun s => s)
      (fun result =>
         mkChange (L "Tense Correction") style text result
           (L "Converted future tense to present tense for academic writing"))
      text.
Proof. reflexivity. Qed.

Lemma removeRedundancy_ruleOp text :
  StyleRules.removeRedundancy text
  = ruleOp (dictRules StyleRules.redundantPhrases) (fun s => s)
      (fun result =>
         mkChange (L "Redundancy Removed") style text result
           (L "Eliminated redundant phrases for concise writing"))
      text.
Proof. reflexivity. Qed.

Lemma cleanVocabulary_ruleOp text :
  StyleRules.cleanVocabulary text
  = ruleOp (removals StyleRules.forbidden)
      (fun s => StyleRules.doubledPeriod
                  (StyleRules.leadingPunct
                     (StyleRules.spaceBeforePunct (StyleRules.collapseSpaces s))))
      (fun result =>
         mkChange (L "Forbidden Vocabulary") vocabulary text result
           (L "Removed forbidden academic jargon and redundant phrases"))
      text.
Proof. reflexivity. Qed.

Lemma enforceActiveWriting_ruleOp text :
  StyleRules.enforceActiveWriting text
  = ruleOp (dictRules StyleRules.weakVerbs)
      (fun s => Str.trim (StyleRules.collapseSpaces s))
      (fun result =>
         mkChange (L "Active Writing") style text result
           (L "Replaced weak verb constructions with strong, active alternatives"))
      text.
Proof. reflexivity. Qed.

Lemma cleanVocabulary_norm_le s :
  length (StyleRules.doubledPeriod
            (StyleRules.leadingPunct
               (StyleRules.spaceBeforePunct (StyleRules.collapseSpaces s))))
  <= length s.
Proof.
  etransitivity; [apply doubledPeriod_le | ].
  etransitivity; [apply leadingPunct_le | ].
  etransitivity; [apply spaceBeforePunct_le | apply collapseSpaces_le].
Qed.

Lemma enforceActiveWriting_norm_le s :
  length (Str.trim (StyleRules.collapseSpaces s)) <= length s.
Proof.
  etransitivity; [apply trim_le | apply collapseSpaces_le].
Qed.

Lemma removeParentheticals_atMostOne text cs :
  atMostOne (StyleRules.removeParentheticals text) cs.
Proof.
  unfold atMostOne, appendsNone, appendsOne, StyleRules.removeParentheticals,
    bind, ret.
  match goal with
  | |- context [pushIf ?flag _] => destruct flag
  end; simpl; eauto.
Qed.

Lemma separateMultipleIdeas_iff sentence cs :
  atMostOne (ClarityRules.separateMultipleIdeas sentence) cs
  /\ (fst (ClarityRules.separateMultipleIdeas sentence cs) <> [sentence]
      <-> appendsOne (ClarityRules.separateMultipleIdeas sentence) cs).
Proof.
  unfold atMostOne, appendsNone, appendsOne, ClarityRules.separateMultipleIdeas.
  destruct (ClarityRules.countClauses sentence <=? 2).
  { simpl. split; [now left | split].
    - intros H. now elim H.
    - intros [c H]. symmetry in H. now apply snoc_neq in H. }
  set (parts := filter _ _).
  destruct (1 <? length parts) eqn:Hp.
  - unfold bind, ret, push. simpl. split; [eauto | split; [eauto | ]].
    intros _ E. apply (f_equal (@length (list ascii))) in E.
    rewrite length_map in E. apply Nat.ltb_lt in Hp. simpl in E.
    clearbody parts. unfold str in *. lia.
  - simpl. split; [now left | split].
    + intros H. now elim H.
    + intros [c H]. symmetry in H. now apply snoc_neq in H.
Qed.

End ChangeFacts.

(** C2, as stated, fails in both directions. [enforceActiveWriting] trims
    its result whether or not a weak verb was replaced: on a text with a
    leading blank it returns a different text and appends no Change.
    [removeParentheticals] appends a Change whenever it finds a
    parenthetical: on [" ($&)"] the replacement pattern [$&] puts the
    parenthetical back and the text returned is the input. *)
Lemma change_iff_text_differs_fails :
  (fst (StyleRules.enforceActiveWriting (L " the results is evaluated.") [])
   <> L " the results is evaluated."
   /\ snd (StyleRules.enforceActiveWriting (L " the results is evaluated.") []) = [])
  /\ (fst (StyleRules.removeParentheticals (L " ($&)") []) = L " ($&)"
      /\ map rule (snd (StyleRules.removeParentheticals (L " ($&)") []))
         = [L "Parentheticals Removed"]).
Proof.
  split; split.
  - apply str_eqb_neq. vm_compute. reflexivity.
  - vm_compute. reflexivity.
  - vm_compute. reflexivity.
  - vm_compute. reflexivity.
Qed.

(** C2, amended. Every rule operation appends at most one Change per call.
    For [fixPassiveVoice], [simplifyLanguage], [fixTense] and
    [removeRedundancy] the text returned differs from the input if and only
    if exactly one Change is appended; for [separateMultipleIdeas] the
    result differs from the one-element list of its input if and only if
    exactly one Change is appended. For [cleanVocabulary] and
    [enforceActiveWriting] an appended Change implies that the text
    returned differs from the input (it is shorter); the converse fails,
    since they normalise white space and punctuation in any case. For
    [removeParentheticals] only the bound of one Change per call holds. *)
Theorem one_change_per_call (text : str) (cs : list Change) :
  let atMostOne := fun op : str -> Acc (list Change) str =>
                     Changes.atMostOne (op text) cs in
  let differsIffOne := fun op : str -> Acc (list Change) str =>
                         fst (op text cs) <> text
                         <-> Changes.appendsOne (op text) cs in
  let oneThenDiffers := fun op : str -> Acc (list Change) str =>
                          Changes.appendsOne (op text) cs ->
                          fst (op text cs) <> text in
  (oneThenDiffers StyleRules.cleanVocabulary
   /\ oneThenDiffers StyleRules.enforceActiveWriting)
  /\ (differsIffOne ClarityRules.fixPassiveVoice
      /\ differsIffOne ClarityRules.simplifyLanguage
      /\ differsIffOne StyleRules.fixTense
      /\ differsIffOne StyleRules.removeRedundancy)
  /\ (fst (ClarityRules.separateMultipleIdeas text cs) <> [text]
      <-> Changes.appendsOne (ClarityRules.separateMultipleIdeas text) cs)
  /\ (atMostOne ClarityRules.fixPassiveVoice
      /\ atMostOne ClarityRules.simplifyLanguage
      /\ atMostOne StyleRules.cleanVocabulary
      /\ atMostOne StyleRules.fixTense
      /\ atMostOne StyleRules.removeRedundancy
      /\ atMostOne StyleRules.enforceActiveWriting
      /\ atMostOne StyleRules.removeParentheticals
      /\ Changes.atMostOne (ClarityRules.separateMultipleIdeas text) cs).
Proof.
  cbv zeta.
  split; [split | split; [repeat split | split]].
  - rewrite ChangeFacts.cleanVocabulary_ruleOp.
    apply ChangeFacts.ruleOp_changed;
      [apply ChangeFacts.forbidden_contracting
      | apply ChangeFacts.cleanVocabulary_norm_le].
  - rewrite ChangeFacts.enforceActiveWriting_ruleOp.
    apply ChangeFacts.ruleOp_changed;
      [apply ChangeFacts.weakVerbs_contracting
      | apply ChangeFacts.enforceActiveWriting_norm_le].
  - rewrite ChangeFacts.fixPassiveVoice_ruleOp.
    apply ChangeFacts.ruleOp_iff, ChangeFacts.passivePatterns_contracting.
  - rewrite ChangeFacts.fixPassiveVoice_ruleOp.
    apply ChangeFacts.ruleOp_iff, ChangeFacts.passivePatterns_contracting.
  - rewrite ChangeFacts.simplifyLanguage_ruleOp.
    apply ChangeFacts.ruleOp_iff, ChangeFacts.replacements_contracting.
  - rewrite ChangeFacts.simplifyLanguage_ruleOp.
    apply ChangeFacts.ruleOp_iff, ChangeFacts.replacements_contracting.
  - rewrite ChangeFacts.fixTense_ruleOp.
    apply ChangeFacts.ruleOp_iff, ChangeFacts.futurePatterns_contracting.
  - rewrite ChangeFacts.fixTense_ruleOp.
    apply ChangeFacts.ruleOp_iff, ChangeFacts.futurePatterns_contracting.
  - rewrite ChangeFacts.removeRedundancy_ruleOp.
    apply ChangeFacts.ruleOp_iff, ChangeFacts.redundantPhrases_contracting.
  - rewrite ChangeFacts.removeRedundancy_ruleOp.
    apply ChangeFacts.ruleOp_iff, ChangeFacts.redundantPhrases_contracting.
  - apply ChangeFacts.separateMultipleIdeas_iff.
  - repeat split.
    + rewrite ChangeFacts.fixPassiveVoice_ruleOp. apply ChangeFacts.ruleOp_atMostOne.
    + rewrite ChangeFacts.simplifyLanguage_ruleOp. apply ChangeFacts.ruleOp_atMostOne.
    + rewrite ChangeFacts.cleanVocabulary_ruleOp. apply ChangeFacts.ruleOp_atMostOne.
    + rewrite ChangeFacts.fixTense_ruleOp. apply ChangeFacts.ruleOp_atMostOne.
    + rewrite ChangeFacts.removeRedundancy_ruleOp. apply ChangeFacts.ruleOp_atMostOne.
    + rewrite ChangeFacts.enforceActiveWriting_ruleOp. apply ChangeFacts.ruleOp_atMostOne.
    + apply ChangeFacts.removeParentheticals_atMostOne.
    + apply ChangeFacts.separateMultipleIdeas_iff.
Qed.

Lemma one_change_per_call_witness :
  let text := L "It should be noted that it works." in
  Changes.appendsOne (StyleRules.cleanVocabulary text) []
  /\ fst (StyleRules.cleanVocabulary text []) <> text.
Proof.
  cbv zeta.
  assert (H : Changes.appendsOne
                (StyleRules.cleanVocabulary (L "It should be noted that it works."))
                []).
  { eexists. vm_compute. reflexivity. }
  split; [exact H | ].
  exact (proj1 (proj1 (one_change_per_call
                         (L "It should be noted that it works.") [])) H).
Defined.

(** ** The section pipeline of processDocument *)

Module PipelineFacts.

Import DocumentProcessor Pipeline.

Lemma processDocument_eq text type e :
  processDocument text type e
  = (let (processed, e') := processSections (inputSections text type) newEngines in
     (mkProcessed type processed (flat_map changesOf processed), e')).
Proof. reflexivity. Qed.


Lemma startAll_fst ss : forall e, map fst (fst (startAll ss e)) = ss.
Proof.
  induction ss as [|s tl IH]; intros e; [reflexivity|].
  cbn [startAll]. unfold bind, ret.
  pose proof (SplitFacts.sectionStart_section s e) as H.
  destruct (sectionStart s e) as [p e1].
  specialize (IH e1). destruct (startAll tl e1) as [ps e2]. simpl in *.
  now f_equal.
Qed.

Lemma startAll_length ss e : length (fst (startAll ss e)) = length ss.
Proof. now rewrite <- (startAll_fst ss e) at 2; rewrite length_map. Qed.

Lemma combine_seq_fst {A} (l : list A) : forall k,
  map fst (combine (seq k (length l)) l) = seq k (length l).
Proof. induction l as [|x l IH]; intros k; simpl; [reflexivity | now rewrite IH]. Qed.

Lemma In_map_filter_split {A B} (f : A -> B) (P : A -> bool) (l : list A) (x : B) :
  In x (map f (filter P l) ++ map f (filter (fun y => negb (P y)) l))
  <-> In x (map f l).
Proof.
  rewrite in_app_iff, !in_map_iff. split.
  - intros [[y [E H]] | [y [E H]]]; apply filter_In in H; exists y; tauto.
  - intros [y [E H]]. destruct (P y) eqn:Py; [left | right]; exists y;
      (split; [exact E | apply filter_In; split; [exact H | now rewrite ?Py]]).
Qed.

Lemma In_resumeOrder suspended i :
  In i (resumeOrder suspended) <-> i < length suspended.
Proof.
  unfold resumeOrder. rewrite In_map_filter_split, combine_seq_fst, in_seq. lia.
Qed.

Lemma sectionFinish_eq p e :
  sectionFinish p e
  = (mkSection (title (fst p)) (content (fst p)) (Some (content (fst p)))
       (Some (Str.join (L " ") (snd p)))
       (Some (clarityRules e ++ styleRules e ++ structureRules e)),
     newEngines).
Proof. destruct p; reflexivity. Qed.

Lemma finishAll_cons suspended i tl e p :
  nth_error suspended i = Some p ->
  finishAll suspended (i :: tl) e
  = ((i, fst (sectionFinish p e)) :: fst (finishAll suspended tl newEngines),
     snd (finishAll suspended tl newEngines)).
Proof.
  intros H. cbn [finishAll]. rewrite H. unfold bind, ret.
  rewrite sectionFinish_eq. cbn [fst snd].
  now destruct (finishAll suspended tl newEngines).
Qed.

Lemma finishAll_skip suspended i tl e :
  nth_error suspended i = None ->
  finishAll suspended (i :: tl) e = finishAll suspended tl e.
Proof. intros H. cbn [finishAll]. now rewrite H. Qed.

Lemma finishAll_fst suspended : forall order e,
  Forall (fun i => i < length suspended) order ->
  map fst (fst (finishAll suspended order e)) = order.
Proof.
  induction order as [|i tl IH]; intros e Hv; [reflexivity|].
  inversion Hv as [|? ? Hi Htl]; subst.
  destruct (nth_error suspended i) as [p|] eqn:E.
  - rewrite (@finishAll_cons _ _ _ _ _ E). cbn [fst map]. now rewrite IH.
  - apply nth_error_None in E. lia.
Qed.

Lemma finishAll_finished suspended : forall order e,
  Forall (fun r => exists p, nth_error suspended (fst r) = Some p
                             /\ finished p (snd r))
         (fst (finishAll suspended order e)).
Proof.
  induction order as [|i tl IH]; intros e; [constructor|].
  destruct (nth_error suspended i) as [p|] eqn:E.
  - rewrite (@finishAll_cons _ _ _ _ _ E). cbn [fst]. constructor; [|apply IH].
    exists p. split; [exact E|]. rewrite sectionFinish_eq. now repeat split.
  - rewrite (@finishAll_skip _ _ _ _ E). apply IH.
Qed.

(** once the accumulators are empty, every later continuation collects
    nothing and leaves them empty *)
Lemma finishAll_quiet suspended : forall order,
  Forall (fun r => changesOf (snd r) = [])
         (fst (finishAll suspended order newEngines))
  /\ snd (finishAll suspended order newEngines) = newEngines.
Proof.
  induction order as [|i tl [IH1 IH2]]; [split; [constructor | reflexivity]|].
  destruct (nth_error suspended i) as [p|] eqn:E.
  - rewrite (@finishAll_cons _ _ _ _ _ E). cbn [fst snd]. split; [|exact IH2].
    constructor; [|exact IH1]. now rewrite sectionFinish_eq.
  - rewrite (@finishAll_skip _ _ _ _ E). now split.
Qed.

Lemma resultAt_first i rs :
  In i (map fst rs) -> exists s, resultAt i rs = [s] /\ In (i, s) rs.
Proof.
  induction rs as [|[j s] tl IH]; simpl; [tauto|].
  intros [E | H].
  - subst j. rewrite Nat.eqb_refl. exists s. auto.
  - destruct (i =? j) eqn:Eij.
    + apply Nat.eqb_eq in Eij. subst j. exists s. auto.
    + destruct (IH H) as [s' [E' H']]. exists s'. auto.
Qed.

Lemma flat_map_seq_Forall2 {A B} (R : A -> B -> Prop) (g : nat -> list B)
      (l : list A) : forall k,
  (forall i p, nth_error l i = Some p -> exists s, g (k + i) = [s] /\ R p s) ->
  Forall2 R l (flat_map g (seq k (length l))).
Proof.
  induction l as [|x l IH]; intros k H; [constructor|].
  cbn [length seq flat_map].
  destruct (H 0 x eq_refl) as [s [E Hs]]. rewrite Nat.add_0_r in E. rewrite E.
  cbn [app]. constructor; [exact Hs|]. apply IH. intros i p Hi.
  replace (S k + i) with (k + S i) by lia. now apply H.
Qed.

Lemma processSections_finished ss e :
  Forall2 finished (fst (startAll ss e)) (fst (processSections ss e)).
Proof.
  unfold processSections, processSectionsIn, bind, ret.
  destruct (startAll ss e) as [suspended e1]. cbn [fst].
  pose proof (finishAll_finished suspended (resumeOrder suspended) e1) as Hf.
  assert (Hv : Forall (fun i => i < length suspended) (resumeOrder suspended)).
  { apply Forall_forall. intros i. apply In_resumeOrder. }
  pose proof (@finishAll_fst _ _ e1 Hv) as Ho.
  destruct (finishAll suspended (resumeOrder suspended) e1) as [rs e2].
  cbn [fst] in *. apply flat_map_seq_Forall2. intros i p Hi. cbn [Nat.add].
  assert (Hin : In i (map fst rs)).
  { rewrite Ho. apply In_resumeOrder. apply nth_error_Some. congruence. }
  destruct (@resultAt_first _ _ Hin) as [s [E Hs]]. exists s. split; [exact E|].
  rewrite Forall_forall in Hf. destruct (Hf _ Hs) as [p' [E' F']].
  cbn [fst snd] in *. congruence.
Qed.

Lemma finished_maps ps out :
  Forall2 finished ps out ->
  map title out = map title (map fst ps)
  /\ map content out = map content (map fst ps)
  /\ map original out = map (fun s => Some (content s)) (map fst ps)
  /\ map edited out = map (fun p => Some (Str.join (L " ") (snd p))) ps.
Proof.
  induction 1 as [|p s ps out [H1 [H2 [H3 H4]]] _ [I1 [I2 [I3 I4]]]];
    [now repeat split|].
  cbn [map]. rewrite H1, H2, H3, H4, I1, I2, I3, I4. now repeat split.
Qed.

Lemma processSections_snd ss e :
  snd (processSections ss e) = match ss with [] => e | _ :: _ => newEngines end.
Proof.
  unfold processSections, processSectionsIn, bind, ret.
  pose proof (startAll_length ss e) as Hl.
  destruct (startAll ss e) as [suspended e1] eqn:Es. cbn [fst] in Hl.
  destruct ss as [|s tl].
  - simpl in Es. injection Es as <- <-. reflexivity.
  - assert (H0 : In 0 (resumeOrder suspended)).
    { apply In_resumeOrder. simpl in Hl. lia. }
    destruct (resumeOrder suspended) as [|i order] eqn:Eo; [destruct H0|].
    assert (Hi : i < length suspended).
    { apply In_resumeOrder. rewrite Eo. now left. }
    destruct (nth_error suspended i) as [p|] eqn:E;
      [|apply nth_error_None in E; lia].
    rewrite (@finishAll_cons _ _ _ _ _ E).
    destruct (finishAll_quiet suspended order) as [_ Hq].
    cbn [fst snd]. exact Hq.
Qed.

Lemma flat_map_flat_map {A B C} (f : B -> list C) (g : A -> list B) (l : list A) :
  flat_map f (flat_map g l) = flat_map (fun x => flat_map f (g x)) l.
Proof.
  induction l as [|x l IH]; [reflexivity|].
  cbn [flat_map]. now rewrite flat_map_app, IH.
Qed.

Lemma flat_map_nil {A B} (h : A -> list B) (l : list A) :
  (forall x, In x l -> h x = []) -> flat_map h l = [].
Proof.
  induction l as [|x l IH]; intros H; [reflexivity|].
  cbn [flat_map]. rewrite H by now left. apply IH. intros y Hy. apply H. now right.
Qed.

Lemma flat_map_single {A B} (h : A -> list B) (x0 : A) (l : list A) :
  (forall x, x <> x0 -> h x = []) -> In x0 l -> NoDup l ->
  flat_map h l = h x0.
Proof.
  intros Hh. induction l as [|x l IH]; intros Hin Hnd; [destruct Hin|].
  inversion Hnd as [|? ? Hx Hl]; subst. cbn [flat_map].
  destruct Hin as [E | Hin].
  - subst x. rewrite flat_map_nil; [apply app_nil_r|].
    intros y Hy. apply Hh. intros E. now subst.
  - rewrite Hh, IH; auto. intros E. now subst.
Qed.

Lemma flat_map_changes_nil rs i :
  Forall (fun r => changesOf (snd r) = []) rs ->
  flat_map changesOf (resultAt i rs) = [].
Proof.
  intros H. induction rs as [|[j s] tl IH]; [reflexivity|].
  inversion H as [|? ? H1 H2]; subst. cbn [resultAt].
  destruct (i =? j); [|auto]. cbn [flat_map]. cbn [snd] in H1.
  now rewrite H1.
Qed.

Lemma processSections_changes ss e :
  let e1 := snd (startAll ss e) in
  flat_map changesOf (fst (processSections ss e))
  = clarityRules e1 ++ styleRules e1 ++ structureRules e1
  \/ ss = [].
Proof.
  cbv zeta. destruct ss as [|s0 tl0]; [now right | left].
  unfold processSections, processSectionsIn, bind, ret.
  pose proof (startAll_length (s0 :: tl0) e) as Hl.
  destruct (startAll (s0 :: tl0) e) as [suspended e1]. cbn [fst snd] in *.
  assert (H0 : In 0 (resumeOrder suspended)).
  { apply In_resumeOrder. simpl in Hl. lia. }
  destruct (resumeOrder suspended) as [|i order] eqn:Eo; [destruct H0|].
  assert (Hi : i < length suspended).
  { apply In_resumeOrder. rewrite Eo. now left. }
  destruct (nth_error suspended i) as [p|] eqn:E;
    [|apply nth_error_None in E; lia].
  rewrite (@finishAll_cons _ _ _ _ _ E).
  destruct (finishAll_quiet suspended order) as [Hq _].
  destruct (finishAll suspended order newEngines) as [rs e2].
  cbn [fst snd] in *. rewrite flat_map_flat_map.
  rewrite (@flat_map_single _ _ _ i).
  - cbn [resultAt]. rewrite Nat.eqb_refl. cbn [flat_map].
    rewrite sectionFinish_eq. cbn [fst changesOf changes]. apply app_nil_r.
  - intros j Hj. cbn [resultAt]. destruct (j =? i) eqn:Eji.
    + apply Nat.eqb_eq in Eji. congruence.
    + now apply flat_map_changes_nil.
  - apply in_seq. lia.
  - apply seq_NoDup.
Qed.

(** *** The accumulator of the structure rules *)

Lemma keeps_ret {A} (a : A) : keepsStructure (ret a).
Proof. intros e. reflexivity. Qed.

Lemma keeps_bind {A B} (m : Acc Engines A) (f : A -> Acc Engines B) :
  keepsStructure m -> (forall a, keepsStructure (f a)) ->
  keepsStructure (bind m f).
Proof.
  intros Hm Hf e. unfold bind. specialize (Hm e).
  destruct (m e) as [a e1]. cbn [snd] in Hm. now rewrite Hf.
Qed.

Lemma keeps_onClarity {A} (m : Acc (list Change) A) : keepsStructure (onClarity m).
Proof. intros e. unfold onClarity. now destruct (m (clarityRules e)). Qed.

Lemma keeps_onStyle {A} (m : Acc (list Change) A) : keepsStructure (onStyle m).
Proof. intros e. unfold onStyle. now destruct (m (styleRules e)). Qed.

Lemma keeps_forEach {A B} (body : A -> B -> Acc Engines A) xs :
  (forall a x, keepsStructure (body a x)) ->
  forall a, keepsStructure (forEach body a xs).
Proof.
  intros Hb. induction xs as [|x xs IH]; intros a; cbn [forEach];
    [apply keeps_ret | apply keeps_bind; auto].
Qed.

Ltac keeps :=
  repeat first
    [ apply keeps_ret | apply keeps_onClarity | apply keeps_onStyle
    | apply keeps_bind; [|intros ?] ].

Lemma keeps_processSentence s : keepsStructure (processSentence s).
Proof.
  unfold processSentence. destruct (Str.trim s); [apply keeps_ret|].
  keeps. destruct (1 <? _); apply keeps_ret.
Qed.

Lemma keeps_mapSentences ss : keepsStructure (mapSentences ss).
Proof.
  induction ss as [|s tl IH]; cbn [mapSentences]; [apply keeps_ret|].
  apply keeps_bind; [apply keeps_processSentence | intros ?].
  apply keeps_bind; [exact IH | intros ?; apply keeps_ret].
Qed.

Lemma keeps_splitIntoSentences text : keepsStructure (splitIntoSentences text).
Proof.
  unfold splitIntoSentences. destruct text; [apply keeps_ret|].
  apply keeps_forEach. intros acc x. unfold splitSentence.
  destruct (25 <? _); keeps.
Qed.

Lemma keeps_startAll ss : keepsStructure (startAll ss).
Proof.
  induction ss as [|s tl IH]; cbn [startAll]; [apply keeps_ret|].
  apply keeps_bind; [|intros ?; apply keeps_bind; [exact IH | intros ?; apply keeps_ret]].
  unfold sectionStart. apply keeps_bind; [apply keeps_splitIntoSentences | intros ?].
  apply keeps_bind; [apply keeps_mapSentences | intros ?; apply keeps_ret].
Qed.

End PipelineFacts.

(** X1. The accumulators of the three engines are scoped to one call of
    [processDocument]: what they hold when the call starts has no effect on
    the result, and the call leaves all three empty. *)
Theorem processDocument_call_scoped (text : str) (type : DocType) (e : Engines) :
  DocumentProcessor.processDocument text type e
  = DocumentProcessor.processDocument text type DocumentProcessor.newEngines
  /\ snd (DocumentProcessor.processDocument text type e)
     = DocumentProcessor.newEngines.
Proof.
  split; [reflexivity|].
  rewrite PipelineFacts.processDocument_eq.
  pose proof (PipelineFacts.processSections_snd
                (Pipeline.inputSections text type) DocumentProcessor.newEngines) as H.
  destruct (DocumentProcessor.processSections _ _) as [processed e']. cbn [snd] in *.
  rewrite H. now destruct (Pipeline.inputSections text type).
Qed.

(** X2. [processDocument] returns one section per input section, in the
    order of the input: each keeps its title and content, has its content
    as [original], and has as [edited] text its own edited sentences joined
    by blanks, whatever the order in which the callbacks resume. *)
Theorem processDocument_keeps_sections (text : str) (type : DocType) (e : Engines) :
  let ss := Pipeline.inputSections text type in
  let out := doc_sections (fst (DocumentProcessor.processDocument text type e)) in
  map title out = map title ss
  /\ map content out = map content ss
  /\ map original out = map (fun s => Some (content s)) ss
  /\ map edited out
     = map (fun p => Some (Str.join (L " ") (snd p)))
           (fst (DocumentProcessor.startAll ss DocumentProcessor.newEngines)).
Proof.
  cbv zeta. rewrite PipelineFacts.processDocument_eq.
  pose proof (PipelineFacts.processSections_finished
                (Pipeline.inputSections text type) DocumentProcessor.newEngines) as H.
  apply PipelineFacts.finished_maps in H.
  rewrite PipelineFacts.startAll_fst in H.
  now destruct (DocumentProcessor.processSections _ _) as [processed e'].
Qed.

(** X3. The flattened Change list of [processDocument] is what the two
    engines hold when the callback of the last section has reached its
    [await]: all Changes of the clarity engine first, then all Changes of
    the style engine, for all sections together. The structure engine
    contributes nothing. *)
Theorem processDocument_changes_by_engine (text : str) (type : DocType) (e : Engines) :
  let e1 := snd (DocumentProcessor.startAll (Pipeline.inputSections text type)
                   DocumentProcessor.newEngines) in
  doc_changes (fst (DocumentProcessor.processDocument text type e))
  = clarityRules e1 ++ styleRules e1
  /\ structureRules e1 = [].
Proof.
  cbv zeta. rewrite PipelineFacts.processDocument_eq.
  pose proof (PipelineFacts.keeps_startAll (Pipeline.inputSections text type)
                DocumentProcessor.newEngines) as Hk. cbn [structureRules DocumentProcessor.newEngines] in Hk.
  split; [|exact Hk].
  pose proof (PipelineFacts.processSections_changes
                (Pipeline.inputSections text type) DocumentProcessor.newEngines) as H.
  cbv zeta in H.
  destruct (DocumentProcessor.processSections _ _) as [processed e'] eqn:Ep.
  cbn [fst doc_changes] in *.
  destruct H as [H | H].
  - rewrite H, Hk. now rewrite app_nil_r.
  - rewrite H in *. vm_compute in Ep. injection Ep as <- <-. reflexivity.
Qed.

(** ** White space at the ends of a string *)

Module TrimFacts.

Lemma toUpper_not_space c : Chr.is_space c = false -> Chr.is_space (Chr.toUpper c) = false.
Proof. destruct c as [[] [] [] [] [] [] [] []]; vm_compute; auto. Qed.

Lemma toUpper_idem c : Chr.toUpper (Chr.toUpper c) = Chr.toUpper c.
Proof. destruct c as [[] [] [] [] [] [] [] []]; vm_compute; auto. Qed.

Lemma trimStart_app a b :
  match b with c :: _ => Chr.is_space c = false | [] => False end ->
  Str.trimStart (a ++ b) = Str.trimStart a ++ b.
Proof.
  intros Hb. induction a as [|x a IH]; simpl.
  - destruct b as [|c b]; [destruct Hb|]. simpl. now rewrite Hb.
  - destruct (Chr.is_space x); [exact IH | reflexivity].
Qed.

Lemma trimStart_head s :
  match Str.trimStart s with c :: _ => Chr.is_space c = false | [] => True end.
Proof.
  induction s as [|x s IH]; simpl; [exact I|].
  destruct (Chr.is_space x) eqn:E; [exact IH | exact E].
Qed.

Lemma trimStart_fixed c s : Chr.is_space c = false -> Str.trimStart (c :: s) = c :: s.
Proof. intros H. simpl. now rewrite H. Qed.

Lemma trimStart_idem s : Str.trimStart (Str.trimStart s) = Str.trimStart s.
Proof.
  pose proof (trimStart_head s) as H.
  destruct (Str.trimStart s) as [|c y]; [reflexivity | now apply trimStart_fixed].
Qed.

(** [trimEnd] keeps a first character that is no white space *)
Lemma trimEnd_cons c s :
  Chr.is_space c = false ->
  Str.trimEnd (c :: s) = c :: Str.trimEnd s.
Proof.
  intros H. unfold Str.trimEnd. cbn [rev].
  rewrite trimStart_app by exact H. now rewrite rev_app_distr.
Qed.

Lemma trimEnd_idem s : Str.trimEnd (Str.trimEnd s) = Str.trimEnd s.
Proof. unfold Str.trimEnd. now rewrite rev_involutive, trimStart_idem. Qed.

Lemma trim_cons c s :
  Chr.is_space c = false -> Str.trim (c :: s) = c :: Str.trimEnd s.
Proof.
  intros H. unfold Str.trim. rewrite trimStart_fixed by exact H.
  now apply trimEnd_cons.
Qed.

Lemma trim_idem s : Str.trim (Str.trim s) = Str.trim s.
Proof.
  unfold Str.trim at 2 3. pose proof (trimStart_head s) as H.
  destruct (Str.trimStart s) as [|c y]; [reflexivity|].
  rewrite trimEnd_cons by exact H. rewrite trim_cons by exact H.
  now rewrite trimEnd_idem.
Qed.

(** a trimmed string is empty or starts with a character that is no white
    space *)
Lemma trim_head s :
  match Str.trim s with c :: _ => Chr.is_space c = false | [] => True end.
Proof.
  unfold Str.trim. pose proof (trimStart_head s) as H.
  destruct (Str.trimStart s) as [|c y]; [exact I|].
  now rewrite trimEnd_cons by exact H.
Qed.

Lemma trimEnd_snoc s c :
  Chr.is_space c = false -> Str.trimEnd (s ++ [c]) = s ++ [c].
Proof.
  intros H. unfold Str.trimEnd. rewrite rev_app_distr. cbn [rev app].
  rewrite trimStart_fixed by exact H. cbn [rev]. now rewrite rev_involutive.
Qed.

Lemma trimStart_nil_blank s : Str.trimStart s = [] -> forallb Chr.is_space s = true.
Proof.
  induction s as [|c s IH]; simpl; [reflexivity|].
  destruct (Chr.is_space c); [exact IH | discriminate].
Qed.

Lemma blank_trimStart s : forallb Chr.is_space s = true -> Str.trimStart s = [].
Proof.
  induction s as [|c s IH]; simpl; [reflexivity|].
  destruct (Chr.is_space c); [exact IH | discriminate].
Qed.

Lemma trim_nil_blank s : Str.trim s = [] <-> forallb Chr.is_space s = true.
Proof.
  split.
  - intros H. apply trimStart_nil_blank. unfold Str.trim in H.
    pose proof (trimStart_head s) as Hh.
    destruct (Str.trimStart s) as [|c y]; [reflexivity|].
    rewrite trimEnd_cons in H by exact Hh. discriminate.
  - intros H. unfold Str.trim. now rewrite blank_trimStart.
Qed.

End TrimFacts.

(** ** ensureCompleteSentence *)

Module CompleteFacts.

Import Re ClarityRules TrimFacts.

Lemma match_at_terminated pv i l :
  match_at re_terminated pv i l
  = match l with
    | [c] => if Chr.one_of ".!?" c then Some (Found [c] []) else None
    | _ => None
    end.
Proof.
  unfold match_at, re_terminated, chr. cbn [run rest pos caps].
  destruct l as [|c [|d l']]; [reflexivity | | ].
  - destruct (Chr.one_of ".!?" c); [|reflexivity].
    cbn [rest pos]. replace (S i - i) with 1 by lia. reflexivity.
  - destruct (Chr.one_of ".!?" c); reflexivity.
Qed.

(** the test [/[.!?]$/] looks at the last character only *)
Lemma hits_terminated l : forall pv i,
  hits (scan1 re_terminated pv i l)
  = match rev l with
    | c :: _ => if Chr.one_of ".!?" c then [Found [c] []] else []
    | [] => []
    end.
Proof.
  induction l as [|c l IH]; intros pv i.
  - cbn [scan1]. rewrite match_at_terminated. reflexivity.
  - cbn [scan1]. rewrite match_at_terminated. destruct l as [|d l'].
    + cbn [rev app]. destruct (Chr.one_of ".!?" c); reflexivity.
    + cbn [hits flat_map app]. fold (hits (scan1 re_terminated (Some c) (S i) (d :: l'))).
      rewrite IH. cbn [rev]. destruct (rev l' ++ [d]) eqn:E.
      * now apply app_eq_nil in E.
      * reflexivity.
Qed.

Lemma test_terminated l :
  test re_terminated l
  = match rev l with c :: _ => Chr.one_of ".!?" c | [] => false end.
Proof.
  unfold test, exec. rewrite hits_terminated.
  destruct (rev l) as [|c r]; [reflexivity|].
  destruct (Chr.one_of ".!?" c); reflexivity.
Qed.

Lemma test_terminated_dot s : test re_terminated (s ++ L ".") = true.
Proof. rewrite test_terminated, rev_app_distr. reflexivity. Qed.

Lemma capitalize_idem s : Str.capitalize (Str.capitalize s) = Str.capitalize s.
Proof. destruct s; simpl; [reflexivity | now rewrite toUpper_idem]. Qed.

(** a capitalised, trimmed, non-empty text goes through
    [ensureCompleteSentence] unchanged once it ends in [.], [!] or [?] *)
Lemma ensure_fixed c y :
  Chr.is_space c = false ->
  Str.trimEnd y = y ->
  test re_terminated (Chr.toUpper c :: y) = true ->
  ensureCompleteSentence (Chr.toUpper c :: y) = Chr.toUpper c :: y.
Proof.
  intros Hc Hy Ht. unfold ensureCompleteSentence.
  rewrite trim_cons by now apply toUpper_not_space. rewrite Hy.
  cbn [Str.capitalize]. rewrite toUpper_idem, Ht. reflexivity.
Qed.

Lemma ensureCompleteSentence_cases fragment :
  (Str.trim fragment = [] /\ ensureCompleteSentence fragment = [])
  \/ exists c y,
       Chr.is_space c = false /\ Str.trimEnd y = y
       /\ test re_terminated (Chr.toUpper c :: y) = true
       /\ ensureCompleteSentence fragment = Chr.toUpper c :: y.
Proof.
  unfold ensureCompleteSentence.
  pose proof (trim_head fragment) as Hh. pose proof (trim_idem fragment) as Hi.
  destruct (Str.trim fragment) as [|c y]; [now left | right].
  rewrite trim_cons in Hi by exact Hh. injection Hi as Hy.
  cbn [Str.capitalize].
  destruct (test re_terminated (Chr.toUpper c :: y)) eqn:Ht; cbn [negb].
  - exists c, y. auto.
  - exists c, (y ++ L "."). repeat split; auto.
    + apply trimEnd_snoc. reflexivity.
    + apply (test_terminated_dot (Chr.toUpper c :: y)).
Qed.

End CompleteFacts.

(** X4. [ensureCompleteSentence] is idempotent; its result is trimmed, and
    it is the empty string for a blank fragment and ends in [.], [!] or [?]
    for every other fragment. *)
Theorem ensureCompleteSentence_idempotent (fragment : str) :
  let sentence := ClarityRules.ensureCompleteSentence fragment in
  ClarityRules.ensureCompleteSentence sentence = sentence
  /\ Str.trim sentence = sentence
  /\ (Str.trim fragment = [] -> sentence = [])
  /\ (Str.trim fragment <> [] ->
      Re.test ClarityRules.re_terminated sentence = true).
Proof.
  cbv zeta.
  destruct (CompleteFacts.ensureCompleteSentence_cases fragment)
    as [[Hb He] | [c [y [Hc [Hy [Ht He]]]]]]; rewrite He.
  - split; [reflexivity|]. split; [reflexivity|]. split; [reflexivity|].
    intros H. now elim H.
  - split; [now apply CompleteFacts.ensure_fixed|]. split; [|split].
    + rewrite TrimFacts.trim_cons by now apply TrimFacts.toUpper_not_space.
      now rewrite Hy.
    + intros Hb. unfold ClarityRules.ensureCompleteSentence in He.
      rewrite Hb in He. discriminate.
    + intros _. exact Ht.
Qed.

Lemma ensureCompleteSentence_idempotent_witness :
  Str.trim (L "  we test it ") <> []
  /\ Re.test ClarityRules.re_terminated
       (ClarityRules.ensureCompleteSentence (L "  we test it ")) = true.
Proof.
  assert (H : Str.trim (L "  we test it ") <> []) by (vm_compute; discriminate).
  split; [exact H|].
  exact (proj2 (proj2 (proj2 (ensureCompleteSentence_idempotent (L "  we test it ")))) H).
Defined.

(** ** The length of the text an operation returns *)

Module LengthFacts.

Import Re Scan Changes Contract ChangeFacts.

Lemma ruleOp_le rules norm mk text cs :
  Forall contracting rules ->
  (forall s, length (norm s) <= length s) ->
  length (fst (ruleOp rules norm mk text cs)) <= length text.
Proof.
  intros Hc Hn. pose proof (rewriteEach_contracting text Hc) as H.
  unfold ruleOp, bind, ret. cbv zeta in H.
  destruct (rewriteEach rules text) as [result [|]]; simpl in *.
  - pose proof (Hn result). lia.
  - subst result. apply Hn.
Qed.

End LengthFacts.

(** X5. The six substitution operations of the sentence pipeline never
    return a text that is longer than their input. *)
Theorem substitutions_never_lengthen (text : str) (cs : list Change) :
  length (fst (ClarityRules.fixPassiveVoice text cs)) <= length text
  /\ length (fst (ClarityRules.simplifyLanguage text cs)) <= length text
  /\ length (fst (StyleRules.cleanVocabulary text cs)) <= length text
  /\ length (fst (StyleRules.fixTense text cs)) <= length text
  /\ length (fst (StyleRules.removeRedundancy text cs)) <= length text
  /\ length (fst (StyleRules.enforceActiveWriting text cs)) <= length text.
Proof.
  repeat split.
  - rewrite ChangeFacts.fixPassiveVoice_ruleOp.
    apply LengthFacts.ruleOp_le; [apply ChangeFacts.passivePatterns_contracting | auto].
  - rewrite ChangeFacts.simplifyLanguage_ruleOp.
    apply LengthFacts.ruleOp_le; [apply ChangeFacts.replacements_contracting | auto].
  - rewrite ChangeFacts.cleanVocabulary_ruleOp.
    apply LengthFacts.ruleOp_le;
      [apply ChangeFacts.forbidden_contracting
      | apply ChangeFacts.cleanVocabulary_norm_le].
  - rewrite ChangeFacts.fixTense_ruleOp.
    apply LengthFacts.ruleOp_le; [apply ChangeFacts.futurePatterns_contracting | auto].
  - rewrite ChangeFacts.removeRedundancy_ruleOp.
    apply LengthFacts.ruleOp_le; [apply ChangeFacts.redundantPhrases_contracting | auto].
  - rewrite ChangeFacts.enforceActiveWriting_ruleOp.
    apply LengthFacts.ruleOp_le;
      [apply ChangeFacts.weakVerbs_contracting
      | apply ChangeFacts.enforceActiveWriting_norm_le].
Qed.

(** X6. Both validations report [valid] exactly when they report no issue:
    [valid] is true if and only if [issues] is [undefined]. *)
Theorem valid_iff_no_issues (text : str) (cs : list Change) :
  (valid (fst (StructureRules.validateIntroduction text cs)) = true
   <-> issues (fst (StructureRules.validateIntroduction text cs)) = None)
  /\ (valid (fst (StructureRules.validateAbstract text cs)) = true
      <-> issues (fst (StructureRules.validateAbstract text cs)) = None).
Proof.
  split.
  - unfold StructureRules.validateIntroduction.
    destruct (StructureRules.autoFixIntroduction _ _ cs) as [fixedText cs1].
    cbn [fst valid issues StructureRules.problemInFirstParagraph
         StructureRules.hasContributions StructureRules.avoidGrandmothering
         StructureRules.hasSilverBullet StructureRules.comparesApproaches].
    destruct (StructureRules.checkFirstParagraphProblem text),
      (Str.includes (L "contribution") (Str.toLowerCase text)),
      (StructureRules.hasObviousStatements text),
      (StructureRules.identifiesKeyIdea text),
      (StructureRules.mentionsAlternatives text);
      cbn; split; congruence.
  - unfold StructureRules.validateAbstract.
    destruct (StructureRules.restructureAbstract _ _ cs) as [fixedText cs1].
    cbn [fst valid issues StructureRules.independent
         StructureRules.selfContained StructureRules.correctLength].
    set (a := negb _ && negb _ && negb _).
    set (b := StructureRules.hasAllComponents _ _).
    set (c := (_ <=? _) && (_ <=? _)).
    clearbody a b c. destruct a, b, c; cbn; split; congruence.
Qed.

(** ** Literals under the [i] flag *)

Module LitFacts.

Import Re Scan Literals ReFacts.

Lemma run_lit_ci p : forall k pv i l cs,
  run (seqs (map (fun c => Cls (Chr.eqb_ci c)) p)) k (MState pv i l cs)
  = if prefix_ci p l then k (advance (length p) pv i l cs) else None.
Proof.
  induction p as [|a p IH]; intros k pv i l cs; [reflexivity|].
  destruct p as [|b p'].
  - cbn [map seqs run rest pos caps prefix_ci length].
    destruct l as [|c l']; [reflexivity|].
    rewrite andb_true_r. destruct (Chr.eqb_ci a c); reflexivity.
  - change (seqs (map (fun c => Cls (Chr.eqb_ci c)) (a :: b :: p')))
      with (Seq (Cls (Chr.eqb_ci a))
                (seqs (map (fun c => Cls (Chr.eqb_ci c)) (b :: p')))).
    cbn [run rest pos caps].
    destruct l as [|c l']; [reflexivity|].
    cbn [prefix_ci]. destruct (Chr.eqb_ci a c); [|reflexivity].
    rewrite IH. reflexivity.
Qed.

Lemma prefix_ci_upper p q : map Chr.toUpper p = map Chr.toUpper q ->
  forall l, prefix_ci p l = prefix_ci q l.
Proof.
  revert q. induction p as [|a p IH]; intros [|b q] E l; try discriminate;
    [reflexivity|].
  injection E as Ea Ep. destruct l as [|c l]; [reflexivity|].
  cbn [prefix_ci]. unfold Chr.eqb_ci. rewrite Ea. f_equal. now apply IH.
Qed.

Lemma match_at_lit s pv i l :
  match_at (lit true s) pv i l = None <-> prefix_ci (L s) l = false.
Proof.
  unfold match_at, lit, L. rewrite run_lit_ci.
  destruct (prefix_ci _ l); split; congruence.
Qed.

Lemma match_at_lit_seq s r pv i l :
  prefix_ci (L s) l = false -> match_at (Seq (lit true s) r) pv i l = None.
Proof.
  intros H. unfold match_at, lit, L in *. cbn [run]. rewrite run_lit_ci.
  now rewrite H.
Qed.

(** an expression that opens with a literal is silent wherever the literal
    is, also when the two are written in different letter cases *)
Lemma silent_lit_seq s1 s2 r :
  map Chr.toUpper (L s1) = map Chr.toUpper (L s2) ->
  forall l pv i, silent (lit true s1) pv i l -> silent (Seq (lit true s2) r) pv i l.
Proof.
  intros E. induction l as [|c l IH]; intros pv i H.
  - apply silent_nil. apply silent_nil in H. apply match_at_lit_seq.
    rewrite <- (prefix_ci_upper _ _ E).
    now apply (proj1 (match_at_lit s1 pv i [])).
  - apply silent_cons. apply silent_cons in H. destruct H as [H1 H2]. split.
    + apply match_at_lit_seq. rewrite <- (prefix_ci_upper _ _ E).
      now apply (proj1 (match_at_lit s1 pv i (c :: l))).
    + now apply IH.
Qed.

Lemma test_lit_seq s1 s2 r text :
  map Chr.toUpper (L s1) = map Chr.toUpper (L s2) ->
  test (lit true s1) text = false ->
  test (Seq (lit true s2) r) text = false.
Proof.
  intros E H. apply silent_test_false. apply (silent_lit_seq _ _ r E).
  now apply test_false_silent.
Qed.

End LitFacts.

(** ** validateIntroduction on an introduction that passes *)

Module IntroFacts.

Import StructureRules LitFacts.

Lemma obviousPatterns_absent text :
  hasObviousStatements text = false ->
  rewriteEach obviousPatterns text = (text, false).
Proof.
  intros H. apply rewriteEach_absent.
  unfold hasObviousStatements, obviousPhrases in H. cbn [existsb] in H.
  repeat (apply orb_false_iff in H; destruct H as [? H]).
  unfold obviousPatterns. cbn [map].
  repeat (apply Forall_cons || apply Forall_nil); cbn [fst Re.seqs];
    match goal with
    | Hx : Re.test (Re.lit true ?s1) text = false
      |- Re.test (Seq (Re.lit true ?s2) ?r) text = false =>
        apply (test_lit_seq s1 s2 r text); [reflexivity | exact Hx]
    end.
Qed.

Lemma removeObviousStatements_absent text cs :
  hasObviousStatements text = false ->
  removeObviousStatements text cs = (text, cs).
Proof.
  intros H. unfold removeObviousStatements.
  now rewrite obviousPatterns_absent.
Qed.

End IntroFacts.

(** X7. An introduction that [validateIntroduction] finds valid is returned
    as it is: the fixed text is the input, no issue is reported and no
    Change is recorded. *)
Theorem valid_introduction_untouched (text : str) (cs : list Change) :
  valid (fst (StructureRules.validateIntroduction text cs)) = true ->
  StructureRules.validateIntroduction text cs
  = (mkValidation true None text cs, cs).
Proof.
  unfold StructureRules.validateIntroduction.
  destruct (StructureRules.autoFixIntroduction text _ cs) as [fixedText cs1] eqn:E.
  cbn [fst valid StructureRules.problemInFirstParagraph
       StructureRules.hasContributions StructureRules.avoidGrandmothering
       StructureRules.hasSilverBullet StructureRules.comparesApproaches] in *.
  intros H. repeat (apply andb_true_iff in H; destruct H as [H ?]).
  unfold StructureRules.autoFixIntroduction, bind, ret in E.
  cbn [StructureRules.problemInFirstParagraph StructureRules.hasContributions] in E.
  match goal with Hg : negb _ = true |- _ => apply negb_true_iff in Hg; rename Hg into Hg' end.
  repeat match goal with Hb : ?b = true |- _ => rewrite Hb in * end.
  cbn [negb] in E. rewrite IntroFacts.removeObviousStatements_absent in E by assumption.
  injection E as <- <-. rewrite Hg'. reflexivity.
Qed.

Lemma valid_introduction_untouched_witness :
  StructureRules.validateIntroduction Literals.soundIntroduction []
  = (mkValidation true None Literals.soundIntroduction [], []).
Proof.
  apply (valid_introduction_untouched Literals.soundIntroduction []).
  vm_compute. reflexivity.
Defined.

(** ** validateAbstract on an abstract that lacks a component or is short *)

Module RestructureFacts.

Import StructureRules Restructure Abstracts.

Lemma templateAbstract_words : length (Re.split Re.s_plus templateAbstract) = 25.
Proof. vm_compute. reflexivity. Qed.

Lemma restructureAbstract_template text checks cs :
  selfContained checks = false ->
  restructureAbstract text checks cs
  = (expandAbstract templateAbstract,
     cs ++ [mkChange (L "Abstract Structure") structure text templateAbstract
              (L "Restructured abstract to include all required components")]).
Proof.
  intros H. unfold restructureAbstract, bind, ret, push. rewrite H. cbn [negb].
  change (problem (generateAbstractComponents text) ++ L " "
          ++ approach (generateAbstractComponents text) ++ L " "
          ++ results (generateAbstractComponents text))
    with templateAbstract.
  rewrite templateAbstract_words. reflexivity.
Qed.

Lemma restructureAbstract_short text checks cs :
  selfContained checks = true ->
  neutral text = true ->
  length (words text) < 100 ->
  restructureAbstract text checks cs = (expandAbstract text, cs).
Proof.
  intros H Hn Hw. unfold restructureAbstract, bind, ret. rewrite H. cbn [negb].
  rewrite (AbstractFacts.neutralize_neutral text Hn).
  unfold words in Hw.
  destruct (250 <? length (Re.split Re.s_plus text)) eqn:E1.
  - apply Nat.ltb_lt in E1. lia.
  - destruct (length (Re.split Re.s_plus text) <? 100) eqn:E2; [reflexivity|].
    apply Nat.ltb_ge in E2. lia.
Qed.

End RestructureFacts.

(** X8. An abstract that lacks a problem, an approach or a result is
    replaced as a whole: whatever the input, the fixed text is the same
    three generated sentences followed by the expansion sentence, the
    abstract is not valid, and one Change ("Abstract Structure") records the
    input and the three sentences. *)
Theorem validateAbstract_discards_text (text : str) (cs : list Change) :
  Abstracts.selfContainedText text = false ->
  let result := StructureRules.validateAbstract text cs in
  fixedText (fst result) = StructureRules.expandAbstract Restructure.templateAbstract
  /\ valid (fst result) = false
  /\ snd result
     = cs ++ [mkChange (L "Abstract Structure") structure text
                Restructure.templateAbstract
                (L "Restructured abstract to include all required components")].
Proof.
  intros H. cbv zeta. unfold StructureRules.validateAbstract.
  rewrite RestructureFacts.restructureAbstract_template by exact H.
  cbn [fst snd fixedText valid StructureRules.independent
       StructureRules.selfContained StructureRules.correctLength].
  unfold Abstracts.selfContainedText in H. rewrite H.
  repeat split. now rewrite andb_false_r.
Qed.

Lemma validateAbstract_discards_text_witness :
  fixedText (fst (StructureRules.validateAbstract Restructure.vagueAbstract []))
  = StructureRules.expandAbstract Restructure.templateAbstract.
Proof.
  apply (validateAbstract_discards_text Restructure.vagueAbstract []).
  vm_compute. reflexivity.
Defined.

(** ** The place of the overview *)

Module PlacementFacts.

Import StructureRules Placement.

Lemma findOverviewPositionFrom_spec sections : forall i,
  (exists pre h post,
      sections = pre ++ h :: post
      /\ heads h = true /\ headless pre = true
      /\ findOverviewPositionFrom i sections = i + length pre + 1)
  \/ (headless sections = true /\ findOverviewPositionFrom i sections = 1).
Proof.
  induction sections as [|s tl IH]; intros i; [now right|].
  cbn [findOverviewPositionFrom]. fold (heads s).
  destruct (heads s) eqn:Hs.
  - left. exists [], s, tl. repeat split; auto; simpl; lia.
  - destruct (IH (S i)) as [[pre [h [post [E [Hh [Hp Hf]]]]]] | [Hl Hf]].
    + left. exists (s :: pre), h, post. subst tl. repeat split; auto.
      * unfold headless in *. cbn [forallb]. now rewrite Hs, Hp.
      * rewrite Hf. simpl. lia.
    + right. split; [|exact Hf]. unfold headless in *. cbn [forallb].
      now rewrite Hs, Hl.
Qed.

Lemma splice_app {A} (pre post : list A) (x : A) :
  splice (length pre) x (pre ++ post) = pre ++ x :: post.
Proof.
  unfold splice. rewrite firstn_app, skipn_app, Nat.sub_diag, firstn_all.
  rewrite skipn_all. cbn [firstn skipn app]. now rewrite app_nil_r.
Qed.

Lemma splice_firstn {A} (n : nat) (x : A) (l : list A) :
  splice n x l = firstn n l ++ x :: skipn n l.
Proof. reflexivity. Qed.

End PlacementFacts.

(** X10. On a section list without an overview, [insertOverviewSection]
    inserts exactly one section, the generated overview, and keeps every
    other section in place and in order: the overview comes directly behind
    the first section whose title names an introduction or an abstract, and
    at index 1 (or at the end of a shorter list) when there is none. Exactly
    one Change is recorded. *)
Theorem insertOverviewSection_placement (sections : list Section_) (cs : list Change) :
  Overview.hasOverview sections = false ->
  exists pre post,
    sections = pre ++ post
    /\ StructureRules.insertOverviewSection sections cs
       = (pre ++ StructureRules.generateOverview sections :: post,
          cs ++ [Placement.overviewChange])
    /\ ((exists pre' h,
            pre = pre' ++ [h] /\ Placement.heads h = true
            /\ Placement.headless pre' = true)
        \/ (Placement.headless sections = true /\ pre = firstn 1 sections)).
Proof.
  intros H. unfold StructureRules.insertOverviewSection.
  unfold Overview.hasOverview in H. rewrite H. cbn [negb].
  unfold bind, ret, push, StructureRules.findOverviewPosition.
  destruct (PlacementFacts.findOverviewPositionFrom_spec sections 0)
    as [[pre [h [post [E [Hh [Hp Hf]]]]]] | [Hl Hf]]; rewrite Hf.
  - exists (pre ++ [h]), post. split; [|split].
    + rewrite E, <- app_assoc. reflexivity.
    + replace (0 + length pre + 1) with (length (pre ++ [h]))
        by (rewrite length_app; simpl; lia).
      rewrite E at 2. replace (pre ++ h :: post) with ((pre ++ [h]) ++ post)
        by (now rewrite <- app_assoc).
      now rewrite PlacementFacts.splice_app.
    + left. exists pre, h. auto.
  - exists (firstn 1 sections), (skipn 1 sections). split; [|split].
    + now rewrite firstn_skipn.
    + reflexivity.
    + now right.
Qed.

Lemma insertOverviewSection_placement_witness :
  exists pre post,
    Placement.plainPaper = pre ++ post
    /\ StructureRules.insertOverviewSection Placement.plainPaper []
       = (pre ++ StructureRules.generateOverview Placement.plainPaper :: post,
          [] ++ [Placement.overviewChange])
    /\ ((exists pre' h,
            pre = pre' ++ [h] /\ Placement.heads h = true
            /\ Placement.headless pre' = true)
        \/ (Placement.headless Placement.plainPaper = true
            /\ pre = firstn 1 Placement.plainPaper)).
Proof.
  apply (insertOverviewSection_placement Placement.plainPaper []).
  vm_compute. reflexivity.
Defined.

(** ** editDocument *)

Module EditFacts.

Import DocumentProcessor EditDocument.

Lemma structurePass_changes processed cs :
  doc_changes (fst (structurePass processed cs)) = doc_changes processed.
Proof.
  unfold structurePass, bind, ret.
  destruct (StructureRules.insertOverviewSection _ cs) as [ss cs1].
  destruct (structureSections ss cs1) as [ss' cs2]. reflexivity.
Qed.

Lemma not_full_paper type : type <> full_paper -> DocType_eqb type full_paper = false.
Proof. destruct type; auto. intros H. now elim H. Qed.

Lemma processDocument_unterminated text type e :
  type <> full_paper ->
  Sentences.unterminated text = true ->
  fst (processDocument text type e)
  = mkProcessed type
      [mkSection (L "Content") text (Some text) (Some []) (Some [])] [].
Proof.
  intros Ht Hu. rewrite PipelineFacts.processDocument_eq.
  unfold Pipeline.inputSections. rewrite (not_full_paper Ht).
  rewrite SingleSection.processSections_one.
  unfold sectionStart, bind, ret. cbn [content].
  rewrite SplitFacts.splitIntoSentences_unterminated by exact Hu.
  reflexivity.
Qed.

End EditFacts.

(** X11. The number of changes that [editDocument] reports is the length of
    the Change list of [processDocument]: the Changes that the structure
    pass of a full paper records (overview, introduction, abstract) are
    attached to their sections and are never counted. *)
Theorem editDocument_counts_sentence_changes (text : str) (documentType : DocType) :
  er_changes (EditDocument.editDocument text documentType)
  = length (doc_changes (fst (DocumentProcessor.processDocument text documentType
                                DocumentProcessor.newEngines))).
Proof.
  unfold EditDocument.editDocument, EditDocument.editedDocument.
  destruct (DocumentProcessor.processDocument text documentType _) as [processed e].
  cbn [er_changes fst].
  destruct (DocType_eqb documentType full_paper); [|reflexivity].
  now rewrite EditFacts.structurePass_changes.
Qed.

(** X12. For a document type other than [full_paper], a text without [.],
    [!] and [?] comes back from [editDocument] as it went in, with no
    change counted: the edited text of its only section is empty, and the
    rendering falls back to the content of the section. *)
Theorem editDocument_unterminated (text : str) (documentType : DocType) :
  documentType <> full_paper ->
  Sentences.unterminated text = true ->
  EditDocument.editDocument text documentType = mkEditResult text 0.
Proof.
  intros Ht Hu. unfold EditDocument.editDocument, EditDocument.editedDocument.
  pose proof (@EditFacts.processDocument_unterminated text documentType
                DocumentProcessor.newEngines Ht Hu) as H.
  destruct (DocumentProcessor.processDocument text documentType _) as [processed e].
  cbn [fst] in H. subst processed. rewrite (EditFacts.not_full_paper Ht).
  reflexivity.
Qed.

Lemma editDocument_unterminated_witness :
  EditDocument.editDocument (L "a note without an end") section_doc
  = mkEditResult (L "a note without an end") 0.
Proof.
  apply (editDocument_unterminated (L "a note without an end")).
  - discriminate.
  - vm_compute. reflexivity.
Defined.

(** ** extractSections on a blank text *)

Module ExtractFacts.

Import Re Scan ReFacts TrimFacts DocumentProcessor.

Lemma space_not_hash c : Chr.is_space c = true -> Chr.one_of "#" c = false.
Proof. destruct c as [[] [] [] [] [] [] [] []]; vm_compute; auto. Qed.

Lemma space_not_digit c : Chr.is_space c = true -> Chr.is_digit c = false.
Proof. destruct c as [[] [] [] [] [] [] [] []]; vm_compute; auto. Qed.

Lemma space_not_upper c : Chr.is_space c = true -> Chr.is_upper c = false.
Proof. destruct c as [[] [] [] [] [] [] [] []]; vm_compute; auto. Qed.

(** an expression anchored by [^] matches at the start only *)
Lemma match_at_bol r pv i l : match_at (Seq Bol r) pv (S i) l = None.
Proof. reflexivity. Qed.

Lemma silent_bol r l : forall pv i, silent (Seq Bol r) pv (S i) l.
Proof.
  induction l as [|c l IH]; intros pv i.
  - apply silent_nil. apply match_at_bol.
  - apply silent_cons. split; [apply match_at_bol | apply IH].
Qed.

Lemma exec_bol r l :
  match_at (Seq Bol r) None 0 l = None -> exec (Seq Bol r) l = None.
Proof.
  intros H. unfold exec. rewrite scan1_silent.
  - now rewrite hits_plain.
  - destruct l as [|c l].
    + now apply silent_nil.
    + apply silent_cons. split; [exact H | apply silent_bol].
Qed.

Lemma sectionPattern_blank line :
  forallb Chr.is_space line = true -> exec sectionPattern line = None.
Proof.
  intros H. apply (exec_bol _ line).
  unfold match_at. destruct line as [|c l]; [reflexivity|].
  cbn [forallb] in H. apply andb_true_iff in H. destruct H as [Hc _].
  cbn -[Chr.one_of]. now rewrite (space_not_hash c Hc).
Qed.

Lemma numberedPattern_blank line :
  forallb Chr.is_space line = true -> exec numberedPattern line = None.
Proof.
  intros H. apply (exec_bol _ line).
  unfold match_at. destruct line as [|c l]; [reflexivity|].
  cbn [forallb] in H. apply andb_true_iff in H. destruct H as [Hc _].
  cbn -[Chr.is_digit Chr.is_upper Chr.one_of Chr.none_of]. now rewrite (space_not_digit c Hc), (space_not_upper c Hc).
Qed.

(** a blank line is a line of content *)
Lemma extractLine_blank st line :
  forallb Chr.is_space line = true ->
  extractLine st line
  = mkExtract (sections st) (currentSection st) (contentLines st ++ [line]).
Proof.
  intros H. unfold extractLine.
  now rewrite sectionPattern_blank, numberedPattern_blank.
Qed.

Lemma forallb_rev {A} (p : A -> bool) (l : list A) :
  forallb p (rev l) = forallb p l.
Proof.
  induction l as [|x l IH]; [reflexivity|].
  cbn [rev forallb]. rewrite forallb_app, IH. cbn [forallb].
  rewrite andb_true_r. apply andb_comm.
Qed.

Lemma splitChar_blank sep s : forall cur,
  forallb Chr.is_space cur = true ->
  forallb Chr.is_space s = true ->
  Forall (fun line => forallb Chr.is_space line = true) (Str.splitChar sep cur s).
Proof.
  induction s as [|c s IH]; intros cur Hcur Hs; cbn [Str.splitChar].
  - constructor; [|constructor]. now rewrite forallb_rev.
  - cbn [forallb] in Hs. apply andb_true_iff in Hs. destruct Hs as [Hc Hs].
    destruct (Chr.eqb c sep).
    + constructor; [now rewrite forallb_rev | now apply IH].
    + apply IH; [|exact Hs]. cbn [forallb]. now rewrite Hc, Hcur.
Qed.

Lemma fold_extractLine_blank lines : forall st,
  Forall (fun line => forallb Chr.is_space line = true) lines ->
  currentSection (fold_left extractLine lines st) = currentSection st
  /\ sections (fold_left extractLine lines st) = sections st.
Proof.
  induction lines as [|line lines IH]; intros st H; [now split|].
  inversion H as [|? ? H1 H2]; subst. cbn [fold_left].
  rewrite extractLine_blank by exact H1.
  destruct (IH (mkExtract (sections st) (currentSection st)
                          (contentLines st ++ [line])) H2) as [E1 E2].
  now rewrite E1, E2.
Qed.

Lemma extractSections_blank text :
  Str.trim text = [] -> extractSections text = [].
Proof.
  intros H. unfold extractSections. rewrite H.
  apply trim_nil_blank in H.
  destruct (@fold_extractLine_blank (Str.splitChar LF [] text) (mkExtract [] None []))
    as [E1 E2]; [now apply splitChar_blank|].
  unfold closeSection. rewrite E1, E2. reflexivity.
Qed.

End ExtractFacts.

(** X13. [extractSections] returns no section exactly for a blank text: a
    text of white space only yields the empty list (not even the fallback
    section), and every other text yields at least one section. *)
Theorem extractSections_empty_iff_blank (text : str) :
  DocumentProcessor.extractSections text = [] <-> Str.trim text = [].
Proof.
  split; [|apply ExtractFacts.extractSections_blank].
  unfold DocumentProcessor.extractSections.
  destruct (DocumentProcessor.closeSection _) as [|s ss];
    destruct (Str.trim text); auto; discriminate.
Qed.

(** ** countSyllables *)

Module SyllableFacts.

Import Readability.

Local Open Scope Z_scope.

Lemma vowelGroups_nonneg word : forall b, 0 <= vowelGroups b word.
Proof.
  induction word as [|c w IH]; intros b; cbn [vowelGroups]; [lia|].
  specialize (IH (is_vowel c)). destruct (is_vowel c && negb b)%bool; lia.
Qed.

Lemma vowelGroups_le word : forall b, vowelGroups b word <= Z.of_nat (length word).
Proof.
  induction word as [|c w IH]; intros b; cbn [vowelGroups length]; [lia|].
  specialize (IH (is_vowel c)). destruct (is_vowel c && negb b)%bool; lia.
Qed.

(** a word that ends in a vowel has a vowel group *)
Lemma vowelGroups_snoc word v : is_vowel v = true ->
  1 <= vowelGroups false (word ++ [v]).
Proof.
  intros Hv. induction word as [|c w IH]; cbn [app vowelGroups].
  - rewrite Hv. cbn. lia.
  - destruct (is_vowel c) eqn:Hc; cbn [andb negb].
    + pose proof (vowelGroups_nonneg (w ++ [v]) true). lia.
    + lia.
Qed.

Lemma endsWith_snoc (c : ascii) (s : str) :
  Str.endsWith [c] s = true -> exists x, s = (x ++ [c])%list.
Proof.
  unfold Str.endsWith. cbn [rev app]. intros H.
  destruct (rev s) as [|d r] eqn:E; [discriminate|].
  cbn [Str.startsWith] in H. apply andb_true_iff in H. destruct H as [H _].
  apply Ascii.eqb_eq in H. subst d. exists (rev r).
  rewrite <- (rev_involutive s), E. reflexivity.
Qed.

End SyllableFacts.

(** X14. [DocumentProcessor.countSyllables] is at least 1 for every word,
    the empty word included, and at most the length of the word for a word
    of one character or more: the decrement for a final "e" never takes the
    count below 0, where the guard [count === 0] would miss it. *)
Theorem countSyllables_at_least_one (word : str) :
  (1 <= Readability.countSyllables word
   <= Z.max 1 (Z.of_nat (length word)))%Z.
Proof.
  unfold Readability.countSyllables.
  pose proof (SyllableFacts.vowelGroups_nonneg (Str.toLowerCase word) false) as H0.
  pose proof (SyllableFacts.vowelGroups_le (Str.toLowerCase word) false) as H1.
  unfold Str.toLowerCase in H1 at 2. rewrite length_map in H1.
  destruct (Str.endsWith (L "e") (Str.toLowerCase word)) eqn:He.
  - apply (SyllableFacts.endsWith_snoc "e"%char) in He. destruct He as [x Ex].
    rewrite Ex in *.
    pose proof (@SyllableFacts.vowelGroups_snoc x "e"%char eq_refl) as H2.
    destruct (Z.eqb_spec (Readability.vowelGroups false (x ++ ["e"%char]) - 1) 0); lia.
  - destruct (Z.eqb_spec (Readability.vowelGroups false (Str.toLowerCase word)) 0); lia.
Qed.

(** ** getActiveVerb on a participle in "ed" *)

Module VerbFacts.

Import ClarityRules.

Lemma dictGet_ends d key :
  forallb (fun e => negb (Str.endsWith (L "ed") (L (fst e)))) d = true ->
  Str.endsWith (L "ed") key = true ->
  dictGet d key = None.
Proof.
  intros Hd Hk. induction d as [|[k v] d IH]; [reflexivity|].
  cbn [forallb fst] in Hd. apply andb_true_iff in Hd. destruct Hd as [H1 H2].
  cbn [dictGet]. destruct (str_eqb (L k) key) eqn:E; [|now apply IH].
  apply str_eqb_eq in E. rewrite E, Hk in H1. discriminate.
Qed.

Lemma endsWith_ed stem : Str.endsWith (L "ed") (stem ++ L "ed") = true.
Proof. unfold Str.endsWith. rewrite rev_app_distr. reflexivity. Qed.

Lemma endsWith_ied stem :
  Str.endsWith (L "ied") (stem ++ L "ed") = Str.endsWith (L "i") stem.
Proof. unfold Str.endsWith. rewrite rev_app_distr. reflexivity. Qed.

Lemma dropEnd_ed stem : Str.dropEnd 2 (stem ++ L "ed") = stem.
Proof.
  unfold Str.dropEnd. rewrite length_app. cbn [length L list_ascii_of_string].
  replace (length stem + 2 - 2) with (length stem) by lia.
  rewrite firstn_app, firstn_all, Nat.sub_diag. cbn [firstn]. apply app_nil_r.
Qed.

Lemma dropEnd_ied stem : Str.dropEnd 3 (stem ++ L "ed") = Str.dropEnd 1 stem.
Proof.
  unfold Str.dropEnd. rewrite length_app. cbn [length L list_ascii_of_string].
  replace (length stem + 2 - 3) with (length stem - 1) by lia.
  rewrite firstn_app. replace (length stem - 1 - length stem) with 0 by lia.
  cbn [firstn]. apply app_nil_r.
Qed.

End VerbFacts.

(** X15. For every participle that ends in "ed", [getActiveVerb] returns
    the bare stem: the ending "ed" is dropped, and an ending "ied" becomes
    "y". No entry of the table of irregular verbs applies, and the endings
    "ted" and "ded" are treated like every other. *)
Theorem getActiveVerb_strips_ed (stem : str) :
  ClarityRules.getActiveVerb (stem ++ L "ed")
  = if Str.endsWith (L "i") stem then Str.dropEnd 1 stem ++ L "y" else stem.
Proof.
  unfold ClarityRules.getActiveVerb.
  rewrite VerbFacts.dictGet_ends;
    [|vm_compute; reflexivity | apply VerbFacts.endsWith_ed].
  rewrite VerbFacts.endsWith_ed, VerbFacts.endsWith_ied,
    VerbFacts.dropEnd_ed, VerbFacts.dropEnd_ied.
  destruct (Str.endsWith (L "i") stem); [reflexivity|].
  now destruct (_ || _).
Qed.

(** ** Splitting at white space *)

Module WordFacts.

Import Re Scan RepFacts Words.

Lemma match_at_s_plus pv i l :
  match_at s_plus pv i l
  = if 1 <=? runLen Chr.is_space l
    then Some (Found (firstn (runLen Chr.is_space l) l) [])
    else None.
Proof.
  unfold match_at, s_plus, plus. cbn [run prev pos caps rest].
  rewrite rep_greedy_final. destruct (1 <=? runLen Chr.is_space l); [|reflexivity].
  rewrite advance_pos by apply runLen_le. rewrite advance_caps.
  replace (i + runLen Chr.is_space l - i) with (runLen Chr.is_space l) by lia.
  reflexivity.
Qed.

Lemma fieldsFrom_true_plain cur c l :
  Chr.is_space c = false ->
  fieldsFrom true cur (c :: l) = fieldsFrom false cur (c :: l).
Proof. intros H. cbn [fieldsFrom]. now rewrite H. Qed.

Lemma splitLoop_fields l : forall skip cur pv i,
  (skip = runLen Chr.is_space l ->
   splitLoop s_plus skip cur pv i l = fieldsFrom true cur l)
  /\ splitLoop s_plus 0 cur pv i l = fieldsFrom false cur l.
Proof.
  induction l as [|c l IH]; intros skip cur pv i.
  - split; [intros ->|]; reflexivity.
  - assert (H0 : splitLoop s_plus 0 cur pv i (c :: l) = fieldsFrom false cur (c :: l)).
    { cbn [splitLoop fieldsFrom]. rewrite match_at_s_plus. cbn [runLen].
      destruct (Chr.is_space c) eqn:Hc.
      - cbn [Nat.leb]. cbn [matched firstn length groupsOf s_plus plus map app].
        rewrite length_firstn, Nat.min_l by apply runLen_le.
        f_equal. now apply (proj1 (IH _ _ _ _)).
      - cbn [Nat.leb]. apply (proj2 (IH 0 _ _ _)). }
    split; [|exact H0]. intros Hs. cbn [runLen] in Hs.
    destruct (Chr.is_space c) eqn:Hc.
    + subst skip. cbn [splitLoop fieldsFrom]. rewrite Hc.
      now apply (proj1 (IH _ _ _ _)).
    + subst skip. rewrite H0. symmetry. now apply fieldsFrom_true_plain.
Qed.

Lemma split_fields s : split s_plus s = fieldsFrom false [] s.
Proof.
  destruct s as [|c s]; [reflexivity|].
  unfold split. apply (proj2 (splitLoop_fields (c :: s) 0 [] None 0)).
Qed.

(** the number of pieces and the number of words among them *)
Lemma fields_count l :
  (forall cur, cur <> [] ->
     length (fieldsFrom false cur l)
     = length (filter nonEmpty (fieldsFrom false cur l))
       + (if endsBlank l then 1 else 0))
  /\ length (fieldsFrom true [] l)
     = length (filter nonEmpty (fieldsFrom true [] l))
       + (if match l with [] => true | _ :: _ => endsBlank l end then 1 else 0).
Proof.
  induction l as [|c l [IH1 IH2]].
  - split; [intros cur Hc | reflexivity].
    cbn [fieldsFrom filter]. unfold nonEmpty. rewrite length_rev.
    destruct cur; [now elim Hc | reflexivity].
  - assert (Hword : forall cur, cur <> [] ->
              length (fieldsFrom false cur (c :: l))
              = length (filter nonEmpty (fieldsFrom false cur (c :: l)))
                + (if endsBlank (c :: l) then 1 else 0)).
    { intros cur Hc. cbn [fieldsFrom]. destruct (Chr.is_space c) eqn:Hs.
      - cbn [filter length].
        assert (Hn : nonEmpty (rev cur) = true).
        { unfold nonEmpty. rewrite length_rev.
          destruct cur; [now elim Hc | reflexivity]. }
        rewrite Hn. cbn [length]. rewrite IH2.
        destruct l; cbn [endsBlank]; rewrite ?Hs; unfold str in *; lia.
      - rewrite IH1 by discriminate. destruct l; cbn [endsBlank]; rewrite ?Hs; unfold str in *; lia. }
    split; [exact Hword|].
    cbn [fieldsFrom]. destruct (Chr.is_space c) eqn:Hs.
    + rewrite IH2. destruct l; cbn [endsBlank]; rewrite ?Hs; unfold str in *; lia.
    + rewrite IH1 by discriminate. destruct l; cbn [endsBlank]; rewrite ?Hs; unfold str in *; lia.
Qed.

End WordFacts.

(** X16. The two word counters of the code differ by the white space at the
    ends of the text: [s.split(/\s+/).length], which the rule engines and
    the metrics use, counts one more than [countWords] of the tracking
    document when the text is empty or starts with white space, and one
    more when it ends with white space. *)
Theorem wordCount_countWords (s : str) :
  ClarityRules.wordCount s
  = Tracking.countWords s
    + (if Words.startsBlank s then 1 else 0)
    + (if Words.endsBlank s then 1 else 0).
Proof.
  unfold ClarityRules.wordCount, Tracking.countWords.
  rewrite WordFacts.split_fields.
  destruct s as [|c s]; [reflexivity|].
  destruct (WordFacts.fields_count s) as [H1 H2].
  unfold Words.nonEmpty in H1, H2.
  cbn [Words.fieldsFrom Words.startsBlank].
  destruct (Chr.is_space c) eqn:Hs.
  - cbn [filter length rev]. change (0 <? 0) with false. cbv iota.
    rewrite H2. destruct s; cbn [Words.endsBlank]; rewrite ?Hs; unfold str in *; lia.
  - rewrite H1 by discriminate.
    destruct s; cbn [Words.endsBlank]; rewrite ?Hs; unfold str in *; lia.
Qed.

(** ** groupChangesByType *)

Module GroupFacts.

Import Tracking Groups.

Lemma ChangeType_eqb_eq a b : ChangeType_eqb a b = true <-> a = b.
Proof. destruct a, b; simpl; split; congruence. Qed.

Lemma ChangeType_eqb_refl a : ChangeType_eqb a a = true.
Proof. now destruct a. Qed.

Lemma groupOf_push t grouped change :
  groupOf t (pushGrouped grouped change)
  = groupOf t grouped ++ (if ChangeType_eqb (type change) t then [change] else []).
Proof.
  induction grouped as [|[t' l] tl IH]; cbn [pushGrouped groupOf].
  - reflexivity.
  - destruct (ChangeType_eqb t' (type change)) eqn:E1; cbn [groupOf].
    + apply ChangeType_eqb_eq in E1. subst t'.
      destruct (ChangeType_eqb (type change) t); [reflexivity | now rewrite app_nil_r].
    + destruct (ChangeType_eqb t' t) eqn:E2; [|exact IH].
      apply ChangeType_eqb_eq in E2. subst t'.
      destruct (ChangeType_eqb (type change) t) eqn:E3; [|now rewrite app_nil_r].
      apply ChangeType_eqb_eq in E3. rewrite E3, ChangeType_eqb_refl in E1.
      discriminate.
Qed.

Lemma keys_push grouped change :
  map fst (pushGrouped grouped change)
  = if existsb (fun t => ChangeType_eqb t (type change)) (map fst grouped)
    then map fst grouped
    else map fst grouped ++ [type change].
Proof.
  induction grouped as [|[t' l] tl IH]; cbn [pushGrouped map fst existsb app];
    [reflexivity|].
  destruct (ChangeType_eqb t' (type change)); cbn [map fst orb]; [reflexivity|].
  rewrite IH. now destruct (existsb _ _).
Qed.

Lemma keys_push_NoDup grouped change :
  NoDup (map fst grouped) -> NoDup (map fst (pushGrouped grouped change)).
Proof.
  intros H. rewrite keys_push.
  destruct (existsb _ _) eqn:E; [exact H|].
  apply NoDup_app; [exact H | repeat constructor; intros [] | ].
  intros t Ht [<- | []].
  assert (Hx : existsb (fun t0 => ChangeType_eqb t0 (type change)) (map fst grouped) = true).
  { apply existsb_exists. exists (type change). split; [exact Ht | apply ChangeType_eqb_refl]. }
  congruence.
Qed.

Lemma groups_push_nonempty grouped change :
  Forall (fun g => snd g <> []) grouped ->
  Forall (fun g => snd g <> []) (pushGrouped grouped change).
Proof.
  induction 1 as [|[t l] tl H1 H2 IH]; cbn [pushGrouped].
  - repeat constructor. discriminate.
  - destruct (ChangeType_eqb t (type change)).
    + constructor; [|exact H2]. cbn [snd]. now destruct l.
    + now constructor.
Qed.

Lemma size_push grouped change :
  length (concat (map snd (pushGrouped grouped change)))
  = S (length (concat (map snd grouped))).
Proof.
  induction grouped as [|[t l] tl IH]; cbn [pushGrouped]; [reflexivity|].
  destruct (ChangeType_eqb t (type change)); cbn [map snd concat].
  - rewrite !length_app. simpl. lia.
  - rewrite !length_app, IH. lia.
Qed.

Lemma fold_push changes : forall grouped,
  let out := fold_left pushGrouped changes grouped in
  (NoDup (map fst grouped) -> NoDup (map fst out))
  /\ (Forall (fun g => snd g <> []) grouped -> Forall (fun g => snd g <> []) out)
  /\ (forall t, groupOf t out = groupOf t grouped ++ ofType t changes)
  /\ length (concat (map snd out))
     = length (concat (map snd grouped)) + length changes.
Proof.
  induction changes as [|c cs IH]; intros grouped; cbn [fold_left].
  - repeat split; auto; try lia. intros t. cbn. now rewrite app_nil_r.
  - destruct (IH (pushGrouped grouped c)) as [I1 [I2 [I3 I4]]]. repeat split.
    + intros H. now apply I1, keys_push_NoDup.
    + intros H. now apply I2, groups_push_nonempty.
    + intros t. rewrite I3, groupOf_push, <- app_assoc. f_equal.
      unfold ofType. cbn [filter]. now destruct (ChangeType_eqb (type c) t).
    + rewrite I4, size_push. cbn [length]. lia.
Qed.

Lemma groupOf_In t l grouped :
  NoDup (map fst grouped) -> In (t, l) grouped -> groupOf t grouped = l.
Proof.
  induction grouped as [|[t' l'] tl IH]; intros Hn Hin; [destruct Hin|].
  inversion Hn as [|? ? Hx Hn']; subst. cbn [groupOf].
  destruct Hin as [E | Hin].
  - injection E as -> ->. now rewrite ChangeType_eqb_refl.
  - destruct (ChangeType_eqb t' t) eqn:E; [|now apply IH].
    apply ChangeType_eqb_eq in E. subst t'. elim Hx.
    change t with (fst (t, l)). now apply in_map.
Qed.

Lemma In_groupOf t grouped :
  groupOf t grouped <> [] -> In (t, groupOf t grouped) grouped.
Proof.
  induction grouped as [|[t' l'] tl IH]; cbn [groupOf]; intros H; [now elim H|].
  destruct (ChangeType_eqb t' t) eqn:E.
  - apply ChangeType_eqb_eq in E. subst t'. now left.
  - right. now apply IH.
Qed.

End GroupFacts.

(** X17. [groupChangesByType] partitions the Change list by type: the keys
    of the result are distinct, the group of a type holds exactly the
    Changes of that type in their original order, no group is empty, a
    type with at least one Change has a group, and the groups together hold
    as many Changes as the list. *)
Theorem groupChangesByType_partition (changes : list Change) :
  let grouped := Tracking.groupChangesByType changes in
  NoDup (map fst grouped)
  /\ (forall t l, In (t, l) grouped <-> l = Groups.ofType t changes /\ l <> [])
  /\ length (concat (map snd grouped)) = length changes.
Proof.
  cbv zeta. unfold Tracking.groupChangesByType.
  destruct (GroupFacts.fold_push changes []) as [H1 [H2 [H3 H4]]].
  specialize (H1 (NoDup_nil _)). specialize (H2 (Forall_nil _)).
  cbn [Groups.groupOf app] in H3. split; [exact H1 | split; [|exact H4]].
  intros t l. split.
  - intros Hin. split.
    + rewrite <- H3. symmetry. now apply GroupFacts.groupOf_In.
    + rewrite Forall_forall in H2. apply (H2 (t, l) Hin).
  - intros [-> Hne]. rewrite <- H3 in *. now apply GroupFacts.In_groupOf.
Qed.

(** ** generateDiffView *)

Module DiffFacts.

Import Tracking.

Lemma flat_map_nth {A B} (f : A -> list B) (d : A) (l : list A) :
  flat_map (fun i => f (nth i l d)) (seq 0 (length l)) = flat_map f l.
Proof.
  induction l as [|x l IH]; [reflexivity|].
  cbn [length seq flat_map nth]. f_equal.
  rewrite <- seq_shift, flat_map_concat_map, map_map, <- flat_map_concat_map.
  exact IH.
Qed.

Lemma diffLine_same line : diffLine line line = L "  " ++ line ++ [DocumentProcessor.LF].
Proof. unfold diffLine. now rewrite str_eqb_refl. Qed.

(** the lines of a text that ends in a line feed: one more, empty line *)
Lemma splitChar_snoc sep s : forall cur,
  Str.splitChar sep cur (s ++ [sep]) = Str.splitChar sep cur s ++ [[]].
Proof.
  induction s as [|c s IH]; intros cur; cbn [Str.splitChar app].
  - unfold Chr.eqb. now rewrite Ascii.eqb_refl.
  - destruct (Chr.eqb c sep); cbn [app]; now rewrite IH.
Qed.

Lemma splitChar_nonempty sep s : forall cur, Str.splitChar sep cur s <> [].
Proof.
  induction s as [|c s IH]; intros cur; cbn [Str.splitChar]; [discriminate|].
  destruct (Chr.eqb c sep); [discriminate | apply IH].
Qed.

Lemma flat_map_ext_In {A B} (f g : A -> list B) (l : list A) :
  (forall x, In x l -> f x = g x) -> flat_map f l = flat_map g l.
Proof.
  intros H. rewrite !flat_map_concat_map. f_equal. now apply map_ext_in.
Qed.

Lemma flat_map_diff_app (a b : list str) :
  flat_map (fun i => diffLine (nth i a []) (nth i (a ++ b) []))
           (seq 0 (length a))
  = flat_map (fun line => diffLine line line) a.
Proof.
  rewrite <- (flat_map_nth (fun line => diffLine line line) [] a).
  apply flat_map_ext_In. intros i Hi. apply in_seq in Hi.
  now rewrite app_nth1 by lia.
Qed.

End DiffFacts.

(** X18. [generateDiffView] of a text against itself marks every line as
    unchanged: each line comes back behind two blanks, and no line is
    marked [-] or [+]. A line feed added at the end of the edited text is
    not reported as a change either: it shows as one more unchanged, empty
    line. *)
Theorem generateDiffView_unchanged (text : str) :
  Tracking.generateDiffView text text
  = flat_map (fun line => L "  " ++ line ++ [DocumentProcessor.LF])
             (Str.splitChar DocumentProcessor.LF [] text)
  /\ Tracking.generateDiffView text (text ++ [DocumentProcessor.LF])
     = Tracking.generateDiffView text text ++ L "  " ++ [DocumentProcessor.LF].
Proof.
  assert (H : Tracking.generateDiffView text text
              = flat_map (fun line => Tracking.diffLine line line)
                         (Str.splitChar DocumentProcessor.LF [] text)).
  { unfold Tracking.generateDiffView. rewrite Nat.max_id.
    apply (DiffFacts.flat_map_nth (fun line => Tracking.diffLine line line)). }
  split.
  - rewrite H. apply flat_map_ext. intros line. apply DiffFacts.diffLine_same.
  - rewrite H. unfold Tracking.generateDiffView.
    rewrite DiffFacts.splitChar_snoc, length_app. cbn [length].
    rewrite Nat.max_r by lia. rewrite Nat.add_1_r, seq_S, flat_map_app. f_equal.
    + apply DiffFacts.flat_map_diff_app.
    + cbn [flat_map Nat.add]. rewrite app_nil_r.
      rewrite nth_overflow by lia. rewrite app_nth2 by lia.
      rewrite Nat.sub_diag. reflexivity.
Qed.

(** ** The clarity scores *)

Module ScoreFacts.

Local Open Scope Z_scope.

Import Readability.

Lemma lengthZ_nonneg {A} (l : list A) : 0 <= lengthZ l.
Proof. unfold lengthZ. lia. Qed.

Lemma calculateClarityScore_bounds text :
  0 <= Metrics.calculateClarityScore text <= 100.
Proof.
  unfold Metrics.calculateClarityScore.
  destruct (lengthZ (Re.matchAll ClarityRules.re_sentence text) =? 0); [lia|].
  cbv zeta.
  pose proof (lengthZ_nonneg (Re.matchAll Metrics.passiveVoice text)).
  pose proof (lengthZ_nonneg (Re.matchAll Metrics.complexWord text)).
  destruct (Metrics.gtQ _ 20), (Metrics.gtQ _ 25); lia.
Qed.

Lemma fold_deduct issues : forall score,
  score - 15 * lengthZ issues
  <= fold_left CheckClarity.deduct issues score
  <= score - 3 * lengthZ issues.
Proof.
  unfold lengthZ. induction issues as [|i issues IH]; intros score;
    cbn [fold_left length]; [lia|].
  specialize (IH (CheckClarity.deduct score i)).
  unfold CheckClarity.deduct in *. destruct (CheckClarity.severity i); lia.
Qed.

Lemma checkClarity_score_bounds issues statistics :
  length issues = 6%nat ->
  0 <= CheckClarity.calculateClarityScore issues statistics <= 82.
Proof.
  intros Hl. unfold CheckClarity.calculateClarityScore.
  pose proof (fold_deduct issues 100) as H. unfold lengthZ in H. rewrite Hl in H.
  cbv zeta.
  destruct (CheckClarity.gt (CheckClarity.averageSentenceLength statistics) 25),
    (CheckClarity.gt (CheckClarity.passiveVoicePercentage statistics) 20),
    (CheckClarity.gt (CheckClarity.complexWordPercentage statistics) 15),
    (CheckClarity.lt (CheckClarity.readabilityScore statistics) 50),
    (CheckClarity.gt (CheckClarity.jargonDensity statistics) 5); lia.
Qed.

End ScoreFacts.

(** X19. The clarity score of [DocumentProcessor] lies between 0 and 100
    for every text, and it is 0 for a text without [.], [!] and [?]. *)
Theorem clarityScore_bounds (text : str) :
  (0 <= Metrics.calculateClarityScore text <= 100)%Z
  /\ (Sentences.unterminated text = true ->
      Metrics.calculateClarityScore text = 0%Z).
Proof.
  split; [apply ScoreFacts.calculateClarityScore_bounds|].
  intros H. unfold Metrics.calculateClarityScore.
  now rewrite SentenceFacts.no_sentence.
Qed.

Lemma clarityScore_bounds_witness :
  Sentences.unterminated (L "it was noted") = true
  /\ Metrics.calculateClarityScore (L "it was noted") = 0%Z.
Proof.
  assert (H : Sentences.unterminated (L "it was noted") = true)
    by (vm_compute; reflexivity).
  split; [exact H|]. exact (proj2 (clarityScore_bounds (L "it was noted")) H).
Defined.

(** X20. For a document type other than [full_paper], the metrics of a
    text without [.], [!] and [?] are all 0 but for the count of passive
    constructions, which is taken from the input: the text counts as
    having clarity 0, no sentence and no word removed. *)
Theorem metrics_unterminated (text : str) (type : DocType) (e : Engines) :
  type <> full_paper ->
  Sentences.unterminated text = true ->
  Metrics.calculateMetrics text
    (doc_sections (fst (DocumentProcessor.processDocument text type e)))
  = Metrics.mkMetrics 0 0 0 0
      (length (Re.matchAll Metrics.passiveVoice text)) 0.
Proof.
  intros Ht Hu.
  rewrite (@EditFacts.processDocument_unterminated text type e Ht Hu).
  unfold Metrics.calculateMetrics. cbn [doc_sections map Str.join].
  change (EditDocument.editedOrContent
            (mkSection (L "Content") text (Some text) (Some []) (Some [])))
    with text.
  unfold Metrics.calculateClarityScore, Metrics.calculateComplexity,
    Metrics.countLongSentences.
  rewrite (ReadabilityFacts.calculateReadability_unterminated text Hu).
  rewrite (SentenceFacts.no_sentence text Hu).
  cbn [Readability.lengthZ length Z.of_nat Z.eqb filter].
  now rewrite Z.sub_diag.
Qed.

Lemma metrics_unterminated_witness :
  Metrics.calculateMetrics (L "it was noted")
    (doc_sections (fst (DocumentProcessor.processDocument (L "it was noted")
                          section_doc DocumentProcessor.newEngines)))
  = Metrics.mkMetrics 0 0 0 0 1 0.
Proof.
  apply (metrics_unterminated (L "it was noted") DocumentProcessor.newEngines).
  - discriminate.
  - vm_compute. reflexivity.
Defined.

(** X21. The score of [checkClarity] lies between 0 and 82 for every text
    and for whatever statistics are computed: each of the six checks costs
    3 points or more, also when it finds nothing. *)
Theorem checkClarity_score_at_most_82
        (calculateStatistics : str -> list str -> list str -> CheckClarity.Statistics)
        (text : str) :
  (0 <= CheckClarity.score (CheckClarity.checkClarity calculateStatistics text)
   <= 82)%Z.
Proof.
  unfold CheckClarity.checkClarity. cbn [CheckClarity.score].
  apply ScoreFacts.checkClarity_score_bounds. reflexivity.
Qed.

(** ** Runs of white space replaced by one blank *)

Module BlankFacts.

Import Re Scan RepFacts Contract Blanks TrimFacts.

Lemma render_collapse l : forall skip pv i,
  (skip = runLen Chr.is_space l ->
   render (fun _ => L " ") (scan s_plus skip pv i l) = collapse true l)
  /\ render (fun _ => L " ") (scan s_plus 0 pv i l) = collapse false l.
Proof.
  induction l as [|c l IH]; intros skip pv i.
  - split; [intros ->|]; reflexivity.
  - assert (H0 : render (fun _ => L " ") (scan s_plus 0 pv i (c :: l))
                 = collapse false (c :: l)).
    { cbn [scan collapse]. rewrite WordFacts.match_at_s_plus. cbn [runLen].
      destruct (Chr.is_space c) eqn:Hc.
      - cbn [Nat.leb matched firstn length].
        rewrite length_firstn, Nat.min_l by apply runLen_le.
        rewrite render_hit. cbn [L list_ascii_of_string app]. f_equal.
        now apply (proj1 (IH _ _ _)).
      - cbn [Nat.leb]. rewrite render_plain_cons. f_equal.
        apply (proj2 (IH 0 _ _)). }
    split; [|exact H0]. intros Hs. cbn [runLen] in Hs.
    destruct (Chr.is_space c) eqn:Hc.
    + subst skip. cbn [scan collapse]. rewrite Hc. now apply (proj1 (IH _ _ _)).
    + subst skip. rewrite H0. cbn [collapse]. now rewrite Hc.
Qed.

Lemma collapseSpaces_collapse s : StyleRules.collapseSpaces s = collapse false s.
Proof. apply (proj2 (render_collapse s 0 None 0)). Qed.

Lemma collapse_normal l : forall b, normalFrom b (collapse b l) = true.
Proof.
  induction l as [|c l IH]; intros b; [reflexivity|].
  cbn [collapse]. destruct (Chr.is_space c) eqn:Hc.
  - destruct b; [apply IH|]. cbn [normalFrom]. now rewrite IH.
  - cbn [normalFrom]. rewrite Hc. apply IH.
Qed.

Lemma normal_collapse l : forall b, normalFrom b l = true -> collapse b l = l.
Proof.
  induction l as [|c l IH]; intros b H; [reflexivity|].
  cbn [normalFrom collapse] in *. destruct (Chr.is_space c) eqn:Hc.
  - apply andb_true_iff in H. destruct H as [H H3].
    apply andb_true_iff in H. destruct H as [H1 H2].
    destruct b; [discriminate|]. apply Ascii.eqb_eq in H2. subst c.
    f_equal. now apply IH.
  - f_equal. now apply IH.
Qed.

Lemma normalFrom_weaken l : normalFrom true l = true -> normalFrom false l = true.
Proof.
  destruct l as [|c l]; [reflexivity|]. cbn [normalFrom].
  destruct (Chr.is_space c); [discriminate | auto].
Qed.

Lemma normal_suffix a : forall b c,
  normalFrom b (a ++ c) = true -> normalFrom false c = true.
Proof.
  induction a as [|x a IH]; intros b c H.
  - destruct b; [now apply normalFrom_weaken | exact H].
  - cbn [app normalFrom] in H. destruct (Chr.is_space x).
    + apply andb_true_iff in H. destruct H as [_ H]. now apply IH in H.
    + now apply IH in H.
Qed.

Lemma normal_prefix a : forall b c,
  normalFrom b (a ++ c) = true -> normalFrom b a = true.
Proof.
  induction a as [|x a IH]; intros b c H; [reflexivity|].
  cbn [app normalFrom] in *. destruct (Chr.is_space x).
  - apply andb_true_iff in H. destruct H as [H1 H2].
    rewrite H1. now apply IH in H2.
  - now apply IH in H.
Qed.

Lemma trimStart_suffix s : exists ws, s = ws ++ Str.trimStart s.
Proof.
  induction s as [|c s [ws IH]]; [now exists []|].
  cbn [Str.trimStart]. destruct (Chr.is_space c).
  - exists (c :: ws). cbn [app]. now f_equal.
  - now exists [].
Qed.

Lemma trimEnd_prefix s : exists ws, s = Str.trimEnd s ++ ws.
Proof.
  unfold Str.trimEnd. destruct (trimStart_suffix (rev s)) as [ws H].
  exists (rev ws). rewrite <- rev_app_distr, <- H. now rewrite rev_involutive.
Qed.

Lemma normal_trim s : normal s = true -> normal (Str.trim s) = true.
Proof.
  unfold normal, Str.trim. intros H.
  destruct (trimStart_suffix s) as [ws Hs].
  destruct (trimEnd_prefix (Str.trimStart s)) as [ws' He].
  rewrite Hs in H. apply normal_suffix in H. rewrite He in H.
  now apply normal_prefix in H.
Qed.

(** the normalisation [s.replace(/\s+/g, ' ').trim()] reaches a fixed point
    in one step *)
Lemma normalise_fixed s :
  let r := Str.trim (StyleRules.collapseSpaces s) in
  Str.trim (StyleRules.collapseSpaces r) = r /\ normal r = true.
Proof.
  cbv zeta. rewrite !collapseSpaces_collapse.
  assert (Hn : normal (Str.trim (collapse false s)) = true).
  { apply normal_trim. apply (collapse_normal s false). }
  split; [|exact Hn].
  rewrite (normal_collapse _ false Hn).
  apply trim_idem.
Qed.

End BlankFacts.

(** X22. The text that [enforceActiveWriting] returns is normalised with
    respect to white space: its only white-space characters are single
    blanks between words, it neither starts nor ends with white space, and
    the normalisation [replace(/\s+/g, ' ').trim()] leaves it as it is. *)
Theorem enforceActiveWriting_normalised (text : str) (cs : list Change) :
  let result := fst (StyleRules.enforceActiveWriting text cs) in
  Str.trim (StyleRules.collapseSpaces result) = result
  /\ Blanks.normal result = true
  /\ Str.trim result = result.
Proof.
  cbv zeta. unfold StyleRules.enforceActiveWriting.
  destruct (rewriteEach (dictRules StyleRules.weakVerbs) text) as [result hasChanges].
  unfold bind, ret. destruct (pushIf hasChanges _ cs) as [u cs']. cbn [fst].
  destruct (BlankFacts.normalise_fixed result) as [H1 H2].
  split; [exact H1 | split; [exact H2 | apply TrimFacts.trim_idem]].
Qed.

(** ** What a match can consume *)

Module LangFacts.

Import Re Scan RepFacts Lang.

Lemma rep_lang g p k : forall l min pv i cs res,
  rep g p k min pv i cs l = Some res ->
  exists n, min <= n <= runLen p l /\ k (advance n pv i l cs) = Some res.
Proof.
  induction l as [|c l IH]; intros min pv i cs res H; simpl in H.
  - destruct min; [|discriminate]. exists 0. simpl. auto.
  - assert (Hhere :
             match min with 0 => k (MState pv i (c :: l) cs) | S _ => None end
             = Some res ->
             exists n, min <= n <= runLen p (c :: l)
                       /\ k (advance n pv i (c :: l) cs) = Some res).
    { destruct min; [|discriminate]. intros Hk. exists 0.
      split; [lia | exact Hk]. }
    destruct (p c) eqn:Hp; [|now apply Hhere].
    assert (Hmore :
             rep g p k (Nat.pred min) (Some c) (S i) cs l = Some res ->
             exists n, min <= n <= runLen p (c :: l)
                       /\ k (advance n pv i (c :: l) cs) = Some res).
    { intros Hr. apply IH in Hr. destruct Hr as (n & Hn & Hk).
      exists (S n). cbn [runLen]. rewrite Hp. split; [lia | exact Hk]. }
    destruct g; unfold orElse in H.
    + destruct (rep true p k (Nat.pred min) (Some c) (S i) cs l);
        [apply Hmore | apply Hhere]; exact H.
    + destruct (match min with 0 => k (MState pv i (c :: l) cs) | S _ => None end);
        [apply Hhere | apply Hmore]; exact H.
Qed.

Lemma forallb_run p l : forall n, n <= runLen p l -> forallb p (firstn n l) = true.
Proof.
  induction l as [|c l IH]; intros n Hn.
  - now rewrite firstn_nil.
  - destruct n as [|n]; [reflexivity|]. cbn [runLen] in Hn.
    destruct (p c) eqn:Hp; [|lia]. cbn [firstn forallb]. rewrite Hp.
    apply IH. lia.
Qed.

(** soundness of the matcher: what lies between the start and the position
    handed to the continuation is in the language of the expression *)
Lemma run_lang r : forall k st res,
  run r k st = Some res ->
  exists w st1,
    k st1 = Some res /\ lang r w
    /\ rest st = w ++ rest st1 /\ pos st1 = pos st + length w.
Proof.
  induction r as [ | p | a IHa b IHb | a IHa b IHb | g min p | n r IH | | | ];
    intros k st res H; cbn [run] in H.
  - exists [], st. cbn. auto.
  - destruct (rest st) as [|c l'] eqn:Hrest; [discriminate|].
    destruct (p c) eqn:Hp; [|discriminate].
    exists [c]. eexists. split; [exact H|]. cbn [lang rest pos length app].
    repeat split; [now exists c | lia].
  - apply IHa in H. destruct H as (u & st1 & H & La & Ra & Pa).
    apply IHb in H. destruct H as (v & st2 & H & Lb & Rb & Pb).
    exists (u ++ v), st2. split; [exact H|]. cbn [lang].
    split; [now exists u, v|]. rewrite Ra, Rb, <- app_assoc, length_app.
    split; [reflexivity | lia].
  - unfold orElse in H. destruct (run a k st) eqn:E.
    + rewrite <- E in H. apply IHa in H. destruct H as (w & st1 & H & L & R & P).
      exists w, st1. cbn [lang]. auto.
    + apply IHb in H. destruct H as (w & st1 & H & L & R & P).
      exists w, st1. cbn [lang]. auto.
  - apply rep_lang in H. destruct H as (m & Hm & H).
    pose proof (runLen_le p (rest st)) as Hle.
    exists (firstn m (rest st)). eexists. split; [exact H|].
    cbn [lang]. rewrite advance_rest, firstn_skipn, length_firstn.
    rewrite advance_pos by lia. rewrite Nat.min_l by lia.
    repeat split; [lia | apply forallb_run; lia].
  - apply IH in H. destruct H as (w & st1 & H & L & R & P).
    exists w. eexists. split; [exact H|]. cbn [lang rest pos]. auto.
  - destruct (pos st =? 0); [|discriminate].
    exists [], st. cbn. auto.
  - destruct (rest st) eqn:Hrest; [|discriminate].
    exists [], st. cbn. rewrite Hrest. auto.
  - destruct (xorb _ _); [|discriminate].
    exists [], st. cbn. auto.
Qed.

Lemma match_at_lang r pv i l f :
  match_at r pv i l = Some f -> lang r (matched f).
Proof.
  unfold match_at.
  destruct (run r (fun st => Some st) (MState pv i l [])) as [st|] eqn:E;
    [|discriminate].
  intros [= <-]. apply run_lang in E.
  destruct E as (w & st1 & [= ->] & Lw & R & P). cbn [rest pos matched] in *.
  rewrite P, R. replace (i + length w - i) with (length w) by lia.
  rewrite firstn_app, firstn_all, Nat.sub_diag. cbn [firstn].
  now rewrite app_nil_r.
Qed.

End LangFacts.

(** ** A replacement that puts every match back *)

Module SameFacts.

Import Re Scan Contract.

Lemma render_scan_same r g :
  (forall pv i l f, match_at r pv i l = Some f -> g f = matched f) ->
  forall l skip pv i,
    skip <= length l -> render g (scan r skip pv i l) = skipn skip l.
Proof.
  intros Hg. induction l as [|c l IH]; intros skip pv i Hs.
  - cbn [length] in Hs. assert (skip = 0) as -> by lia. cbn [scan skipn].
    destruct (match_at r pv i []) as [f|] eqn:E; [|reflexivity].
    rewrite render_hit, (Hg _ _ _ _ E), (matched_nil _ _ _ E). reflexivity.
  - destruct skip as [|n].
    + cbn [scan skipn]. destruct (match_at r pv i (c :: l)) as [f|] eqn:E.
      * rewrite render_hit, (Hg _ _ _ _ E).
        destruct (length (matched f)) as [|n] eqn:Hl.
        -- apply length_zero_iff_nil in Hl. rewrite Hl, render_plain_cons.
           cbn [app]. f_equal. apply (IH 0). lia.
        -- destruct (matched_cons r pv i c l E Hl) as [Hm Hn].
           rewrite Hm, IH by exact Hn. cbn [app]. f_equal. apply firstn_skipn.
      * rewrite render_plain_cons. f_equal. apply (IH 0). lia.
    + cbn [scan skipn]. apply IH. cbn [length] in Hs. lia.
Qed.

Lemma replaceAll_same r g s :
  (forall pv i l f, match_at r pv i l = Some f -> g f = matched f) ->
  replaceAll r g s = s.
Proof.
  intros Hg. unfold replaceAll.
  now rewrite (@render_scan_same r g Hg s 0 None 0 (Nat.le_0_l _)).
Qed.

End SameFacts.

(** ** The pattern [it is ... that] of fixPassiveVoice *)

Module ThatFacts.

Import Re Scan RepFacts ReFacts Lang Guard Literals LitFacts ClarityRules.

Lemma space_toUpper c : Chr.is_space c = true -> Chr.toUpper c = c.
Proof. destruct c as [[] [] [] [] [] [] [] []]; vm_compute; auto; discriminate. Qed.

Lemma word_not_space c : Chr.is_word c = true -> Chr.is_space c = false.
Proof. destruct c as [[] [] [] [] [] [] [] []]; vm_compute; auto. Qed.

(** a character that equals [x] up to its case is white space only if [x]
    is *)
Lemma ci_not_space x c :
  Chr.eqb_ci x c = true -> Chr.is_space x = false -> Chr.is_space c = false.
Proof.
  unfold Chr.eqb_ci. intros H Hx. apply Ascii.eqb_eq in H.
  destruct (Chr.is_space c) eqn:Hc; [|reflexivity].
  apply TrimFacts.toUpper_not_space in Hx.
  rewrite H, (space_toUpper c Hc), Hc in Hx. discriminate.
Qed.

Lemma ci_trans x y c : Chr.eqb_ci x c = true -> Chr.eqb_ci y c = Chr.eqb_ci y x.
Proof.
  unfold Chr.eqb_ci. intros H. apply Ascii.eqb_eq in H. now rewrite H.
Qed.

Lemma space_not_t c : Chr.is_space c = true -> Chr.eqb_ci "t" c = false.
Proof.
  intros Hc. destruct (Chr.eqb_ci "t" c) eqn:E; [|reflexivity].
  apply ci_not_space in E; [congruence | reflexivity].
Qed.

(** *** The shape of a match *)

Lemma lang_lit2 a b u :
  lang (lit true (String a (String b EmptyString))) u ->
  exists c1 c2, u = [c1; c2] /\ Chr.eqb_ci a c1 = true /\ Chr.eqb_ci b c2 = true.
Proof.
  unfold lit. cbn [list_ascii_of_string map seqs lang].
  intros (u1 & u2 & -> & (c1 & -> & H1) & (c2 & -> & H2)).
  now exists c1, c2.
Qed.

Lemma lang_lit3 a b c u :
  lang (lit true (String a (String b (String c EmptyString)))) u ->
  exists c1 c2 c3,
    u = [c1; c2; c3]
    /\ Chr.eqb_ci a c1 = true /\ Chr.eqb_ci b c2 = true /\ Chr.eqb_ci c c3 = true.
Proof.
  unfold lit. cbn [list_ascii_of_string map seqs lang].
  intros (u1 & u2 & -> & (c1 & -> & H1) & (u3 & u4 & -> & (c2 & -> & H2) & (c3 & -> & H3))).
  now exists c1, c2, c3.
Qed.

Lemma lang_lit4 a b c d u :
  lang (lit true (String a (String b (String c (String d EmptyString))))) u ->
  exists c1 c2 c3 c4,
    u = [c1; c2; c3; c4]
    /\ Chr.eqb_ci a c1 = true /\ Chr.eqb_ci b c2 = true
    /\ Chr.eqb_ci c c3 = true /\ Chr.eqb_ci d c4 = true.
Proof.
  unfold lit. cbn [list_ascii_of_string map seqs lang].
  intros (u1 & u2 & -> & (c1 & -> & H1)
          & (u3 & u4 & -> & (c2 & -> & H2)
             & (u5 & u6 & -> & (c3 & -> & H3) & (c4 & -> & H4)))).
  now exists c1, c2, c3, c4.
Qed.

(** *** White space behind "at" *)

Lemma safe_solid u : forall p2 p1 v,
  solid u = true ->
  safe p2 p1 (u ++ v) = safe (fst (tail2 p2 p1 u)) (snd (tail2 p2 p1 u)) v.
Proof.
  induction u as [|c u IH]; intros p2 p1 v H; [reflexivity|].
  unfold solid in H. cbn [forallb] in H. apply andb_true_iff in H.
  destruct H as [Hc Hu]. apply negb_true_iff in Hc.
  cbn [app safe tail2]. rewrite Hc. cbn [andb negb]. now apply IH.
Qed.

Lemma safe_blank s : forall p2 p1 v,
  forallb Chr.is_space s = true -> 1 <= length s ->
  atBefore p2 p1 = false ->
  exists q2 q1, Chr.is_space q1 = true /\ safe p2 p1 (s ++ v) = safe q2 q1 v.
Proof.
  induction s as [|c s IH]; intros p2 p1 v Hs Hl Ha; [cbn in Hl; lia|].
  cbn [forallb] in Hs. apply andb_true_iff in Hs. destruct Hs as [Hc Hs].
  cbn [app safe]. rewrite Ha, andb_false_r. cbn [negb andb].
  destruct s as [|d s'].
  - exists p1, c. now split.
  - apply IH; [exact Hs | cbn; lia |].
    unfold atBefore. now rewrite (space_not_t c Hc), andb_false_r.
Qed.

Lemma tail2_snoc2 u a b : forall p2 p1, tail2 p2 p1 (u ++ [a; b]) = (a, b).
Proof.
  induction u as [|c u IH]; intros p2 p1; [reflexivity|].
  cbn [app tail2]. apply IH.
Qed.

Lemma solid_word u : forallb Chr.is_word u = true -> solid u = true.
Proof.
  unfold solid. induction u as [|c u IH]; [reflexivity|].
  cbn [forallb]. intros H. apply andb_true_iff in H. destruct H as [Hc Hu].
  now rewrite (word_not_space c Hc), IH.
Qed.

Lemma solid_app u v : solid (u ++ v) = solid u && solid v.
Proof. unfold solid. apply forallb_app. Qed.

(** the text of a match of [it\s+(?:is|was)\s+(\w+ed)\s+that] holds no
    "that" in front of white space *)
Lemma itIsThat_safe m : lang re_itIsThat m -> safe " " " " m = true.
Proof.
  unfold re_itIsThat. cbn [seqs lang].
  intros (u1 & r1 & -> & L1 & s1 & r2 & -> & [Hs1 Bs1]
          & u2 & r3 & -> & L2 & s2 & r4 & -> & [Hs2 Bs2]
          & u3 & r5 & -> & (x & y & -> & [Hx Wx] & L3)
          & s3 & u4 & -> & [Hs3 Bs3] & L4).
  apply lang_lit2 in L1. destruct L1 as (i1 & t1 & -> & Hi1 & Ht1).
  apply lang_lit2 in L3. destruct L3 as (e3 & d3 & -> & He3 & Hd3).
  apply lang_lit4 in L4. destruct L4 as (a4 & b4 & c4 & d4 & -> & Ha4 & Hb4 & Hc4 & Hd4).
  (* "it" *)
  rewrite safe_solid.
  2:{ unfold solid. cbn [forallb].
      rewrite (ci_not_space _ _ Hi1 eq_refl), (ci_not_space _ _ Ht1 eq_refl).
      reflexivity. }
  cbn [tail2 fst snd].
  destruct (@safe_blank s1 i1 t1 (u2 ++ s2 ++ (x ++ [e3; d3]) ++ s3 ++ [a4; b4; c4; d4])
              Bs1 Hs1) as (q2 & q1 & Hq1 & ->).
  { unfold atBefore. now rewrite (ci_trans _ "a" _ Hi1). }
  (* "is" or "was" *)
  assert (H2 : exists w a b, u2 = w ++ [a; b] /\ solid u2 = true
                             /\ Chr.eqb_ci "s" b = true).
  { destruct L2 as [L2 | L2].
    - apply lang_lit2 in L2. destruct L2 as (c1 & c2 & -> & H1 & H2).
      exists [], c1, c2. repeat split; auto. unfold solid. cbn [forallb].
      now rewrite (ci_not_space _ _ H1 eq_refl), (ci_not_space _ _ H2 eq_refl).
    - apply lang_lit3 in L2. destruct L2 as (c1 & c2 & c3 & -> & H1 & H2 & H3).
      exists [c1], c2, c3. repeat split; auto. unfold solid. cbn [forallb].
      now rewrite (ci_not_space _ _ H1 eq_refl), (ci_not_space _ _ H2 eq_refl),
        (ci_not_space _ _ H3 eq_refl). }
  destruct H2 as (w2 & a2 & b2 & E2 & S2 & Hb2).
  rewrite safe_solid by exact S2. rewrite E2, tail2_snoc2. cbn [fst snd].
  destruct (@safe_blank s2 a2 b2 ((x ++ [e3; d3]) ++ s3 ++ [a4; b4; c4; d4])
              Bs2 Hs2) as (q4 & q3 & Hq3 & ->).
  { unfold atBefore. now rewrite (ci_trans _ "t" _ Hb2), andb_false_r. }
  (* the participle *)
  rewrite safe_solid.
  2:{ rewrite solid_app, (solid_word x Wx). unfold solid. cbn [forallb].
      now rewrite (ci_not_space _ _ He3 eq_refl), (ci_not_space _ _ Hd3 eq_refl). }
  rewrite tail2_snoc2. cbn [fst snd].
  destruct (@safe_blank s3 e3 d3 [a4; b4; c4; d4] Bs3 Hs3) as (q6 & q5 & Hq5 & ->).
  { unfold atBefore. now rewrite (ci_trans _ "t" _ Hd3), andb_false_r. }
  (* "that" *)
  rewrite <- (app_nil_r [a4; b4; c4; d4]). rewrite safe_solid; [reflexivity|].
  unfold solid. cbn [forallb].
  now rewrite (ci_not_space _ _ Ha4 eq_refl), (ci_not_space _ _ Hb4 eq_refl),
    (ci_not_space _ _ Hc4 eq_refl), (ci_not_space _ _ Hd4 eq_refl).
Qed.

(** *** No match of [that\s+(.+)] inside *)

Lemma safe_step p2 p1 c m : safe p2 p1 (c :: m) = true -> safe p1 c m = true.
Proof. cbn [safe]. intros H. apply andb_true_iff in H. tauto. Qed.

Lemma safe_not_thatSpace l p2 p1 : safe p2 p1 l = true -> thatSpace l = false.
Proof.
  intros H. unfold thatSpace.
  destruct l as [|c0 [|c1 [|c2 [|c3 [|c4 r]]]]]; try reflexivity;
    try (cbn [skipn]; apply andb_false_r).
  cbn [skipn L list_ascii_of_string prefix_ci].
  do 3 apply safe_step in H. cbn [safe] in H.
  apply andb_true_iff in H. destruct H as [_ H].
  apply andb_true_iff in H. destruct H as [H _].
  unfold atBefore in H.
  destruct (Chr.is_space c4); [|now rewrite !andb_false_r].
  destruct (Chr.eqb_ci "a" c2); [|now rewrite !andb_false_r].
  destruct (Chr.eqb_ci "t" c3); [discriminate | now rewrite !andb_false_r].
Qed.

Lemma match_at_afterThat l pv i :
  thatSpace l = false -> match_at re_afterThat pv i l = None.
Proof.
  unfold thatSpace. intros H.
  destruct (prefix_ci (L "that") l) eqn:Hp;
    [|now apply match_at_lit_seq].
  cbn [andb] in H. unfold match_at, re_afterThat, lit.
  cbn [seqs run]. rewrite run_lit_ci. fold (L "that"). rewrite Hp.
  destruct l as [|c0 [|c1 [|c2 [|c3 r]]]];
    try (cbn [L list_ascii_of_string prefix_ci] in Hp;
         rewrite ?andb_false_r in Hp; discriminate).
  cbn [skipn] in H. cbn [L list_ascii_of_string length advance].
  cbn [s_plus plus run prev pos caps rest].
  destruct r as [|c4 r]; [reflexivity|]. cbn [rep]. now rewrite H.
Qed.

Lemma safe_silent l : forall p2 p1 pv i,
  safe p2 p1 l = true -> silent re_afterThat pv i l.
Proof.
  induction l as [|c l IH]; intros p2 p1 pv i H.
  - apply silent_nil. now apply match_at_afterThat.
  - apply silent_cons. split.
    + apply match_at_afterThat. now apply (safe_not_thatSpace _ p2 p1).
    + apply (IH p1 c). now apply safe_step in H.
Qed.

(** [restructureItIs] returns the match it is given *)
Lemma restructureItIs_same pv i l f :
  match_at re_itIsThat pv i l = Some f ->
  restructureItIs (matched f) (cap f 1) = matched f.
Proof.
  intros H. apply LangFacts.match_at_lang, itIsThat_safe in H.
  unfold restructureItIs, exec.
  rewrite (scan1_silent _ _ _ _ (safe_silent (matched f) _ _ None 0 H)).
  now rewrite hits_plain.
Qed.

Lemma itIsThat_same s :
  replaceAll re_itIsThat (fun m => restructureItIs (matched m) (cap m 1)) s = s.
Proof. apply SameFacts.replaceAll_same. apply restructureItIs_same. Qed.

End ThatFacts.

(** X23. The second pattern of [fixPassiveVoice],
    [it\s+(?:is|was)\s+(\w+ed)\s+that], never rewrites anything: the text of
    a match ends with "that" and holds no "that" in front of white space,
    so [restructureItIs] finds nothing behind "that" and returns the match.
    A sentence in which the first and the third pattern find nothing is
    therefore returned as it is, with no Change, also when it holds
    "it is ... that". *)
Theorem fixPassiveVoice_ignores_itIsThat (sentence : str) (changes : list Change) :
  Re.replaceAll ClarityRules.re_itIsThat
    (fun m => ClarityRules.restructureItIs (Re.matched m) (Re.cap m 1)) sentence
  = sentence
  /\ (Re.test ClarityRules.re_passiveBy sentence = false ->
      Re.test ClarityRules.re_hasBeen sentence = false ->
      ClarityRules.fixPassiveVoice sentence changes = (sentence, changes)).
Proof.
  split; [apply ThatFacts.itIsThat_same|].
  intros H1 H3. unfold ClarityRules.fixPassiveVoice, rewriteEach,
    ClarityRules.passivePatterns.
  cbn [fold_left rewriteStep fst snd].
  rewrite (ReFacts.replaceAll_absent _ _ _ H1), str_eqb_refl.
  rewrite ThatFacts.itIsThat_same, str_eqb_refl.
  rewrite (ReFacts.replaceAll_absent _ _ _ H3), str_eqb_refl.
  reflexivity.
Qed.

Lemma fixPassiveVoice_ignores_itIsThat_witness :
  Re.test ClarityRules.re_itIsThat Guard.believed = true
  /\ ClarityRules.fixPassiveVoice Guard.believed [] = (Guard.believed, []).
Proof.
  split; [vm_compute; reflexivity|].
  apply (proj2 (fixPassiveVoice_ignores_itIsThat Guard.believed [])).
  - vm_compute. reflexivity.
  - vm_compute. reflexivity.
Defined.

(** ** One edited sentence per sentence *)

Module CountFacts.

Import DocumentProcessor.

Lemma forEach_splitSentence_length xs : forall acc e,
  length (fst (forEach splitSentence acc xs e)) = length acc + length xs.
Proof.
  induction xs as [|x xs IH]; intros acc e; cbn [forEach].
  - cbn. lia.
  - unfold bind. destruct (splitSentence acc x e) as [acc' e'] eqn:E.
    rewrite IH. cbn [length]. unfold splitSentence in E.
    destruct (25 <? ClarityRules.wordCount (Str.trim x)).
    + unfold bind, ret in E. destruct (onClarity _ e) as [result e1].
      injection E as <- <-. rewrite length_app. cbn. lia.
    + unfold ret in E. injection E as <- <-. rewrite length_app. cbn. lia.
Qed.

Lemma splitIntoSentences_length text e :
  length (fst (splitIntoSentences text e))
  = length (Re.matchAll ClarityRules.re_sentence text).
Proof.
  rewrite SplitFacts.splitIntoSentences_eq.
  now rewrite forEach_splitSentence_length.
Qed.

Lemma mapSentences_length ss : forall e,
  length (fst (mapSentences ss e)) = length ss.
Proof.
  induction ss as [|s ss IH]; intros e; [reflexivity|].
  cbn [mapSentences]. unfold bind, ret.
  destruct (processSentence s e) as [r e1].
  specialize (IH e1). destruct (mapSentences ss e1) as [rs e2].
  cbn [fst length] in *. now rewrite IH.
Qed.

End CountFacts.

(** X24. The callback of a section hands exactly one edited sentence to the
    join per match of the sentence pattern in the content of the section: a
    long sentence that [splitLongSentences] cuts into several sentences
    stays one entry and goes through [processSentence] as one text. *)
Theorem one_entry_per_sentence (section : Section_) (e : Engines) :
  length (snd (fst (DocumentProcessor.sectionStart section e)))
  = length (Re.matchAll ClarityRules.re_sentence (content section))
  /\ length (fst (DocumentProcessor.splitIntoSentences (content section) e))
     = length (Re.matchAll ClarityRules.re_sentence (content section)).
Proof.
  split; [|apply CountFacts.splitIntoSentences_length].
  unfold DocumentProcessor.sectionStart, bind, ret.
  pose proof (CountFacts.splitIntoSentences_length (content section) e) as H.
  destruct (DocumentProcessor.splitIntoSentences (content section) e) as [ss e1].
  pose proof (CountFacts.mapSentences_length ss e1) as H1.
  destruct (DocumentProcessor.mapSentences ss e1) as [es e2].
  cbn [fst snd] in *. congruence.
Qed.

(** ** removeParentheticals without brackets *)

Module BracketFacts.

Import Re Scan ReFacts StyleRules.

(** an expression that opens with a class is silent on a text without a
    character of the class *)
Lemma silent_cls p r l : forall pv i,
  forallb (fun c => negb (p c)) l = true -> silent (Seq (Cls p) r) pv i l.
Proof.
  induction l as [|c l IH]; intros pv i H.
  - apply silent_nil. reflexivity.
  - cbn [forallb] in H. apply andb_true_iff in H. destruct H as [Hc Hl].
    apply negb_true_iff in Hc. apply silent_cons. split; [|now apply IH].
    unfold match_at. cbn [run rest]. now rewrite Hc.
Qed.

Lemma matchAll_cls p r s :
  forallb (fun c => negb (p c)) s = true -> matchAll (Seq (Cls p) r) s = [].
Proof.
  intros H. apply matchAll_absent, silent_test_false. now apply silent_cls.
Qed.

Lemma replaceAll_cls p r g s :
  forallb (fun c => negb (p c)) s = true -> replaceAll (Seq (Cls p) r) g s = s.
Proof.
  intros H. apply replaceAll_absent, silent_test_false. now apply silent_cls.
Qed.

End BracketFacts.

(** X25. On a text without "(" and "[", [removeParentheticals] records no
    Change; what it returns is the text after the four normalisation steps
    (white space, blanks before punctuation, commas, doubled periods),
    which can differ from the input. *)
Theorem removeParentheticals_without_brackets (text : str) (cs : list Change) :
  forallb (fun c => negb (Chr.one_of "(" c)) text = true ->
  forallb (fun c => negb (Chr.one_of "[" c)) text = true ->
  StyleRules.removeParentheticals text cs
  = (StyleRules.doubledPeriod
       (StyleRules.punctBeforeComma
          (StyleRules.spaceBeforePunct (StyleRules.collapseSpaces text))),
     cs).
Proof.
  intros H1 H2. unfold StyleRules.removeParentheticals.
  unfold StyleRules.parentheticalPattern, StyleRules.footnotePattern, Re.chr.
  cbn [Re.seqs].
  rewrite (BracketFacts.matchAll_cls _ _ _ H1). cbn [fold_left length Nat.ltb Nat.leb].
  rewrite (BracketFacts.replaceAll_cls _ _ _ _ H2), str_eqb_refl.
  reflexivity.
Qed.

Lemma removeParentheticals_without_brackets_witness :
  StyleRules.removeParentheticals (L "a  b , c") [] = (L "a b, c", []).
Proof.
  rewrite (removeParentheticals_without_brackets (L "a  b , c") []).
  - vm_compute. reflexivity.
  - vm_compute. reflexivity.
  - vm_compute. reflexivity.
Defined.

(** ** analyzeStructure *)

Module AnalyzeFacts.

Import AnalyzeStructure Reports TrimFacts.

Lemma forallb_existsb {A} (f : A -> bool) (l : list A) :
  forallb f l = negb (existsb (fun x => negb (f x)) l).
Proof.
  induction l as [|x l IH]; [reflexivity|].
  cbn [forallb existsb]. rewrite IH. now destruct (f x).
Qed.

Lemma valid_fixed (sectionAnalysis : list SectionAnalysis) :
  forallb (fun s => present s && negb (issuesSet s)) sectionAnalysis
  = negb (existsb (fun s => negb (present s) || issuesSet s) sectionAnalysis).
Proof.
  rewrite forallb_existsb. f_equal.
  induction sectionAnalysis as [|s l IH]; [reflexivity|].
  cbn [existsb]. rewrite IH. now destruct (present s), (issuesSet s).
Qed.

Lemma analyseSection_sound sections x cs :
  name (fst (analyseSection sections x cs)) = x
  /\ sound (fst (analyseSection sections x cs)).
Proof.
  unfold analyseSection, sound. destruct (findSection x sections) as [found|].
  - destruct (str_eqb (Str.toLowerCase x) (L "introduction")) eqn:E1.
    + unfold bind, ret.
      destruct (StructureRules.validateIntroduction (ds_content found) cs) as [v cs1].
      cbn [fst name present]. apply str_eqb_eq in E1.
      split; [reflexivity | split; [discriminate | now left]].
    + destruct (str_eqb (Str.toLowerCase x) (L "abstract")) eqn:E2.
      * unfold bind, ret.
        destruct (StructureRules.validateAbstract (ds_content found) cs) as [v cs1].
        cbn [fst name present]. apply str_eqb_eq in E2.
        split; [reflexivity | split; [discriminate | now right]].
      * cbn. split; [reflexivity | split; discriminate].
  - cbn. split; [reflexivity | split; [reflexivity | discriminate]].
Qed.

Lemma analyseAll_sound sections expected : forall cs,
  map name (fst (analyseAll sections expected cs)) = expected
  /\ Forall sound (fst (analyseAll sections expected cs)).
Proof.
  induction expected as [|x tl IH]; intros cs; [now split|].
  cbn [analyseAll]. unfold bind, ret.
  destruct (analyseSection_sound sections x cs) as [Hn Hs].
  destruct (analyseSection sections x cs) as [a cs1].
  destruct (IH cs1) as [In Is]. destruct (analyseAll sections tl cs1) as [tl' cs2].
  cbn [fst map] in *. split; [now rewrite Hn, In | now constructor].
Qed.

(** *** The sections of a document *)

Lemma join_blank sep x tl :
  forallb Chr.is_space (Str.join sep (x :: tl)) = true ->
  forallb Chr.is_space x = true.
Proof.
  destruct tl as [|y tl]; cbn [Str.join]; [auto|].
  rewrite forallb_app. intros H. apply andb_true_iff in H. tauto.
Qed.

Lemma closeSection_proper st : steady st -> Forall proper (closeSection st).
Proof.
  intros (Hs & Ht & Hl). unfold closeSection.
  destruct (currentSection st) as [t|]; [|exact Hs].
  destruct (contentLines st) as [|x tl]; [exact Hs|].
  apply Forall_app. split; [exact Hs|]. constructor; [|constructor].
  unfold proper. cbn [ds_title ds_content]. split; [now apply Ht|].
  split; [apply trim_idem|].
  intros H. apply trim_nil_blank, join_blank, trim_nil_blank in H.
  inversion Hl as [|? ? Hx _]; subst. now elim Hx.
Qed.

Lemma extractLine_steady st line : steady st -> steady (extractLine st line).
Proof.
  intros H. pose proof (closeSection_proper H) as Hc.
  destruct H as (Hs & Ht & Hl). unfold extractLine.
  destruct (firstMatch sectionPatterns line) as [m|].
  - split; [exact Hc|]. cbn [currentSection contentLines]. split; [|constructor].
    intros t [= <-]. apply trim_idem.
  - destruct (Str.trim line) eqn:E; [now split|].
    split; [exact Hs|]. split; [exact Ht|]. cbn [contentLines].
    apply Forall_app. split; [exact Hl|]. constructor; [|constructor].
    rewrite E. discriminate.
Qed.

Lemma fold_extractLine_steady lines : forall st,
  steady st -> steady (fold_left extractLine lines st).
Proof.
  induction lines as [|line lines IH]; intros st H; [exact H|].
  cbn [fold_left]. now apply IH, extractLine_steady.
Qed.

Lemma extractDocumentSections_proper text :
  Forall proper (extractDocumentSections text).
Proof.
  unfold extractDocumentSections.
  assert (H : Forall proper
                (closeSection
                   (fold_left extractLine
                      (Str.splitChar DocumentProcessor.LF [] text)
                      (mkExtract [] None [])))).
  { apply closeSection_proper, fold_extractLine_steady.
    split; [constructor | split; [discriminate | constructor]]. }
  destruct (closeSection _) as [|s ss]; [|exact H].
  destruct (Str.trim text) as [|c y] eqn:E; [constructor|].
  constructor; [|constructor]. unfold proper. cbn [ds_title ds_content].
  split; [reflexivity | split; [|discriminate]].
  rewrite <- E. apply trim_idem.
Qed.

End AnalyzeFacts.

(** X26. [analyzeStructure] offers a fixed version exactly when it reports
    the structure as not valid. Its report has one entry per expected
    section, in their order; a section that is absent carries the one issue
    "... section is missing", and a section that is present carries issues
    only if it is expected as "introduction" or "abstract" (in any letter
    case): no other section is looked into. *)
Theorem analyzeStructure_report (text : str) (expectedSections : option (list str)) :
  let result := AnalyzeStructure.analyzeStructure text expectedSections in
  let expected := match expectedSections with
                  | Some l => l
                  | None => AnalyzeStructure.defaultExpectedSections
                  end in
  (AnalyzeStructure.sar_valid result = true
   <-> AnalyzeStructure.fixedVersion result = None)
  /\ map AnalyzeStructure.name (AnalyzeStructure.sar_sections result) = expected
  /\ Forall Reports.sound (AnalyzeStructure.sar_sections result).
Proof.
  cbv zeta. unfold AnalyzeStructure.analyzeStructure.
  cbn [AnalyzeStructure.sar_valid AnalyzeStructure.fixedVersion
       AnalyzeStructure.sar_sections].
  split; [|apply AnalyzeFacts.analyseAll_sound].
  rewrite AnalyzeFacts.valid_fixed.
  destruct (existsb _ _); cbn [negb]; split; congruence.
Qed.

(** X27. Every section that [extractDocumentSections] returns has a
    trimmed title and a trimmed content that is not empty: a heading
    followed by blank lines only yields no section. *)
Theorem extractDocumentSections_content (text : str) :
  Forall (fun s =>
            Str.trim (AnalyzeStructure.ds_title s) = AnalyzeStructure.ds_title s
            /\ Str.trim (AnalyzeStructure.ds_content s) = AnalyzeStructure.ds_content s
            /\ AnalyzeStructure.ds_content s <> [])
         (AnalyzeStructure.extractDocumentSections text).
Proof. apply AnalyzeFacts.extractDocumentSections_proper. Qed.

(** ** The words of a text and the pieces of [split(/\s+/)] *)

Module PieceFacts.

Import Words Pieces TrimFacts.

Lemma endsBlank_cons c l :
  endsBlank (c :: l) = match l with [] => Chr.is_space c | _ :: _ => endsBlank l end.
Proof. destruct l; reflexivity. Qed.

(** the pieces are the words, with the empty pieces of the two ends *)
Lemma fields_words l :
  (forall cur, cur <> [] -> fieldsFrom false cur l = wordsFrom cur l ++ trail l)
  /\ fieldsFrom true [] l
     = wordsFrom [] l
       ++ (if match l with [] => true | _ :: _ => endsBlank l end then [[]] else []).
Proof.
  induction l as [|c l [IH1 IH2]].
  - split; [intros cur Hc | reflexivity].
    destruct cur; [now elim Hc | reflexivity].
  - assert (Hword : forall cur, cur <> [] ->
              fieldsFrom false cur (c :: l) = wordsFrom cur (c :: l) ++ trail (c :: l)).
    { intros cur Hc. unfold trail. rewrite endsBlank_cons.
      cbn [fieldsFrom wordsFrom]. destruct (Chr.is_space c) eqn:Hs.
      - destruct cur as [|x cur]; [now elim Hc|]. rewrite IH2.
        destruct l; reflexivity.
      - rewrite IH1 by discriminate. unfold trail. destruct l; reflexivity. }
    split; [exact Hword|].
    rewrite endsBlank_cons. cbn [fieldsFrom wordsFrom].
    destruct (Chr.is_space c) eqn:Hs.
    + rewrite IH2. destruct l; reflexivity.
    + rewrite IH1 by discriminate. unfold trail. destruct l; reflexivity.
Qed.

Lemma split_pieces s :
  Re.split Re.s_plus s = lead s ++ words s ++ trail s.
Proof.
  rewrite WordFacts.split_fields. destruct s as [|c s]; [reflexivity|].
  destruct (fields_words s) as [H1 H2].
  unfold lead, trail, words. rewrite endsBlank_cons.
  cbn [fieldsFrom wordsFrom startsBlank]. destruct (Chr.is_space c) eqn:Hs.
  - rewrite H2. destruct s; reflexivity.
  - rewrite H1 by discriminate. unfold trail. destruct s; reflexivity.
Qed.

Lemma wordCount_count s : ClarityRules.wordCount s = count s.
Proof.
  unfold ClarityRules.wordCount, count, numWords. rewrite split_pieces.
  rewrite !length_app. lia.
Qed.

Lemma length_lead s : length (lead s) <= 1.
Proof. unfold lead. destruct (startsBlank s); cbn; lia. Qed.


(** every word is a non-empty run without white space *)
Lemma wordsFrom_isWord l : forall cur,
  forallb (fun c => negb (Chr.is_space c)) cur = true ->
  Forall isWord (wordsFrom cur l).
Proof.
  assert (Hrev : forall cur : str, cur <> [] ->
            forallb (fun c => negb (Chr.is_space c)) cur = true ->
            isWord (rev cur)).
  { intros cur Hc Hs. split.
    - intros H. apply Hc. apply (f_equal (@rev ascii)) in H.
      now rewrite rev_involutive in H.
    - apply forallb_forall. intros x Hx. apply in_rev in Hx.
      now apply (proj1 (forallb_forall _ _) Hs). }
  induction l as [|c l IH]; intros cur Hcur; cbn [wordsFrom].
  - destruct cur; [constructor|]. constructor; [|constructor].
    now apply Hrev.
  - destruct (Chr.is_space c) eqn:Hs.
    + destruct cur; [now apply IH|]. constructor; [now apply Hrev | now apply IH].
    + apply IH. cbn [forallb]. now rewrite Hs, Hcur.
Qed.

Lemma words_isWord s : Forall isWord (words s).
Proof. now apply wordsFrom_isWord. Qed.

(** [countWords] of the tracking document counts the words *)
Lemma countWords_numWords s : Tracking.countWords s = numWords s.
Proof.
  unfold Tracking.countWords, numWords. rewrite split_pieces.
  rewrite !filter_app.
  assert (H0 : forall l : list str, (l = [] \/ l = [[]]) ->
            @filter str (fun word : list ascii => 0 <? length word) l = []).
  { intros l [-> | ->]; reflexivity. }
  rewrite (H0 (lead s)), (H0 (trail s)).
  - rewrite app_nil_r. cbn [app]. f_equal.
    pose proof (words_isWord s) as H. induction H as [|w l [Hw _] _ IH]; [reflexivity|].
    cbn [filter]. destruct w; [now elim Hw|].
    cbn [length]. change (0 <? S (length w)) with true. cbv iota.
    f_equal. exact IH.
  - unfold trail. destruct (endsBlank s); auto.
  - unfold lead. destruct (startsBlank s); auto.
Qed.










(** a text that [trimEnd] leaves alone is empty or ends with a character that
    is no white space *)
Lemma trimEnd_fixed_last s :
  Str.trimEnd s = s ->
  s = [] \/ exists y e, s = y ++ [e] /\ Chr.is_space e = false.
Proof.
  intros H. unfold Str.trimEnd in H.
  apply (f_equal (@rev ascii)) in H. rewrite rev_involutive in H.
  pose proof (trimStart_head (rev s)) as Hh. rewrite H in Hh.
  destruct (rev s) as [|e r] eqn:Hr.
  - left. apply (f_equal (@rev ascii)) in Hr. now rewrite rev_involutive in Hr.
  - right. exists (rev r), e. split; [|exact Hh].
    apply (f_equal (@rev ascii)) in Hr. now rewrite rev_involutive in Hr.
Qed.

Lemma trim_fixed_trimEnd s : Str.trim s = s -> Str.trimEnd s = s.
Proof.
  intros H. rewrite <- H at 1. unfold Str.trim. rewrite trimEnd_idem. exact H.
Qed.

Lemma endsBlank_app a b : b <> [] -> endsBlank (a ++ b) = endsBlank b.
Proof.
  intros Hb. induction a as [|x a IH]; [reflexivity|].
  cbn [app]. rewrite endsBlank_cons. destruct (a ++ b) eqn:E; [|exact IH].
  apply app_eq_nil in E. now elim Hb.
Qed.

(** a trimmed text has no white space at its ends *)
Lemma trimmed_startsBlank s :
  Str.trim s = s -> startsBlank s = match s with [] => true | _ :: _ => false end.
Proof.
  intros H. pose proof (trim_head s) as Hh. rewrite H in Hh.
  destruct s; [reflexivity | exact Hh].
Qed.

Lemma trimmed_endsBlank s : Str.trim s = s -> endsBlank s = false.
Proof.
  intros H. destruct (trimEnd_fixed_last (trim_fixed_trimEnd H)) as [-> | (y & e & -> & He)].
  - reflexivity.
  - rewrite endsBlank_app by discriminate. exact He.
Qed.

(** a trimmed text has as many pieces as words, the empty text apart *)
Lemma trimmed_count s :
  Str.trim s = s ->
  count s = numWords s + match s with [] => 1 | _ :: _ => 0 end.
Proof.
  intros H. unfold count, lead, trail.
  rewrite (trimmed_startsBlank H), (trimmed_endsBlank H).
  destruct s; cbn [length]; lia.
Qed.

Lemma trimmed_long s n :
  Str.trim s = s -> 1 <= n -> (n < count s <-> n < numWords s).
Proof.
  intros H Hn. rewrite (trimmed_count H). destruct s; [cbn; lia | lia].
Qed.


End PieceFacts.

(** ** The halves of a split sentence *)

Module CutFacts.

Import Re Scan RepFacts LangFacts Words Pieces PieceFacts TrimFacts.
Import ClarityRules Splits Sentences.





























End CutFacts.

(** ** validateAbstract and the words of the abstract *)

Module TruncateFacts.

Import StructureRules Abstracts Words Pieces PieceFacts.





End TruncateFacts.







(** X9. An abstract that names a problem, an approach and a result, holds
    none of the three phrases, and counts fewer than 100 gets the expansion
    sentence appended to it; it is reported as not valid, and no Change is
    recorded for the appended sentence. The count is the number of words of
    the abstract, one more when the abstract is empty or starts with white
    space, and one more when it ends with white space. *)
Theorem validateAbstract_expands_silently (text : str) (cs : list Change) :
  Abstracts.selfContainedText text = true ->
  Abstracts.neutral text = true ->
  Pieces.count text < 100 ->
  let result := StructureRules.validateAbstract text cs in
  fixedText (fst result) = StructureRules.expandAbstract text
  /\ valid (fst result) = false
  /\ vr_changes (fst result) = cs
  /\ snd result = cs.
Proof.
  intros H Hn Hw. cbv zeta. rewrite <- PieceFacts.wordCount_count in Hw.
  unfold ClarityRules.wordCount in Hw.
  unfold StructureRules.validateAbstract.
  rewrite RestructureFacts.restructureAbstract_short by assumption.
  cbn [fst snd fixedText valid vr_changes StructureRules.independent
       StructureRules.selfContained StructureRules.correctLength].
  repeat split.
  apply Nat.leb_gt in Hw. rewrite Hw. now rewrite andb_false_r.
Qed.

Lemma validateAbstract_expands_silently_witness :
  let result := StructureRules.validateAbstract Restructure.shortAbstract [] in
  fixedText (fst result) = StructureRules.expandAbstract Restructure.shortAbstract
  /\ valid (fst result) = false
  /\ vr_changes (fst result) = []
  /\ snd result = [].
Proof.
  apply (validateAbstract_expands_silently Restructure.shortAbstract []).
  - vm_compute. reflexivity.
  - vm_compute. reflexivity.
  - vm_compute. lia.
Defined.

(** The count of X9 is not the number of words: 99 words behind a blank
    count 100, so the abstract is reported valid and is left as it is. *)
Lemma validateAbstract_99_words_behind_blank :
  let result := StructureRules.validateAbstract Pieces.nearlyShort [] in
  Pieces.numWords Pieces.nearlyShort = 99
  /\ Pieces.count Pieces.nearlyShort = 100
  /\ valid (fst result) = true
  /\ fixedText (fst result) = Pieces.nearlyShort.
Proof. vm_compute. repeat split; reflexivity. Qed.
